(** * The sorted skiplist of [src/t_sl.c] and its six commands

    A shallow embedding of [t_sl.c]: the comparator [slCmp], the range
    parser, the skiplist primitives working on a store of nodes addressed
    by pointers, and the commands [sladd], [slrem], [slall], [slrange],
    [slsearch] and [slcard] working on a key table and a reply buffer.

    Conventions.
    - A C pointer that may be [NULL] is an [option]; a store maps
      addresses to nodes, and every skiplist object owns its store.
      Reading through [NULL], through a freed address or past the end of
      a tower stops the run with a [fault].
    - A loop over nodes is given as many steps as the store has cells,
      plus one; needing more means walking a cycle.
    - [int] is 32 bits and [long] 64 bits (LP64); the conversions are
      written out where the source converts.
    - [random()] is a script of the values it will return.
    - Reference counts are not modelled.

    The first part holds the definitions: the embedding, then the notions
    used to state properties.  The second part holds the properties,
    grouped by the claim of the specification they settle, and then what
    the primitives and the commands keep of a well-formed list. *)

From Stdlib Require Import ZArith String Ascii List Lia DecimalString.
From stdpp Require Import base option list gmap strings.

Local Open Scope Z_scope.

(** ** Machine integers *)

(** Conversion to [int]: reduction modulo 2^32 into [-2^31, 2^31). *)
Definition int_of (z : Z) : Z := (z + 2 ^ 31) mod 2 ^ 32 - 2 ^ 31.

(** Arithmetic in [long]: reduction modulo 2^64 into [-2^63, 2^63). *)
Definition long_of (z : Z) : Z := (z + 2 ^ 63) mod 2 ^ 64 - 2 ^ 63.

Definition LONG_MIN : Z := - 2 ^ 63.
Definition LONG_MAX : Z := 2 ^ 63 - 1.

(** ** Redis objects *)

(** Type and encoding tags of [redis.h] (outside [src/]); only their
    being distinct matters below. *)
Definition REDIS_STRING : Z := 0.
Definition REDIS_LIST : Z := 1.
Definition REDIS_ENCODING_RAW : Z := 0.
Definition REDIS_ENCODING_INT : Z := 1.
Definition REDIS_ENCODING_SKIPLIST : Z := 7.

(** An [robj] as this file sees it: a string object carrying an sds
    (binary safe, so any byte may occur in it), a string object carrying
    a [long] in its [ptr] field, or an object of another type, whose tag
    is a positive number because [REDIS_STRING] is 0. *)
Inductive robj : Type :=
| RawString (s : string)
| IntString (n : Z)
| NonString (t : positive) (e : Z).

Definition type (o : robj) : Z :=
  match o with
  | RawString _ | IntString _ => REDIS_STRING
  | NonString t _ => Z.pos t
  end.

Definition encoding (o : robj) : Z :=
  match o with
  | RawString _ => REDIS_ENCODING_RAW
  | IntString _ => REDIS_ENCODING_INT
  | NonString _ e => e
  end.

(** [(long) o->ptr] of an integer encoded object. *)
Definition ptr_long (o : robj) : Z :=
  match o with IntString n => n | _ => 0 end.

(** ** Helpers of the server that [t_sl.c] calls *)

Definition byte_val (c : ascii) : Z := Z.of_N (N_of_ascii c).

(** [memcmp] over the common prefix of two byte strings: the difference
    of the first pair of bytes that differ, 0 when there is none. *)
Fixpoint memcmp (a b : string) : Z :=
  match a, b with
  | String x a', String y b' =>
      if byte_val x =? byte_val y then memcmp a' b' else byte_val x - byte_val y
  | _, _ => 0
  end.

(** [ll2string]: the decimal text of a [long]. *)
Definition ll2string (n : Z) : string := NilZero.string_of_int (Z.to_int n).

(** The bytes [compareStringObjects] looks at: the sds itself, or the
    decimal text of an integer encoded object. *)
Definition string_bytes (o : robj) : string :=
  match o with
  | RawString s => s
  | IntString n => ll2string n
  | NonString _ _ => EmptyString
  end.

(** Modelled from the spec: [compareStringObjects] is defined in the
    server's [object.c], outside [src/].  It compares the underlying byte
    strings lexicographically: [memcmp] on the common prefix, then the
    difference of the lengths. *)
Definition compareStringObjects (a b : robj) : Z :=
  let astr := string_bytes a in
  let bstr := string_bytes b in
  let cmp := memcmp astr bstr in
  if cmp =? 0
  then int_of (Z.of_nat (String.length astr) - Z.of_nat (String.length bstr))
  else cmp.

(** Modelled from the spec: [equalStringObjects] is defined in the
    server's [object.c], outside [src/].  Two integer encoded objects are
    equal when their integers are; otherwise the byte strings are
    compared. *)
Definition equalStringObjects (a b : robj) : bool :=
  if (encoding a =? REDIS_ENCODING_INT) && (encoding b =? REDIS_ENCODING_INT)
  then ptr_long a =? ptr_long b
  else compareStringObjects a b =? 0.

Definition digit_val (c : ascii) : option Z :=
  let n := byte_val c in
  if (48 <=? n) && (n <=? 57) then Some (n - 48) else None.

Fixpoint digits (s : string) (acc : Z) : option Z :=
  match s with
  | EmptyString => Some acc
  | String c s' =>
      match digit_val c with
      | Some d => digits s' (10 * acc + d)
      | None => None
      end
  end.

(** [string2l]: a strict decimal reading of a byte string as a [long]:
    no sign but a leading minus, no leading zero, no overflow. *)
Definition string2l (s : string) : option Z :=
  match s with
  | EmptyString => None
  | String c rest =>
      if (byte_val c =? 48) then
        match rest with EmptyString => Some 0 | _ => None end
      else if (byte_val c =? 45) then
        match rest with
        | EmptyString => None
        | String d _ =>
            if byte_val d =? 48 then None
            else match digits rest 0 with
                 | Some v => if LONG_MIN <=? - v then Some (- v) else None
                 | None => None
                 end
        end
      else match digits s 0 with
           | Some v => if v <=? LONG_MAX then Some v else None
           | None => None
           end
  end.

(** Modelled from the spec: [tryObjectEncoding] is defined in the
    server's [object.c], outside [src/].  It converts a short numeric
    string (at most 21 bytes, the strict decimal text of a [long]) to the
    integer encoding and leaves every other object as it is. *)
Definition tryObjectEncoding (o : robj) : robj :=
  match o with
  | RawString s =>
      if (21 <? Z.of_nat (String.length s)) then o
      else match string2l s with
           | Some v => IntString v
           | None => o
           end
  | _ => o
  end.

(** The two singletons of the server's [shared] structure that this file
    reads, [shared.minstring] and [shared.maxstring].  They are created
    outside [src/]; the functions that read them take the structure as an
    argument. *)
Record sharedObjectsStruct : Type := mkShared {
  minstring : robj;
  maxstring : robj
}.

(** Modelled from the spec: the singletons MIN_SENTINEL and MAX_SENTINEL
    are byte strings created by the server ([redis.c], outside [src/]),
    there from the texts "minstring" and "maxstring".  They are used to
    run the examples; no run below compares a score with them. *)
Definition shared : sharedObjectsStruct :=
  mkShared (RawString "minstring") (RawString "maxstring").

(** ** The comparator *)

(** [slCmp]: the difference of two [long]s is stored into the [int]
    [cmp]. *)
Definition slCmp (score1 score2 : option robj) : Z :=
  match score1, score2 with
  | None, None => 0
  | None, Some _ => 1
  | Some _, None => -1
  | Some o1, Some o2 =>
      if (type o1 =? REDIS_STRING) && (type o2 =? REDIS_STRING) then
        if (encoding o1 =? REDIS_ENCODING_INT) && (encoding o2 =? REDIS_ENCODING_INT)
        then
          let score1Long := ptr_long o1 in
          let score2Long := ptr_long o2 in
          int_of (long_of (score1Long - score2Long))
        else compareStringObjects o1 o2
      else 0
  end.

(** ** Faults and results *)

Inductive fault : Type :=
| NullDeref        (* a read or write through NULL *)
| Dangling         (* a read or write through a freed or wild pointer *)
| OutOfBounds      (* an index past the end of an array *)
| TypeConfusion    (* [ptr] of an object used as what it is not *)
| Diverges         (* a loop that walks a cycle *)
| RandomExhausted. (* the script of [random()] has ended *)

Inductive result (A : Type) : Type :=
| Ok (a : A)
| Crash (f : fault).
Arguments Ok {A} a.
Arguments Crash {A} f.

Global Instance result_ret : MRet result := @Ok.
Global Instance result_bind : MBind result :=
  λ A B f r, match r with Ok a => f a | Crash e => Crash e end.

(** ** Range specifications *)

Record slrangespec : Type := mkRange {
  min : robj;
  max : robj;
  minex : Z;
  maxex : Z
}.

(** [c[i]] for an sds [c]: its byte, or the terminating NUL right after
    the last one. *)
Definition sds_at (c : string) (i : nat) : ascii :=
  match String.get i c with Some a => a | None => Ascii.zero end.

(** [c + 1] with its length [sdslen(c) - 1]. *)
Definition sds_tail (c : string) : string :=
  match c with EmptyString => EmptyString | String _ r => r end.

(** The sds behind [item->ptr]. *)
Definition sds_of (item : robj) : result string :=
  match item with
  | RawString s => Ok s
  | IntString _ => Crash Dangling
  | NonString _ _ => Crash TypeConfusion
  end.

(** [slParseRangeItem]: [Some (dest, ex)] is [REDIS_OK] with the two
    stores done, [None] is [REDIS_ERR]. *)
Definition slParseRangeItem (sh : sharedObjectsStruct) (item : robj)
  : result (option (robj * Z)) :=
  c ← sds_of item;
  let c0 := byte_val (sds_at c 0) in
  if c0 =? 43 (* '+' *) then
    if negb (byte_val (sds_at c 1) =? 0) then Ok None
    else Ok (Some (maxstring sh, 0))
  else if c0 =? 45 (* '-' *) then
    if negb (byte_val (sds_at c 1) =? 0) then Ok None
    else Ok (Some (minstring sh, 0))
  else if c0 =? 40 (* '(' *) then
    Ok (Some (RawString (sds_tail c), 1))
  else if c0 =? 91 (* '[' *) then
    Ok (Some (RawString (sds_tail c), 0))
  else
    Ok (Some (RawString c, 0)).

(** [slParseRange]: [Some spec] is [REDIS_OK], [None] is [REDIS_ERR]. *)
Definition slParseRange (sh : sharedObjectsStruct) (min max : robj)
  : result (option slrangespec) :=
  if (encoding min =? REDIS_ENCODING_INT) || (encoding max =? REDIS_ENCODING_INT)
  then Ok None
  else
    rmin ← slParseRangeItem sh min;
    match rmin with
    | None => Ok None
    | Some (smin, sminex) =>
        rmax ← slParseRangeItem sh max;
        match rmax with
        | None => Ok None
        | Some (smax, smaxex) => Ok (Some (mkRange smin smax sminex smaxex))
        end
    end.

(** ** Nodes, skiplists and the store *)

Definition ptr : Type := nat.

(** [slNode]: [forward] is the tower, [forward !! i] standing for
    [level[i].forward]. *)
Record slNode : Type := mkNode {
  score : option robj;
  obj : option robj;
  backward : option ptr;
  forward : list (option ptr)
}.

(** [skiplist]: the fields [header], [tail], [length] (an
    [unsigned long]) and [level] (an [int]). *)
Record skiplist : Type := mkSkiplist {
  sl_header : ptr;
  sl_tail : option ptr;
  sl_length : Z;
  sl_level : Z
}.

(** The nodes allocated so far; [brk] is the address [zmalloc] hands out
    next. *)
Record memory : Type := mkMemory {
  cells : gmap ptr slNode;
  brk : ptr
}.

(** Modelled from the spec: [SKIPLIST_MAXLEVEL] and [SKIPLIST_P] are
    macros of [redis.h], outside [src/]; the spec gives 32 and 1/4. *)
Definition SKIPLIST_MAXLEVEL : Z := 32.
Definition SKIPLIST_P_num : Z := 1.
Definition SKIPLIST_P_den : Z := 4.

Definition ulong_of (z : Z) : Z := z mod 2 ^ 64.

Definition load (m : memory) (x : ptr) : result slNode :=
  match cells m !! x with
  | Some n => Ok n
  | None => Crash Dangling
  end.

Definition deref (m : memory) (p : option ptr) : result slNode :=
  match p with
  | Some x => load m x
  | None => Crash NullDeref
  end.

Definition nonnull {A : Type} (p : option A) : result A :=
  match p with
  | Some a => Ok a
  | None => Crash NullDeref
  end.

Definition forward_at (n : slNode) (i : nat) : result (option ptr) :=
  match forward n !! i with
  | Some f => Ok f
  | None => Crash OutOfBounds
  end.

(** [x->level[i].forward] *)
Definition fwd (m : memory) (x : ptr) (i : nat) : result (option ptr) :=
  n ← load m x; forward_at n i.

Definition store (m : memory) (x : ptr) (n : slNode) : memory :=
  mkMemory (<[x := n]> (cells m)) (brk m).

(** [x->level[i].forward = f] *)
Definition set_forward (m : memory) (x : ptr) (i : nat) (f : option ptr)
  : result memory :=
  n ← load m x;
  if decide (i < length (forward n))%nat
  then Ok (store m x (mkNode (score n) (obj n) (backward n) (<[i := f]> (forward n))))
  else Crash OutOfBounds.

(** [x->backward = b] *)
Definition set_backward (m : memory) (x : ptr) (b : option ptr) : result memory :=
  n ← load m x;
  Ok (store m x (mkNode (score n) (obj n) b (forward n))).

(** [update[i]] of the local array [update[SKIPLIST_MAXLEVEL]], of which
    only the slots written so far are kept. *)
Definition update_at (update : list ptr) (i : nat) : result ptr :=
  match update !! i with
  | Some u => Ok u
  | None => Crash OutOfBounds
  end.

(** No loop over the nodes of a store can take more steps than the store
    has cells without walking a cycle. *)
Definition fuel_of (m : memory) : nat := S (size (cells m)).

(** How the body of a [while] inside a [for] ends: the function returns,
    or the [while] is left with [x]. *)
Inductive leave (A : Type) : Type :=
| Return (a : A)
| Break (x : ptr).
Arguments Return {A} a.
Arguments Break {A} x.

(** ** Creating and freeing *)

(** [slCreateNode]: the fields the source leaves uninitialised
    ([backward] and the tower) are all written before they are read; they
    start here as [NULL]. *)
Definition slCreateNode (m : memory) (level : Z) (s o : option robj)
  : memory * ptr :=
  let zn := brk m in
  (mkMemory (<[zn := mkNode s o None (replicate (Z.to_nat level) None)]> (cells m))
            (S zn),
   zn).

Definition empty_memory : memory := mkMemory ∅ 0%nat.

(** [slCreate] *)
Definition slCreate (m : memory) : memory * skiplist :=
  let '(m1, h) := slCreateNode m SKIPLIST_MAXLEVEL None None in
  (m1, mkSkiplist h None 0 1).

(** [slFreeNode] *)
Definition slFreeNode (m : memory) (node : ptr) : memory :=
  mkMemory (delete node (cells m)) (brk m).

(** [zfree] of a node: the cell is gone, without a look at its fields. *)
Definition zfree (m : memory) (node : ptr) : memory :=
  mkMemory (delete node (cells m)) (brk m).

(** The [while] of [slFree]: [next] is read from the node before the
    node is freed. *)
Fixpoint slFree_while (fuel : nat) (m : memory) (node : option ptr)
  : result memory :=
  match fuel with
  | O => Crash Diverges
  | S fuel' =>
      match node with
      | None => Ok m
      | Some x =>
          n ← load m x;
          next ← forward_at n 0;
          slFree_while fuel' (slFreeNode m x) next
      end
  end.

(** [slFree]: the first node is read from the header, the header is
    freed, then node after node.  The [skiplist] structure itself is not
    in the store, and its [zfree] leaves nothing behind. *)
Definition slFree (m : memory) (sl : skiplist) : result memory :=
  node ← fwd m (sl_header sl) 0;
  slFree_while (fuel_of m) (zfree m (sl_header sl)) node.

(** ** Random level *)

Fixpoint slRandomLevel_while (rs : list Z) (level : Z) : result (Z * list Z) :=
  match rs with
  | [] => Crash RandomExhausted
  | r :: rs' =>
      (* (random() & 0xFFFF) < SKIPLIST_P * 0xFFFF, in exact arithmetic *)
      if SKIPLIST_P_den * Z.land r 65535 <? SKIPLIST_P_num * 65535
      then slRandomLevel_while rs' (int_of (level + 1))
      else Ok (level, rs')
  end.

Definition slRandomLevel (rs : list Z) : result (Z * list Z) :=
  '(level, rs') ← slRandomLevel_while rs 1;
  Ok (if level <? SKIPLIST_MAXLEVEL then level else SKIPLIST_MAXLEVEL, rs').

(** ** Deleting a node *)

(** The first loop of [slDeleteNode], over the levels in [lvls]. *)
Fixpoint slDeleteNode_unlink (m : memory) (x : ptr) (update : list ptr)
  (lvls : list nat) : result memory :=
  match lvls with
  | [] => Ok m
  | i :: rest =>
      u ← update_at update i;
      f ← fwd m u i;
      if decide (f = Some x) then
        xf ← fwd m x i;
        m' ← set_forward m u i xf;
        slDeleteNode_unlink m' x update rest
      else slDeleteNode_unlink m x update rest
  end.

(** The loop that lowers [sl->level]; it runs at most [level] times. *)
Fixpoint slDeleteNode_shrink (n : nat) (m : memory) (header : ptr) (level : Z)
  : result Z :=
  match n with
  | O => Ok level
  | S n' =>
      if 1 <? level then
        f ← fwd m header (Z.to_nat (level - 1));
        match f with
        | None => slDeleteNode_shrink n' m header (level - 1)
        | Some _ => Ok level
        end
      else Ok level
  end.

Definition slDeleteNode (m : memory) (sl : skiplist) (x : ptr) (update : list ptr)
  : result (memory * skiplist) :=
  m1 ← slDeleteNode_unlink m x update (seq 0 (Z.to_nat (sl_level sl)));
  nx ← load m1 x;
  f0 ← forward_at nx 0;
  '(m2, tail) ← match f0 with
                | Some y => m' ← set_backward m1 y (backward nx); Ok (m', sl_tail sl)
                | None => Ok (m1, backward nx)
                end;
  level ← slDeleteNode_shrink (Z.to_nat (sl_level sl)) m2 (sl_header sl) (sl_level sl);
  Ok (m2, mkSkiplist (sl_header sl) tail (ulong_of (sl_length sl - 1)) level).

(** ** Searching *)

(** The inner loop of [slSearchSmallestNode] that is meant to walk back
    to the first node of the score [s]. *)
Fixpoint slSearchSmallestNode_back (fuel : nat) (m : memory) (s : robj)
  (x : ptr) : result ptr :=
  match fuel with
  | O => Crash Diverges
  | S fuel' =>
      n ← load m x;
      match backward n with
      | Some b =>
          if 0 <? slCmp (score n) (Some s)
          then slSearchSmallestNode_back fuel' m s b
          else Ok x
      | None => Ok x
      end
  end.

(** The [while] of [slSearchSmallestNode] at level [i]. *)
Fixpoint slSearchSmallestNode_while (fuel : nat) (m : memory) (s : robj)
  (i : nat) (x : ptr) : result (leave (option ptr)) :=
  match fuel with
  | O => Crash Diverges
  | S fuel' =>
      f ← fwd m x i;
      match f with
      | None => Ok (Break x)
      | Some y =>
          ny ← load m y;
          let cmp := slCmp (score ny) (Some s) in
          if cmp <? 0 then slSearchSmallestNode_while fuel' m s i y
          else if cmp =? 0 then
            r ← slSearchSmallestNode_back (fuel_of m) m s y;
            Ok (Return (Some r))
          else Ok (Break x)
      end
  end.

(** The [for] of [slSearchSmallestNode]: [n] levels are left, the next
    one is [n - 1]. *)
Fixpoint slSearchSmallestNode_for (m : memory) (s : robj) (n : nat) (x : ptr)
  : result (option ptr) :=
  match n with
  | O => Ok None
  | S i =>
      e ← slSearchSmallestNode_while (fuel_of m) m s i x;
      match e with
      | Return r => Ok r
      | Break x' => slSearchSmallestNode_for m s i x'
      end
  end.

Definition slSearchSmallestNode (m : memory) (sl : skiplist) (s : robj)
  : result (option ptr) :=
  slSearchSmallestNode_for m s (Z.to_nat (sl_level sl)) (sl_header sl).

(** ** The low end of a range *)

(** The loop of [slRangeSmallestNode] that walks back over nodes equal to
    [range->min]. *)
Fixpoint slRangeSmallestNode_back (fuel : nat) (m : memory) (sl : skiplist)
  (range : slrangespec) (x : ptr) : result ptr :=
  match fuel with
  | O => Crash Diverges
  | S fuel' =>
      if minex range =? 0 then
        n ← load m x;
        match backward n with
        | Some b =>
            if decide (b = sl_header sl) then Ok x
            else
              nb ← load m b;
              if slCmp (score nb) (Some (min range)) =? 0
              then slRangeSmallestNode_back fuel' m sl range b
              else Ok x
        | None => Ok x
        end
      else Ok x
  end.

(** What [slRangeSmallestNode] and [slRangeLargestNode] hand back: the
    node, and what was stored through [foundexactvalue], if anything. *)
Definition found : Type := (option ptr * option Z)%type.

Fixpoint slRangeSmallestNode_while (fuel : nat) (m : memory) (sl : skiplist)
  (range : slrangespec) (i : nat) (x : ptr) : result (leave found) :=
  match fuel with
  | O => Crash Diverges
  | S fuel' =>
      f ← fwd m x i;
      match f with
      | None => Ok (Break x)
      | Some y =>
          ny ← load m y;
          let cmp := slCmp (score ny) (Some (min range)) in
          if cmp <? 0 then slRangeSmallestNode_while fuel' m sl range i y
          else if cmp =? 0 then
            r ← slRangeSmallestNode_back (fuel_of m) m sl range y;
            Ok (Return (Some r, Some 1))
          else if (Nat.eqb i 0) && (0 <? cmp) then
            Ok (Return (Some y, Some 0))
          else Ok (Break x)
      end
  end.

Fixpoint slRangeSmallestNode_for (m : memory) (sl : skiplist)
  (range : slrangespec) (n : nat) (x : ptr) : result found :=
  match n with
  | O => Ok (None, None)
  | S i =>
      e ← slRangeSmallestNode_while (fuel_of m) m sl range i x;
      match e with
      | Return r => Ok r
      | Break x' => slRangeSmallestNode_for m sl range i x'
      end
  end.

Definition slRangeSmallestNode (m : memory) (sl : skiplist) (range : slrangespec)
  : result found :=
  f0 ← fwd m (sl_header sl) 0;
  first ← deref m f0;
  if 0 <? slCmp (score first) (Some (max range)) then Ok (None, None)
  else slRangeSmallestNode_for m sl range (Z.to_nat (sl_level sl)) (sl_header sl).

Fixpoint slRangeLowEnd_while (fuel : nat) (m : memory) (range : slrangespec)
  (foundexactvalue : Z) (smallest : option ptr) : result (option ptr) :=
  match fuel with
  | O => Crash Diverges
  | S fuel' =>
      if negb (minex range =? 0) && negb (foundexactvalue =? 0) then
        n ← deref m smallest;
        if slCmp (score n) (Some (min range)) =? 0 then
          f ← forward_at n 0;
          match f with
          | None => Ok None
          | Some y => slRangeLowEnd_while fuel' m range foundexactvalue (Some y)
          end
        else Ok smallest
      else Ok smallest
  end.

(** [slRangeLowEnd]: the local [foundexactvalue] is declared without a
    value; [uninit] is what it happens to hold. *)
Definition slRangeLowEnd (uninit : Z) (m : memory) (sl : skiplist)
  (range : slrangespec) : result (option ptr) :=
  '(smallest, stored) ← slRangeSmallestNode m sl range;
  let foundexactvalue := default uninit stored in
  slRangeLowEnd_while (fuel_of m) m range foundexactvalue smallest.

(** ** The high end of a range *)

Fixpoint slRangeLargestNode_while (fuel : nat) (m : memory)
  (range : slrangespec) (i : nat) (x : ptr) : result (leave found) :=
  match fuel with
  | O => Crash Diverges
  | S fuel' =>
      f ← fwd m x i;
      match f with
      | None => Ok (Break x)
      | Some y =>
          ny ← load m y;
          let cmp := slCmp (score ny) (Some (max range)) in
          if cmp <? 0 then slRangeLargestNode_while fuel' m range i y
          else if negb (maxex range =? 0) && (cmp =? 0) then
            Ok (Return (Some y, Some 1))
          else if (maxex range =? 0) && (cmp =? 0) then
            ff ← forward_at ny i;
            same ← match ff with
                   | Some z =>
                       nz ← load m z;
                       Ok (slCmp (score nz) (Some (max range)) =? 0)
                   | None => Ok false
                   end;
            if (same : bool) then slRangeLargestNode_while fuel' m range i y
            else if Nat.eqb i 0 then Ok (Return (Some y, Some 1))
            else Ok (Break x)
          else if (0 <? cmp) && (Nat.eqb i 0) then
            Ok (Return (Some y, Some 0))
          else Ok (Break x)
      end
  end.

Fixpoint slRangeLargestNode_for (m : memory) (range : slrangespec) (n : nat)
  (x : ptr) : result found :=
  match n with
  | O => Ok (None, None)
  | S i =>
      e ← slRangeLargestNode_while (fuel_of m) m range i x;
      match e with
      | Return r => Ok r
      | Break x' => slRangeLargestNode_for m range i x'
      end
  end.

Definition slRangeLargestNode (m : memory) (sl : skiplist) (range : slrangespec)
  : result found :=
  t ← deref m (sl_tail sl);
  if slCmp (score t) (Some (max range)) <? 0 then Ok (sl_tail sl, None)
  else slRangeLargestNode_for m range (Z.to_nat (sl_level sl)) (sl_header sl).

Fixpoint slRangeHighEnd_while (fuel : nat) (m : memory) (range : slrangespec)
  (foundexactvalue : Z) (largest : option ptr) : result (option ptr) :=
  match fuel with
  | O => Crash Diverges
  | S fuel' =>
      if negb (maxex range =? 0) && negb (foundexactvalue =? 0) then
        n ← deref m largest;
        if slCmp (score n) (Some (max range)) =? 0 then
          match backward n with
          | None => Ok None
          | Some b => slRangeHighEnd_while fuel' m range foundexactvalue (Some b)
          end
        else Ok largest
      else Ok largest
  end.

Definition slRangeHighEnd (m : memory) (sl : skiplist) (range : slrangespec)
  : result (option ptr) :=
  '(largest, stored) ← slRangeLargestNode m sl range;
  let foundexactvalue := default 0 stored in
  slRangeHighEnd_while (fuel_of m) m range foundexactvalue largest.

(** ** Insertion *)

(** The [while] of [slInsert] at level [i]: the node it stops on. *)
Fixpoint slInsert_while (fuel : nat) (m : memory) (s o : robj) (i : nat)
  (x : ptr) : result ptr :=
  match fuel with
  | O => Crash Diverges
  | S fuel' =>
      f ← fwd m x i;
      match f with
      | None => Ok x
      | Some y =>
          ny ← load m y;
          let cmp := slCmp (score ny) (Some s) in
          if (cmp <? 0) || ((cmp =? 0) && (slCmp (obj ny) (Some o) <? 0))
          then slInsert_while fuel' m s o i y
          else Ok x
      end
  end.

(** The [for] of [slInsert] over the levels [n - 1] down to 0: the slots
    [update[0 .. n - 1]]. *)
Fixpoint slInsert_for (m : memory) (s o : robj) (n : nat) (x : ptr)
  : result (list ptr) :=
  match n with
  | O => Ok []
  | S i =>
      x' ← slInsert_while (fuel_of m) m s o i x;
      below ← slInsert_for m s o i x';
      Ok (below ++ [x'])
  end.

(** The loop of [slInsert] that links [x] in at the levels [lvls]. *)
Fixpoint slInsert_link (m : memory) (x : ptr) (update : list ptr)
  (lvls : list nat) : result memory :=
  match lvls with
  | [] => Ok m
  | i :: rest =>
      u ← update_at update i;
      f ← fwd m u i;
      m1 ← set_forward m x i f;
      m2 ← set_forward m1 u i (Some x);
      slInsert_link m2 x update rest
  end.

(** [slInsert]; [rs] is the script of [random()] and what is left of it
    is handed back. *)
Definition slInsert (rs : list Z) (m : memory) (sl : skiplist) (s o : robj)
  : result (list Z * memory * skiplist * ptr) :=
  update ← slInsert_for m s o (Z.to_nat (sl_level sl)) (sl_header sl);
  '(level, rs') ← slRandomLevel rs;
  let '(update, sllevel) :=
    if sl_level sl <? level
    then (update ++ replicate (Z.to_nat (level - sl_level sl)) (sl_header sl), level)
    else (update, sl_level sl) in
  let '(m0, x) := slCreateNode m level (Some s) (Some o) in
  m1 ← slInsert_link m0 x update (seq 0 (Z.to_nat level));
  u0 ← update_at update 0;
  m2 ← set_backward m1 x (if decide (u0 = sl_header sl) then None else Some u0);
  f0 ← fwd m2 x 0;
  '(m3, tail) ← match f0 with
                | Some y => m' ← set_backward m2 y (Some x); Ok (m', sl_tail sl)
                | None => Ok (m2, Some x)
                end;
  Ok (rs', m3, mkSkiplist (sl_header sl) tail (ulong_of (sl_length sl + 1)) sllevel, x).

(** ** Deletion *)

Fixpoint slDelete_while (fuel : nat) (m : memory) (s o : robj) (i : nat)
  (x : ptr) : result ptr :=
  match fuel with
  | O => Crash Diverges
  | S fuel' =>
      f ← fwd m x i;
      match f with
      | None => Ok x
      | Some y =>
          ny ← load m y;
          if slCmp (score ny) (Some s) <? 0 then slDelete_while fuel' m s o i y
          else if slCmp (score ny) (Some s) =? 0 then
            yo ← nonnull (obj ny);
            if compareStringObjects yo o <? 0
            then slDelete_while fuel' m s o i y
            else Ok x
          else Ok x
      end
  end.

Fixpoint slDelete_for (m : memory) (s o : robj) (n : nat) (x : ptr)
  : result (list ptr) :=
  match n with
  | O => Ok []
  | S i =>
      x' ← slDelete_while (fuel_of m) m s o i x;
      below ← slDelete_for m s o i x';
      Ok (below ++ [x'])
  end.

(** [slDelete]: the store and the list after it, and 1 or 0. *)
Definition slDelete (m : memory) (sl : skiplist) (s o : robj)
  : result (memory * skiplist * Z) :=
  update ← slDelete_for m s o (Z.to_nat (sl_level sl)) (sl_header sl);
  (* after the [for], [x] is [update[0]], or the header when there was
     no level to walk *)
  let x := default (sl_header sl) (update !! 0%nat) in
  x ← fwd m x 0;
  match x with
  | None => Ok (m, sl, 0)
  | Some x =>
      nx ← load m x;
      if slCmp (Some s) (score nx) =? 0 then
        xo ← nonnull (obj nx);
        if equalStringObjects xo o then
          '(m1, sl1) ← slDeleteNode m sl x update;
          Ok (slFreeNode m1 x, sl1, 1)
        else Ok (m, sl, 0)
      else Ok (m, sl, 0)
  end.

Fixpoint slDeleteScore_while (fuel : nat) (m : memory) (s : robj) (i : nat)
  (x : ptr) : result ptr :=
  match fuel with
  | O => Crash Diverges
  | S fuel' =>
      f ← fwd m x i;
      match f with
      | None => Ok x
      | Some y =>
          ny ← load m y;
          if slCmp (score ny) (Some s) <? 0
          then slDeleteScore_while fuel' m s i y
          else Ok x
      end
  end.

Fixpoint slDeleteScore_for (m : memory) (s : robj) (n : nat) (x : ptr)
  : result (list ptr) :=
  match n with
  | O => Ok []
  | S i =>
      x' ← slDeleteScore_while (fuel_of m) m s i x;
      below ← slDeleteScore_for m s i x';
      Ok (below ++ [x'])
  end.

(** The loop of [slDeleteScore] that removes node after node while the
    score is equal. *)
Fixpoint slDeleteScore_loop (fuel : nat) (m : memory) (sl : skiplist)
  (s : robj) (update : list ptr) (x : option ptr) (deleted : Z)
  : result (memory * skiplist * Z) :=
  match fuel with
  | O => Crash Diverges
  | S fuel' =>
      match x with
      | None => Ok (m, sl, deleted)
      | Some x =>
          nx ← load m x;
          if slCmp (Some s) (score nx) =? 0 then
            next ← forward_at nx 0;
            '(m1, sl1) ← slDeleteNode m sl x update;
            slDeleteScore_loop fuel' (slFreeNode m1 x) sl1 s update next
                               (int_of (deleted + 1))
          else Ok (m, sl, deleted)
      end
  end.

Definition slDeleteScore (m : memory) (sl : skiplist) (s : robj)
  : result (memory * skiplist * Z) :=
  update ← slDeleteScore_for m s (Z.to_nat (sl_level sl)) (sl_header sl);
  let x := default (sl_header sl) (update !! 0%nat) in
  x ← fwd m x 0;
  slDeleteScore_loop (fuel_of m) m sl s update x 0.

(** ** The client, the key table and the replies *)

(** What a key is bound to: a skiplist object ([REDIS_LIST] with
    [REDIS_ENCODING_SKIPLIST], its [ptr] a skiplist and the nodes it
    owns), or any other object. *)
Inductive entry : Type :=
| SkiplistObject (m : memory) (sl : skiplist)
| PlainObject (o : robj).

Definition entry_type (e : entry) : Z :=
  match e with
  | SkiplistObject _ _ => REDIS_LIST
  | PlainObject o => type o
  end.

Definition entry_encoding (e : entry) : Z :=
  match e with
  | SkiplistObject _ _ => REDIS_ENCODING_SKIPLIST
  | PlainObject o => encoding o
  end.

(** The test [type != REDIS_LIST || encoding != REDIS_ENCODING_SKIPLIST]. *)
Definition not_skiplist (e : entry) : bool :=
  negb (entry_type e =? REDIS_LIST) || negb (entry_encoding e =? REDIS_ENCODING_SKIPLIST).

(** [sl = slobj->ptr] *)
Definition skiplist_of (e : entry) : result (memory * skiplist) :=
  match e with
  | SkiplistObject m sl => Ok (m, sl)
  | PlainObject _ => Crash TypeConfusion
  end.

Inductive replyobj : Type :=
| shared_syntaxerr
| shared_wrongtypeerr
| shared_emptymultibulk
| ReplyLongLong (n : Z)
| ReplyDouble (n : Z)
| ReplyError (msg : string)
| ReplyBulk (o : robj)
| DeferredMultiBulkLength
| MultiBulkLength (n : Z).

Inductive event : Type :=
| signalModifiedKey (key : string)
| notifyKeyspaceEvent (class : string) (name : string) (key : string).

(** The client together with what its commands touch of the server: the
    key table of its database, the reply buffer, [server.dirty], the
    notifications sent and the script of [random()]. *)
Record redisClient : Type := mkClient {
  argv : list robj;
  db : gmap string entry;
  reply : list replyobj;
  dirty : Z;
  events : list event;
  random : list Z
}.

Definition argc (c : redisClient) : Z := Z.of_nat (length (argv c)).

Definition argv_at (c : redisClient) (i : nat) : result robj :=
  match argv c !! i with
  | Some o => Ok o
  | None => Crash OutOfBounds
  end.

Definition addReply (c : redisClient) (r : replyobj) : redisClient :=
  mkClient (argv c) (db c) (reply c ++ [r]) (dirty c) (events c) (random c).

Definition set_db (c : redisClient) (d : gmap string entry) : redisClient :=
  mkClient (argv c) d (reply c) (dirty c) (events c) (random c).

Definition set_argv (c : redisClient) (a : list robj) : redisClient :=
  mkClient a (db c) (reply c) (dirty c) (events c) (random c).

Definition set_random (c : redisClient) (rs : list Z) : redisClient :=
  mkClient (argv c) (db c) (reply c) (dirty c) (events c) rs.

Definition incr_dirty (c : redisClient) : redisClient :=
  mkClient (argv c) (db c) (reply c) (dirty c + 1) (events c) (random c).

Definition emit (c : redisClient) (e : event) : redisClient :=
  mkClient (argv c) (db c) (reply c) (dirty c) (events c ++ [e]) (random c).

(** [addDeferredMultiBulkLength]: the handle is the place of the length
    in the reply buffer. *)
Definition addDeferredMultiBulkLength (c : redisClient) : redisClient * nat :=
  (addReply c DeferredMultiBulkLength, length (reply c)).

Definition setDeferredMultiBulkLength (c : redisClient) (replylen : nat) (n : Z)
  : redisClient :=
  mkClient (argv c) (db c) (<[replylen := MultiBulkLength n]> (reply c))
           (dirty c) (events c) (random c).

(** The key table is keyed by the bytes of the key. *)
Definition lookupKey (c : redisClient) (key : robj) : option entry :=
  db c !! string_bytes key.

(** ** The commands *)

(** The [for] of [sladdCommand]: [n] pairs are left, the next is pair
    [j].  [sl = slobj->ptr] before the loop only copies a pointer: the
    object is first used as a skiplist by [slDelete], in the loop, so the
    loop carries the object. *)
Fixpoint sladdCommand_for (n : nat) (j : nat) (c : redisClient) (slobj : entry)
  (added : Z) : result (redisClient * entry * Z) :=
  match n with
  | O => Ok (c, slobj, added)
  | S n' =>
      a ← argv_at c (2 + j * 2);
      let s := tryObjectEncoding a in
      let c := set_argv c (<[(2 + j * 2)%nat := s]> (argv c)) in
      b ← argv_at c (3 + j * 2);
      let ele := tryObjectEncoding b in
      let c := set_argv c (<[(3 + j * 2)%nat := ele]> (argv c)) in
      '(m, sl) ← skiplist_of slobj;
      '(m1, sl1, d) ← slDelete m sl s ele;
      let added := int_of (added - d) in
      '(rs, m2, sl2, _) ← slInsert (random c) m1 sl1 s ele;
      let c := set_random c rs in
      let added := int_of (added + 1) in
      let c := incr_dirty c in
      sladdCommand_for n' (S j) c (SkiplistObject m2 sl2) added
  end.

(** Modelled from the spec: [createSkiplistObject] is defined outside
    [src/]; it materializes a fresh container, an object of type
    [REDIS_LIST] and encoding [REDIS_ENCODING_SKIPLIST] around the result
    of [slCreate]. *)
Definition createSkiplistObject : entry :=
  let '(m, sl) := slCreate empty_memory in SkiplistObject m sl.

Definition sladdCommand (c : redisClient) : result redisClient :=
  if negb (argc c mod 2 =? 0) then Ok (addReply c shared_syntaxerr)
  else
    key ← argv_at c 1;
    '(c, slobj) ←
      match lookupKey c key with
      | None =>
          let slobj := createSkiplistObject in
          Ok (set_db c (<[string_bytes key := slobj]> (db c)), slobj)
      | Some slobj =>
          if not_skiplist slobj
          then Ok (addReply c shared_wrongtypeerr, slobj)
          else Ok (c, slobj)
      end;
    let numelements := Z.quot (argc c - 2) 2 in
    '(c, slobj, added) ← sladdCommand_for (Z.to_nat numelements) 0 c slobj 0;
    (* the key is bound to the object as the loop has left it *)
    let c := set_db c (<[string_bytes key := slobj]> (db c)) in
    let c := addReply c (ReplyLongLong added) in
    if negb (added =? 0) then
      let c := emit c (signalModifiedKey (string_bytes key)) in
      Ok (emit c (notifyKeyspaceEvent "REDIS_NOTIFY_LIST" "sladd" (string_bytes key)))
    else Ok c.

(** The [for] of [slremCommand]: [n] scores are left, the next is
    [argv[i + 2]].  The result carries [deleted] and [keyremoved]. *)
Fixpoint slremCommand_for (n : nat) (i : nat) (c : redisClient) (key : robj)
  (m : memory) (sl : skiplist) (deleted : Z)
  : result (redisClient * Z * Z) :=
  match n with
  | O => Ok (set_db c (<[string_bytes key := SkiplistObject m sl]> (db c)), deleted, 0)
  | S n' =>
      s ← argv_at c (i + 2);
      '(m1, sl1, d) ← slDeleteScore m sl s;
      let deleted := int_of (deleted + d) in
      if sl_length sl1 =? 0 then
        Ok (set_db c (delete (string_bytes key) (db c)), deleted, 1)
      else slremCommand_for n' (S i) c key m1 sl1 deleted
  end.

Definition slremCommand (c : redisClient) : result redisClient :=
  if argc c mod 2 =? 0 then Ok (addReply c shared_syntaxerr)
  else
    key ← argv_at c 1;
    match lookupKey c key with
    | None => Ok (addReply c shared_emptymultibulk)
    | Some slobj =>
        if not_skiplist slobj then Ok (addReply c shared_emptymultibulk)
        else
          '(m, sl) ← skiplist_of slobj;
          let numelements := argc c - 2 in
          '(c, deleted, keyremoved) ←
            slremCommand_for (Z.to_nat numelements) 0 c key m sl 0;
          let c := addReply c (ReplyLongLong deleted) in
          if negb (deleted =? 0) then
            let c := emit c (signalModifiedKey (string_bytes key)) in
            let c := emit c (notifyKeyspaceEvent "REDIS_NOTIFY_LIST" "slrem" (string_bytes key)) in
            if negb (keyremoved =? 0)
            then Ok (emit c (notifyKeyspaceEvent "REDIS_NOTIFY_GENERIC" "del" (string_bytes key)))
            else Ok c
          else Ok c
    end.

(** [addReplyBulk] of the score and of the member of a node. *)
Definition addReplyNode (c : redisClient) (n : slNode) : result redisClient :=
  s ← nonnull (score n);
  o ← nonnull (obj n);
  Ok (addReply (addReply c (ReplyBulk s)) (ReplyBulk o)).

Fixpoint slallCommand_while (fuel : nat) (m : memory) (c : redisClient)
  (x : option ptr) (len : Z) : result (redisClient * Z) :=
  match fuel with
  | O => Crash Diverges
  | S fuel' =>
      match x with
      | None => Ok (c, len)
      | Some x =>
          n ← load m x;
          c ← addReplyNode c n;
          f ← forward_at n 0;
          slallCommand_while fuel' m c f (int_of (len + 1))
      end
  end.

Definition slallCommand (c : redisClient) : result redisClient :=
  key ← argv_at c 1;
  match lookupKey c key with
  | None => Ok (addReply c shared_emptymultibulk)
  | Some slobj =>
      if not_skiplist slobj then Ok (addReply c shared_emptymultibulk)
      else
        '(m, sl) ← skiplist_of slobj;
        x ← fwd m (sl_header sl) 0;
        let '(c, replylen) := addDeferredMultiBulkLength c in
        '(c, len) ← slallCommand_while (fuel_of m) m c x 0;
        Ok (setDeferredMultiBulkLength c replylen (int_of (2 * len)))
  end.

Fixpoint slrangeCommand_while (fuel : nat) (m : memory) (c : redisClient)
  (highend : ptr) (next : option ptr) (len : Z) : result (redisClient * Z) :=
  match fuel with
  | O => Crash Diverges
  | S fuel' =>
      match next with
      | None => Ok (c, len)
      | Some x =>
          if decide (x = highend) then Ok (c, len)
          else
            n ← load m x;
            c ← addReplyNode c n;
            f ← forward_at n 0;
            slrangeCommand_while fuel' m c highend f (int_of (len + 1))
      end
  end.

(** [slrangeCommand]; [sh] is the server's [shared] and [uninit] is what
    the uninitialised local of [slRangeLowEnd] holds. *)
Definition slrangeCommand (sh : sharedObjectsStruct) (uninit : Z)
  (c : redisClient) : result redisClient :=
  key ← argv_at c 1;
  a2 ← argv_at c 2;
  a3 ← argv_at c 3;
  parsed ← slParseRange sh a2 a3;
  match parsed with
  | None => Ok (addReply c (ReplyError "min or max is not valid"))
  | Some range =>
      match lookupKey c key with
      | None => Ok (addReply c shared_emptymultibulk)
      | Some slobj =>
          if not_skiplist slobj then Ok (addReply c shared_wrongtypeerr)
          else
            '(m, sl) ← skiplist_of slobj;
            lowend ← slRangeLowEnd uninit m sl range;
            match lowend with
            | None => Ok (addReply c shared_emptymultibulk)
            | Some low =>
                highend ← slRangeHighEnd m sl range;
                match highend with
                | None => Ok (addReply c shared_emptymultibulk)
                | Some high =>
                    let '(c, replylen) := addDeferredMultiBulkLength c in
                    '(c, len) ← slrangeCommand_while (fuel_of m) m c high (Some low) 1;
                    nh ← load m high;
                    c ← addReplyNode c nh;
                    Ok (setDeferredMultiBulkLength c replylen (int_of (2 * len)))
                end
            end
      end
  end.

Fixpoint slsearchCommand_while (fuel : nat) (m : memory) (c : redisClient)
  (s : robj) (x : option ptr) (len : Z) : result (redisClient * Z) :=
  match fuel with
  | O => Crash Diverges
  | S fuel' =>
      match x with
      | None => Ok (c, len)
      | Some x =>
          n ← load m x;
          if slCmp (score n) (Some s) =? 0 then
            c ← addReplyNode c n;
            f ← forward_at n 0;
            slsearchCommand_while fuel' m c s f (ulong_of (len + 1))
          else Ok (c, len)
      end
  end.

Definition slsearchCommand (c : redisClient) : result redisClient :=
  key ← argv_at c 1;
  s ← argv_at c 2;
  match lookupKey c key with
  | None => Ok (addReply c shared_emptymultibulk)
  | Some slobj =>
      if not_skiplist slobj then Ok (addReply c shared_wrongtypeerr)
      else
        '(m, sl) ← skiplist_of slobj;
        lowend ← slSearchSmallestNode m sl s;
        match lowend with
        | None => Ok (addReply c shared_emptymultibulk)
        | Some x =>
            let '(c, replylen) := addDeferredMultiBulkLength c in
            '(c, len) ← slsearchCommand_while (fuel_of m) m c s (Some x) 0;
            Ok (setDeferredMultiBulkLength c replylen (ulong_of (2 * len)))
        end
  end.

Definition slcardCommand (c : redisClient) : result redisClient :=
  key ← argv_at c 1;
  match lookupKey c key with
  | None => Ok (addReply c (ReplyDouble 0))
  | Some slobj =>
      if not_skiplist slobj then Ok (addReply c (ReplyDouble 0))
      else
        '(_, sl) ← skiplist_of slobj;
        Ok (addReply c (ReplyDouble (sl_length sl)))
  end.

(** ** Running commands *)

Definition fresh_client (rs : list Z) : redisClient := mkClient [] ∅ [] 0 [] rs.

(** A command called with the arguments as they arrive: raw strings. *)
Definition call (cmd : redisClient → result redisClient) (args : list string)
  (c : redisClient) : result redisClient :=
  cmd (set_argv c (map RawString args)).

(** What has been replied since the buffer was [n] long. *)
Definition replied (n : nat) (r : result redisClient) : result (list replyobj) :=
  c ← r; Ok (drop n (reply c)).

(** The level 0 chain from [x] on, as (score, member) pairs. *)
Fixpoint chain_from (fuel : nat) (m : memory) (x : option ptr)
  : result (list (option robj * option robj)) :=
  match fuel with
  | O => Crash Diverges
  | S fuel' =>
      match x with
      | None => Ok []
      | Some a =>
          n ← load m a;
          f ← forward_at n 0;
          rest ← chain_from fuel' m f;
          Ok ((score n, obj n) :: rest)
      end
  end.

(** The pairs held under a key, in the order of the level 0 chain. *)
Definition contents (key : string) (r : result redisClient)
  : result (list (option robj * option robj)) :=
  c ← r;
  match db c !! key with
  | Some (SkiplistObject m sl) =>
      x ← fwd m (sl_header sl) 0; chain_from (fuel_of m) m x
  | _ => Ok []
  end.

(** A value of [random()] on which [slRandomLevel] stops, and one on
    which it goes on. *)
Definition stop : Z := 65535.
Definition go : Z := 0.

(** ** The bound grammar, in the words of the spec *)

Definition is_byte (a : ascii) (c : ascii) : bool := byte_val a =? byte_val c.

(** What a bound stands for: ['+'] is the maximum string, inclusive;
    ['-'] the minimum string, inclusive; a ['('] prefix the remaining
    bytes, exclusive; a ['['] prefix the remaining bytes, inclusive; any
    other string itself, inclusive. *)
Definition bound_of (sh : sharedObjectsStruct) (c : string) : robj * Z :=
  match c with
  | String a r =>
      if is_byte a "+" then (maxstring sh, 0)
      else if is_byte a "-" then (minstring sh, 0)
      else if is_byte a "(" then (RawString r, 1)
      else if is_byte a "[" then (RawString r, 0)
      else (RawString c, 0)
  | EmptyString => (RawString c, 0)
  end.

(** A ['+'] or ['-'] followed by further characters. *)
Definition sentinel_with_more (c : string) : bool :=
  match c with
  | String a (String _ _) => is_byte a "+" || is_byte a "-"
  | _ => false
  end.

(** A ['+'] or ['-'] whose next byte is not NUL. *)
Definition sentinel_unterminated (c : string) : bool :=
  match c with
  | String a (String b _) => (is_byte a "+" || is_byte a "-") && negb (byte_val b =? 0)
  | _ => false
  end.

(** The range a pair of accepted bounds stands for. *)
Definition range_of (sh : sharedObjectsStruct) (a b : string) : slrangespec :=
  mkRange (bound_of sh a).1 (bound_of sh b).1 (bound_of sh a).2 (bound_of sh b).2.

(** A reply was added to the buffer and nothing else of the client was
    touched. *)
Definition only_replies (c : redisClient) (r : replyobj) (c' : redisClient) : Prop :=
  reply c' = reply c ++ [r] ∧ db c' = db c ∧ dirty c' = dirty c
  ∧ events c' = events c.

(** ** Well-formed skiplists *)

(** One real node of a list, seen from above: where it lives, what it
    holds and how tall its tower is. *)
Record item : Type := mkItem {
  addr : ptr;
  iscore : robj;
  iobj : robj;
  height : nat
}.

(** The first node of [l] that has a level [i]. *)
Fixpoint nxt (i : nat) (l : list item) : option ptr :=
  match l with
  | [] => None
  | a :: l' => if decide (i < height a)%nat then Some (addr a) else nxt i l'
  end.

(** The tower of height [h] of a node followed by the nodes [l]. *)
Definition tower (h : nat) (l : list item) : list (option ptr) :=
  (λ i, nxt i l) <$> seq 0 h.

(** The node of item [a], which comes after [prev] and before [rest]. *)
Definition node_of (prev : option ptr) (a : item) (rest : list item) : slNode :=
  mkNode (Some (iscore a)) (Some (iobj a)) prev (tower (height a) rest).

(** The cells of the nodes [l], the first of which comes after [prev]. *)
Fixpoint nodes_at (cs : gmap ptr slNode) (prev : option ptr) (l : list item) : Prop :=
  match l with
  | [] => True
  | a :: l' => cs !! addr a = Some (node_of prev a l') ∧ nodes_at cs (Some (addr a)) l'
  end.

(** The node before the one that follows [l1], when [l1] itself comes
    after [prev]. *)
Definition prev_of (prev : option ptr) (l1 : list item) : option ptr :=
  match last l1 with
  | Some a => Some (addr a)
  | None => prev
  end.

(** [rep m sl l]: the list [sl] in the store [m] is the skiplist whose
    level 0 chain is [l].  Every level [i] chain is the sub-sequence of
    the nodes taller than [i]; [backward] is the reverse of the level 0
    chain, with NULL at the first node; [tail] is the last node; [length]
    counts the nodes; no tower is taller than [level]. *)
Record rep (m : memory) (sl : skiplist) (l : list item) : Prop := mkRep {
  rep_nodup : NoDup (sl_header sl :: (addr <$> l));
  rep_header :
    cells m !! sl_header sl
    = Some (mkNode None None None (tower (Z.to_nat SKIPLIST_MAXLEVEL) l));
  rep_nodes : nodes_at (cells m) None l;
  rep_tail : sl_tail sl = last (addr <$> l);
  rep_length : sl_length sl = Z.of_nat (length l);
  rep_level : 1 <= sl_level sl <= SKIPLIST_MAXLEVEL;
  rep_heights :
    Forall (λ a, (1 ≤ height a)%nat ∧ Z.of_nat (height a) <= sl_level sl) l
}.

(** A node too short to have a level [i]. *)
Definition low (i : nat) (a : item) : Prop := (height a ≤ i)%nat.

(** The last node with a level [i] among [x] and the nodes [A] after it:
    the slot [update[i]] after a walk that passes exactly [A]. *)
Fixpoint pred_at (i : nat) (x : ptr) (A : list item) : ptr :=
  match A with
  | [] => x
  | a :: A' => pred_at i (if decide (i < height a)%nat then addr a else x) A'
  end.

(** How [slDeleteScore] sees a node when it is given the score [s]: it
    walks past the node, or it deletes the node. *)
Definition below (s : robj) (a : item) : bool :=
  slCmp (Some (iscore a)) (Some s) <? 0.
Definition same (s : robj) (a : item) : bool :=
  slCmp (Some s) (Some (iscore a)) =? 0.

(** The chain is ordered around [s]: first the nodes below [s], then the
    nodes equal to [s], then the others. *)
Definition splits_at (s : robj) (l : list item) : Prop :=
  ∃ A B C, l = A ++ B ++ C
    ∧ Forall (λ a, below s a = true ∧ same s a = false) A
    ∧ Forall (λ b, below s b = false ∧ same s b = true) B
    ∧ Forall (λ c, below s c = false ∧ same s c = false) C.

(** SLREM in the words of the spec: for each score in turn every node of
    its class goes; when the container becomes empty the key goes and the
    remaining scores are not looked at.  The result is what is left, the
    number of nodes deleted and whether the key was removed. *)
Fixpoint slrem_spec (l : list item) (scores : list robj) : list item * Z * bool :=
  match scores with
  | [] => (l, 0, false)
  | s :: rest =>
      let l1 := filter (λ a, same s a = false) l in
      let d := Z.of_nat (length l) - Z.of_nat (length l1) in
      match l1 with
      | [] => ([], d, true)
      | _ =>
          let '(l2, d2, gone) := slrem_spec l1 rest in
          (l2, d + d2, gone)
      end
  end.

Global Instance low_dec (i : nat) (a : item) : Decision (low i a).
Proof. unfold low. apply _. Defined.

(** The cells [cs'] after the first loop of [slDeleteNode] has done the
    levels below [k], starting from the cells [cs], when the node [b]
    is unlinked from after the nodes [A], themselves after the header
    [hdr], and before the nodes [R]: nothing but towers of the header and
    of [A] has changed, and there only the slot [j] of the last node with
    level [j], if [b] has that level. *)
Definition unlinked (cs : gmap ptr slNode) (hdr : ptr) (A : list item)
  (b : item) (R : list item) (k : nat) (cs' : gmap ptr slNode) : Prop :=
  (∀ z, z ∉ hdr :: (addr <$> A) → cs' !! z = cs !! z)
  ∧ (∀ z n, z ∈ hdr :: (addr <$> A) → cs !! z = Some n →
       ∃ t, cs' !! z = Some (mkNode (score n) (obj n) (backward n) t)
            ∧ length t = length (forward n)
            ∧ ∀ j, t !! j =
                   if decide ((j < k)%nat ∧ z = pred_at j hdr A ∧ (j < height b)%nat)
                   then Some (nxt j R)
                   else forward n !! j).

(** ** The walks of the three primitives, seen as one *)

(** The common shape of the walks of [slInsert], [slDelete] and
    [slDeleteScore] on level [i]: go on to the next node while there is
    one and [test] says so. *)
Fixpoint walk_while (test : slNode → result bool) (fuel : nat) (m : memory)
  (i : nat) (x : ptr) : result ptr :=
  match fuel with
  | O => Crash Diverges
  | S fuel' =>
      f ← fwd m x i;
      match f with
      | None => Ok x
      | Some y =>
          ny ← load m y;
          t ← test ny;
          if (t : bool) then walk_while test fuel' m i y else Ok x
      end
  end.

Fixpoint walk_for (test : slNode → result bool) (m : memory) (n : nat) (x : ptr)
  : result (list ptr) :=
  match n with
  | O => Ok []
  | S i =>
      x' ← walk_while test (fuel_of m) m i x;
      below ← walk_for test m i x';
      Ok (below ++ [x'])
  end.

(** The tests of the three walks. *)
Definition slInsert_test (s o : robj) (ny : slNode) : result bool :=
  let cmp := slCmp (score ny) (Some s) in
  Ok ((cmp <? 0) || ((cmp =? 0) && (slCmp (obj ny) (Some o) <? 0))).

Definition slDelete_test (s o : robj) (ny : slNode) : result bool :=
  if slCmp (score ny) (Some s) <? 0 then Ok true
  else if slCmp (score ny) (Some s) =? 0 then
    yo ← nonnull (obj ny); Ok (compareStringObjects yo o <? 0)
  else Ok false.

Definition slDeleteScore_test (s : robj) (ny : slNode) : result bool :=
  Ok (slCmp (score ny) (Some s) <? 0).

(** The same tests on items. *)
Definition insert_passes (s o : robj) (a : item) : bool :=
  let cmp := slCmp (Some (iscore a)) (Some s) in
  (cmp <? 0) || ((cmp =? 0) && (slCmp (Some (iobj a)) (Some o) <? 0)).

Definition delete_passes (s o : robj) (a : item) : bool :=
  if slCmp (Some (iscore a)) (Some s) <? 0 then true
  else if slCmp (Some (iscore a)) (Some s) =? 0
       then compareStringObjects (iobj a) o <? 0
       else false.

(** The first node of [l] that has a level [i], as an item. *)
Fixpoint first_at (i : nat) (l : list item) : option item :=
  match l with
  | [] => None
  | a :: l' => if decide (i < height a)%nat then Some a else first_at i l'
  end.

(** A walk on level [i] that stands before [l] goes no further. *)
Definition blocked (P : item → bool) (i : nat) (l : list item) : Prop :=
  match first_at i l with
  | Some b => P b = false
  | None => True
  end.

(** Every allocated address is below the next one to be handed out. *)
Definition fresh (m : memory) : Prop :=
  ∀ z, is_Some (cells m !! z) → (z < brk m)%nat.

(** The cells [cs'] after the loop of [slInsert] that links the new node
    in has done the levels below [k], starting from the cells [cs] of the
    list before the node was created: the new node [new] points, on those
    levels, at what follows it, and the last node with level [j] among the
    header and [A] points at the new node. *)
Definition linked (cs : gmap ptr slNode) (hdr : ptr) (A : list item)
  (new : item) (R : list item) (k : nat) (cs' : gmap ptr slNode) : Prop :=
  (∀ z, z ∉ addr new :: hdr :: (addr <$> A) → cs' !! z = cs !! z)
  ∧ (∀ z n, z ∈ hdr :: (addr <$> A) → cs !! z = Some n →
       ∃ t, cs' !! z = Some (mkNode (score n) (obj n) (backward n) t)
            ∧ length t = length (forward n)
            ∧ ∀ j, t !! j =
                   if decide ((j < k)%nat ∧ z = pred_at j hdr A)
                   then Some (Some (addr new))
                   else forward n !! j)
  ∧ (∃ t, cs' !! addr new
          = Some (mkNode (Some (iscore new)) (Some (iobj new)) None t)
          ∧ length t = height new
          ∧ ∀ j, t !! j =
                 if decide (j < k)%nat then Some (nxt j R)
                 else if decide (j < height new)%nat then Some None else None).

(** ** What the commands keep *)

(** The test of the [while] of [slRandomLevel] on one draw of
    [random()]. *)
Definition goes_up (r : Z) : bool :=
  SKIPLIST_P_den * Z.land r 65535 <? SKIPLIST_P_num * 65535.

(** The number of draws of the script that end a [slRandomLevel]. *)
Fixpoint stops (rs : list Z) : nat :=
  match rs with
  | [] => O
  | r :: rs' => if goes_up r then stops rs' else S (stops rs')
  end.

(** A value of the keyspace is well-formed when, if it is a skiplist, its
    store holds a well-formed list and hands out unused addresses. *)
Definition wf_entry (e : entry) : Prop :=
  match e with
  | SkiplistObject m sl => fresh m ∧ ∃ l, rep m sl l
  | PlainObject _ => True
  end.

Definition wf_db (d : gmap string entry) : Prop :=
  map_Forall (λ _ e, wf_entry e) d.

(** The bulk replies for the nodes [l]: score, then member, of each. *)
Definition bulks (l : list item) : list replyobj :=
  l ≫= λ a, [ReplyBulk (iscore a); ReplyBulk (iobj a)].

(** The client [c] after more has been replied. *)
Definition with_replies (c : redisClient) (rs : list replyobj) : redisClient :=
  mkClient (argv c) (db c) (reply c ++ rs) (dirty c) (events c) (random c).

(** What a key holds, as a list: a missing key holds the empty list, a
    skiplist object the well-formed list of its store. *)
Definition list_of (e : option entry) (l : list item) : Prop :=
  match e with
  | None => l = []
  | Some (SkiplistObject m sl) => rep m sl l ∧ fresh m
  | Some (PlainObject _) => False
  end.

(** A client differs from another in its reply buffer at most. *)
Definition same_but_reply (c c' : redisClient) : Prop :=
  argv c' = argv c ∧ db c' = db c ∧ dirty c' = dirty c
  ∧ events c' = events c ∧ random c' = random c.

(** ** A list to run the statements on *)

(** The client after [SLADD k 1 a 1 b 2 c] on an empty key table, the
    second node drawing a tower of two levels. *)
Definition sample_client : redisClient :=
  match call sladdCommand ["sladd"; "k"; "1"; "a"; "1"; "b"; "2"; "c"]
             (fresh_client [stop; go; stop; stop]) with
  | Ok c => c
  | Crash _ => fresh_client []
  end.

Definition sample_store : memory * skiplist :=
  match db sample_client !! "k" with
  | Some (SkiplistObject m sl) => (m, sl)
  | _ => slCreate empty_memory
  end.

Definition sample_items : list item :=
  [mkItem 1%nat (IntString 1) (RawString "a") 1%nat;
   mkItem 2%nat (IntString 1) (RawString "b") 2%nat;
   mkItem 3%nat (IntString 2) (RawString "c") 1%nat].

(** The number of draws at the head of the script on which the [while]
    of [slRandomLevel] goes on. *)
Fixpoint climbs (rs : list Z) : nat :=
  match rs with
  | [] => O
  | r :: rs' => if goes_up r then S (climbs rs') else O
  end.

(** * What the source does, claim by claim *)

(** ** The scenarios of the spec, run on the model *)

Example scenario_empty_card :
  replied 0 (call slcardCommand ["slcard"; "k"] (fresh_client [])) = Ok [ReplyDouble 0].
Proof. vm_compute. reflexivity. Qed.

Example scenario_add_all_card :
  let c := call sladdCommand ["sladd"; "k"; "1"; "a"; "1"; "b"; "2"; "c"]
                (fresh_client [stop; stop; stop]) in
  replied 0 c = Ok [ReplyLongLong 3]
  ∧ replied 1 (c ≫= call slallCommand ["slall"; "k"])
    = Ok [MultiBulkLength 6; ReplyBulk (IntString 1); ReplyBulk (RawString "a");
          ReplyBulk (IntString 1); ReplyBulk (RawString "b");
          ReplyBulk (IntString 2); ReplyBulk (RawString "c")]
  ∧ replied 1 (c ≫= call slcardCommand ["slcard"; "k"]) = Ok [ReplyDouble 3].
Proof. repeat split; vm_compute; reflexivity. Qed.

Example scenario_range_search_rem :
  let c := call sladdCommand ["sladd"; "k"; "1"; "a"; "1"; "b"; "2"; "c"]
                (fresh_client [stop; stop; stop]) in
  replied 1 (c ≫= call (slrangeCommand shared 0) ["slrange"; "k"; "[1"; "(2"])
  = Ok [MultiBulkLength 4; ReplyBulk (IntString 1); ReplyBulk (RawString "a");
        ReplyBulk (IntString 1); ReplyBulk (RawString "b")]
  ∧ replied 1 (c ≫= call slsearchCommand ["slsearch"; "k"; "1"])
    = Ok [MultiBulkLength 4; ReplyBulk (IntString 1); ReplyBulk (RawString "a");
          ReplyBulk (IntString 1); ReplyBulk (RawString "b")]
  ∧ replied 1 (c ← c; c ← call slremCommand ["slrem"; "k"; "1"] c;
               call slallCommand ["slall"; "k"] c)
    = Ok [ReplyLongLong 2; MultiBulkLength 2;
          ReplyBulk (IntString 2); ReplyBulk (RawString "c")].
Proof. repeat split; vm_compute; reflexivity. Qed.

Example scenario_add_same_pair_twice :
  let c := c ← call sladdCommand ["sladd"; "k"; "1"; "a"] (fresh_client [stop; stop]);
           call sladdCommand ["sladd"; "k"; "1"; "a"] c in
  replied 0 (c ≫= call slcardCommand ["slcard"; "k"])
  = Ok [ReplyLongLong 1; ReplyLongLong 0; ReplyDouble 1].
Proof. vm_compute. reflexivity. Qed.

(** ** The comparator on integers (C9) *)

Lemma int_of_small (z : Z) : - 2 ^ 31 <= z < 2 ^ 31 → int_of z = z.
Proof.
  intros H. unfold int_of.
  rewrite Z.mod_small by lia. lia.
Qed.

Lemma long_of_small (z : Z) : - 2 ^ 63 <= z < 2 ^ 63 → long_of z = z.
Proof.
  intros H. unfold long_of.
  rewrite Z.mod_small by lia. lia.
Qed.

Lemma int_of_range (z : Z) : - 2 ^ 31 <= int_of z < 2 ^ 31.
Proof. unfold int_of. pose proof (Z.mod_pos_bound (z + 2 ^ 31) (2 ^ 32)). lia. Qed.

Lemma int_of_add_l (a b : Z) : int_of (int_of a + b) = int_of (a + b).
Proof.
  unfold int_of. f_equal.
  replace ((a + 2 ^ 31) mod 2 ^ 32 - 2 ^ 31 + b + 2 ^ 31)
    with ((a + 2 ^ 31) mod 2 ^ 32 + b) by lia.
  rewrite Zplus_mod_idemp_l. f_equal. lia.
Qed.

(** Where the difference fits an [int], [slCmp] has the sign of the
    comparison of the two integers. *)
Lemma slCmp_int_small (a b : Z) :
  - 2 ^ 31 <= a - b < 2 ^ 31 →
  slCmp (Some (IntString a)) (Some (IntString b)) = a - b.
Proof.
  intros H. cbn -[Z.pow int_of long_of].
  rewrite long_of_small by lia. by apply int_of_small.
Qed.

(** C9 (what the code does at the failing input).  Both arguments are
    integer encoded, 4294967296 and 0; the difference 2^32 is cut to an
    [int] and [slCmp] answers 0, as if they were equal.  With 2147483648
    and 0 it answers a negative number although the first is greater.
    And on stored values of both encodings the order has a cycle:
    9 before 10, 10 before "1a", "1a" before 9. *)
Theorem slCmp_truncates_long_difference :
  slCmp (Some (IntString 4294967296)) (Some (IntString 0)) = 0
  ∧ slCmp (Some (IntString 2147483648)) (Some (IntString 0)) < 0
  ∧ (slCmp (Some (tryObjectEncoding (RawString "9")))
           (Some (tryObjectEncoding (RawString "10"))) < 0
     ∧ slCmp (Some (tryObjectEncoding (RawString "10")))
             (Some (tryObjectEncoding (RawString "1a"))) < 0
     ∧ slCmp (Some (tryObjectEncoding (RawString "1a")))
             (Some (tryObjectEncoding (RawString "9"))) < 0).
Proof. vm_compute. repeat split; reflexivity. Qed.

(** ** Parsing a range (C10) *)

Lemma slParseRangeItem_raw (sh : sharedObjectsStruct) (c : string) :
  slParseRangeItem sh (RawString c)
  = Ok (if sentinel_unterminated c then None else Some (bound_of sh c)).
Proof.
  unfold slParseRangeItem, bound_of, sentinel_unterminated, is_byte.
  destruct c as [|a [|b r]]; cbn -[Z.eqb byte_val].
  - reflexivity.
  - change (byte_val "+") with 43. change (byte_val "-") with 45.
    change (byte_val "(") with 40. change (byte_val "[") with 91.
    change (byte_val Ascii.zero) with 0.
    repeat (case Z.eqb_spec; intros; try lia; cbn; try reflexivity).
  - change (byte_val "+") with 43. change (byte_val "-") with 45.
    change (byte_val "(") with 40. change (byte_val "[") with 91.
    repeat (case Z.eqb_spec; intros; try lia; cbn; try reflexivity).
Qed.

Lemma slParseRange_raw (sh : sharedObjectsStruct) (a b : string) :
  slParseRange sh (RawString a) (RawString b)
  = Ok (if sentinel_unterminated a || sentinel_unterminated b
        then None else Some (range_of sh a b)).
Proof.
  unfold slParseRange. cbn [encoding].
  change (REDIS_ENCODING_RAW =? REDIS_ENCODING_INT) with false. cbn [orb].
  rewrite !slParseRangeItem_raw.
  destruct (sentinel_unterminated a); cbn; [reflexivity|].
  destruct (bound_of sh a) as [smin sminex] eqn:Ha.
  destruct (sentinel_unterminated b); cbn; [reflexivity|].
  destruct (bound_of sh b) as [smax smaxex] eqn:Hb.
  unfold range_of. by rewrite Ha, Hb.
Qed.

Lemma slParseRange_int (sh : sharedObjectsStruct) (o1 o2 : robj) :
  encoding o1 = REDIS_ENCODING_INT ∨ encoding o2 = REDIS_ENCODING_INT →
  slParseRange sh o1 o2 = Ok None.
Proof.
  unfold slParseRange. intros [-> | ->].
  - reflexivity.
  - by rewrite orb_true_r.
Qed.

Lemma slrangeCommand_parse_error (sh : sharedObjectsStruct) (uninit : Z)
  (c : redisClient) (key a2 a3 : robj) :
  argv c !! 1%nat = Some key → argv c !! 2%nat = Some a2 →
  argv c !! 3%nat = Some a3 → slParseRange sh a2 a3 = Ok None →
  slrangeCommand sh uninit c
  = Ok (addReply c (ReplyError "min or max is not valid")).
Proof.
  intros H1 H2 H3 Hp. unfold slrangeCommand, argv_at.
  rewrite H1, H2, H3. cbn. by rewrite Hp.
Qed.

(** C10 (amended).  For bounds that are string objects, [slParseRange]
    succeeds exactly when neither is integer encoded and neither is a
    ['+'] or ['-'] whose next byte is not NUL; the range it then yields is
    the one the grammar describes: ['+'] the maximum string inclusive,
    ['-'] the minimum string inclusive, a ['('] prefix the remaining bytes
    exclusive, a ['['] prefix the remaining bytes inclusive, any other
    string itself inclusive.  When it fails, SLRANGE replies the error
    "min or max is not valid" and leaves the key table as it was. *)
Theorem slParseRange_accepts (sh : sharedObjectsStruct) (smin smax : robj) :
  type smin = REDIS_STRING → type smax = REDIS_STRING →
  let accepted :=
    encoding smin ≠ REDIS_ENCODING_INT ∧ encoding smax ≠ REDIS_ENCODING_INT
    ∧ sentinel_unterminated (string_bytes smin) = false
    ∧ sentinel_unterminated (string_bytes smax) = false in
  (accepted →
   slParseRange sh smin smax
   = Ok (Some (range_of sh (string_bytes smin) (string_bytes smax))))
  ∧ (¬ accepted →
     slParseRange sh smin smax = Ok None
     ∧ ∀ uninit c key,
         argv c !! 1%nat = Some key → argv c !! 2%nat = Some smin →
         argv c !! 3%nat = Some smax →
         ∃ c', slrangeCommand sh uninit c = Ok c'
               ∧ reply c' = reply c ++ [ReplyError "min or max is not valid"]
               ∧ db c' = db c).
Proof.
  intros Tmin Tmax accepted.
  assert (Hdec : (accepted → slParseRange sh smin smax
                    = Ok (Some (range_of sh (string_bytes smin) (string_bytes smax))))
                 ∧ (¬ accepted → slParseRange sh smin smax = Ok None)).
  { subst accepted.
    destruct smin as [a|n|t e]; [| |discriminate Tmin].
    2:{ split; [intros [H _]; by destruct H|].
        intros _. apply slParseRange_int. by left. }
    destruct smax as [b|n|t e]; [| |discriminate Tmax].
    2:{ split; [intros (_ & H & _); by destruct H|].
        intros _. apply slParseRange_int. by right. }
    cbn [string_bytes encoding]. rewrite slParseRange_raw.
    destruct (sentinel_unterminated a), (sentinel_unterminated b); cbn;
      split; try (intros (_ & _ & ? & ?); congruence); try done.
    intros H. destruct H. repeat split; done. }
  destruct Hdec as [Hyes Hno]. split; [exact Hyes|].
  intros Hn. split; [by apply Hno|].
  intros uninit c key H1 H2 H3.
  eexists. split.
  - eapply slrangeCommand_parse_error; eauto.
  - by cbn.
Qed.

Lemma slParseRange_accepts_witness :
  slParseRange shared (RawString "(a") (RawString "+")
  = Ok (Some (mkRange (RawString "a") (maxstring shared) 1 0))
  ∧ slParseRange shared (RawString "+x") (RawString "b") = Ok None.
Proof.
  split.
  - apply (slParseRange_accepts shared (RawString "(a") (RawString "+")); [done|done|].
    repeat split; discriminate.
  - refine (proj1 (proj2 (slParseRange_accepts shared (RawString "+x") (RawString "b") _ _) _));
      [done|done|].
    intros (_ & _ & H & _). discriminate H.
Defined.

(** C10 (counterexample).  The bound is a ['+'] followed by two further
    bytes, a NUL and an ['x']; the parser reads the NUL as the end of the
    string and accepts the bound as the maximum string. *)
Lemma slParseRange_accepts_plus_nul :
  sentinel_with_more (String "+" (String Ascii.zero "x")) = true
  ∧ slParseRange shared (RawString (String "+" (String Ascii.zero "x"))) (RawString "a")
    = Ok (Some (mkRange (maxstring shared) (RawString "a") 0 0)).
Proof. split; reflexivity. Qed.

(** ** A key of the wrong type (C6) *)

Lemma only_replies_addReply (c : redisClient) (r : replyobj) :
  only_replies c r (addReply c r).
Proof. by repeat split. Qed.

(** C6 (amended).  The key exists and does not hold a skiplist.  SLRANGE
    (its bounds parsed) and SLSEARCH send the wrong-type reply; SLREM
    (given an odd number of arguments) and SLALL send the empty multi-bulk
    reply; SLCARD replies 0.  None of the five changes the key table. *)
Theorem wrong_type_is_answered (c : redisClient) (key : robj) (e : entry) :
  argv c !! 1%nat = Some key →
  lookupKey c key = Some e →
  not_skiplist e = true →
  (∀ sh uninit a2 a3 range,
      argv c !! 2%nat = Some a2 → argv c !! 3%nat = Some a3 →
      slParseRange sh a2 a3 = Ok (Some range) →
      ∃ c', slrangeCommand sh uninit c = Ok c' ∧ only_replies c shared_wrongtypeerr c')
  ∧ (∀ s, argv c !! 2%nat = Some s →
      ∃ c', slsearchCommand c = Ok c' ∧ only_replies c shared_wrongtypeerr c')
  ∧ (argc c mod 2 ≠ 0 →
      ∃ c', slremCommand c = Ok c' ∧ only_replies c shared_emptymultibulk c')
  ∧ (∃ c', slallCommand c = Ok c' ∧ only_replies c shared_emptymultibulk c')
  ∧ (∃ c', slcardCommand c = Ok c' ∧ only_replies c (ReplyDouble 0) c').
Proof.
  intros Hkey Hlook Hno. repeat split.
  - intros sh uninit a2 a3 range H2 H3 Hp. eexists. split; [|apply only_replies_addReply].
    unfold slrangeCommand, argv_at. rewrite Hkey, H2, H3. cbn.
    by rewrite Hp, Hlook, Hno.
  - intros s H2. eexists. split; [|apply only_replies_addReply].
    unfold slsearchCommand, argv_at. rewrite Hkey, H2. cbn.
    by rewrite Hlook, Hno.
  - intros Hodd. eexists. split; [|apply only_replies_addReply].
    unfold slremCommand, argv_at.
    destruct (Z.eqb_spec (argc c mod 2) 0) as [Heq|_]; [by destruct Hodd|].
    rewrite Hkey. cbn. by rewrite Hlook, Hno.
  - eexists. split; [|apply only_replies_addReply].
    unfold slallCommand, argv_at. rewrite Hkey. cbn. by rewrite Hlook, Hno.
  - eexists. split; [|apply only_replies_addReply].
    unfold slcardCommand, argv_at. rewrite Hkey. cbn. by rewrite Hlook, Hno.
Qed.

Lemma wrong_type_is_answered_witness :
  ∃ c', slcardCommand
          (mkClient [RawString "slcard"; RawString "k"]
                    {["k" := PlainObject (RawString "v")]} [] 0 [] [])
        = Ok c'
        ∧ reply c' = [ReplyDouble 0].
Proof.
  destruct (wrong_type_is_answered
              (mkClient [RawString "slcard"; RawString "k"]
                        {["k" := PlainObject (RawString "v")]} [] 0 [] [])
              (RawString "k") (PlainObject (RawString "v")))
    as (_ & _ & _ & _ & c' & Hrun & Hrep & _).
  - reflexivity.
  - reflexivity.
  - reflexivity.
  - exists c'. split; [exact Hrun|exact Hrep].
Defined.

(** C6 (counterexample).  The key [k] holds a plain string.  SLCARD
    replies 0 and SLREM and SLALL reply the empty multi-bulk, none of them
    the wrong-type reply. *)
Lemma wrong_type_not_reported :
  let c := mkClient [] {["k" := PlainObject (RawString "v")]} [] 0 [] [] in
  replied 0 (call slcardCommand ["slcard"; "k"] c) = Ok [ReplyDouble 0]
  ∧ replied 0 (call slremCommand ["slrem"; "k"; "1"] c) = Ok [shared_emptymultibulk]
  ∧ replied 0 (call slallCommand ["slall"; "k"] c) = Ok [shared_emptymultibulk].
Proof. repeat split; vm_compute; reflexivity. Qed.

(** SLADD on such a key sends the wrong-type reply and then goes on to
    use the object as a skiplist. *)
Lemma sladd_wrong_type_goes_on :
  call sladdCommand ["sladd"; "k"; "1"; "a"]
       (mkClient [] {["k" := PlainObject (RawString "v")]} [] 0 [] [stop])
  = Crash TypeConfusion.
Proof. vm_compute. reflexivity. Qed.

(** ** Searching a score (C1) *)

(** The loop of [slSearchSmallestNode] that should walk back is entered
    on a node whose score compares equal, and there it never moves. *)
Lemma slSearchSmallestNode_back_stays (fuel : nat) (m : memory) (s : robj)
  (x : ptr) (n : slNode) :
  load m x = Ok n → slCmp (score n) (Some s) = 0 →
  slSearchSmallestNode_back (S fuel) m s x = Ok x.
Proof.
  intros Hn Hcmp. cbn [slSearchSmallestNode_back]. rewrite Hn. cbn.
  rewrite Hcmp. by destruct (backward n).
Qed.

(** C1 (what the code does at the failing input).  [SLADD k 1 a] draws
    height 1 and [SLADD k 1 b] height 2.  The search meets [(1, b)] first,
    on level 1; the loop that should walk back tests the sign of
    [slCmp(x->score, score)], which is 0 there, so it never moves, and
    SLSEARCH emits [(1, b)] alone although SLALL shows [(1, a)] before
    it. *)
Theorem slsearch_misses_earlier_member :
  let c := c ← call sladdCommand ["sladd"; "k"; "1"; "a"] (fresh_client [stop; go; stop]);
           call sladdCommand ["sladd"; "k"; "1"; "b"] c in
  replied 2 (c ≫= call slallCommand ["slall"; "k"])
  = Ok [MultiBulkLength 4; ReplyBulk (IntString 1); ReplyBulk (RawString "a");
        ReplyBulk (IntString 1); ReplyBulk (RawString "b")]
  ∧ replied 2 (c ≫= call slsearchCommand ["slsearch"; "k"; "1"])
    = Ok [MultiBulkLength 2; ReplyBulk (IntString 1); ReplyBulk (RawString "b")].
Proof. split; vm_compute; reflexivity. Qed.

(** ** Ranges (C2, C3, C8) *)

(** C2 (what the code does at the failing input).  The container holds
    [(1, a)] and [(3, c)]; no node has score 2.  Both ends of the range
    [[2 [2] come out as the first node above 2, and SLRANGE emits
    [(3, c)]. *)
Theorem slrange_equal_bounds_emits_greater_node :
  let c := call sladdCommand ["sladd"; "k"; "1"; "a"; "3"; "c"] (fresh_client [stop; stop]) in
  replied 1 (c ≫= call (slrangeCommand shared 0) ["slrange"; "k"; "[2"; "[2"])
  = Ok [MultiBulkLength 2; ReplyBulk (IntString 3); ReplyBulk (RawString "c")].
Proof. vm_compute. reflexivity. Qed.

(** C3 (what the code does at the failing input).  The container holds
    [(1, a)] and [(2, b)].  For the range [(1 1] the low end is [(2, b)],
    past the high end [(1, a)]; the loop runs to the end of the list and
    SLRANGE emits [(2, b)] and then [(1, a)]. *)
Theorem slrange_exclusive_equal_bounds_not_empty :
  let c := call sladdCommand ["sladd"; "k"; "1"; "a"; "2"; "b"] (fresh_client [stop; stop]) in
  replied 1 (c ≫= call (slrangeCommand shared 0) ["slrange"; "k"; "(1"; "1"])
  = Ok [MultiBulkLength 4; ReplyBulk (IntString 2); ReplyBulk (RawString "b");
        ReplyBulk (IntString 1); ReplyBulk (RawString "a")].
Proof. vm_compute. reflexivity. Qed.

(** C8 (what the code does at the failing input).  After [SLADD k 1 a]
    the range [(5 9] has no node at or above its minimum:
    [slRangeSmallestNode] returns NULL without storing the flag, and with
    a non-zero value left in the flag [slRangeLowEnd] reads
    [smallest->score] through NULL.  After [SLADD k] alone the container
    is empty and the early-out of [slRangeSmallestNode] reads the score of
    a first node that is not there. *)
Theorem slRangeLowEnd_reads_through_null :
  (call sladdCommand ["sladd"; "k"; "1"; "a"] (fresh_client [stop])
     ≫= call (slrangeCommand shared 1) ["slrange"; "k"; "(5"; "9"]) = Crash NullDeref
  ∧ (call sladdCommand ["sladd"; "k"] (fresh_client [])
       ≫= call (slrangeCommand shared 0) ["slrange"; "k"; "a"; "b"]) = Crash NullDeref.
Proof. split; vm_compute; reflexivity. Qed.

(** ** Adding a pair twice (C4, C5) *)

(** C4 (what the code does at the failing input).  After
    [SLADD k 1 -2], [SLADD k 1 -1] and [SLADD k 1 -1] the level 0 chain
    holds the pair [(1, -1)] twice, next to each other. *)
Theorem sladd_chain_holds_equal_pairs :
  let c := c ← call sladdCommand ["sladd"; "k"; "1"; "-2"] (fresh_client [stop; stop; stop]);
           c ← call sladdCommand ["sladd"; "k"; "1"; "-1"] c;
           call sladdCommand ["sladd"; "k"; "1"; "-1"] c in
  contents "k" c
  = Ok [(Some (IntString 1), Some (IntString (-2)));
        (Some (IntString 1), Some (IntString (-1)));
        (Some (IntString 1), Some (IntString (-1)))].
Proof. vm_compute. reflexivity. Qed.

(** C5 (what the code does at the failing input).  The container holds
    [(1, -2)].  [SLADD k 1 -1] replies 1; the same command again replies
    1 again, and the cardinality goes from 2 to 3.  [slDelete] walks with
    [compareStringObjects] on the members, which puts "-2" after "-1",
    and stops before [(1, -2)]; [slInsert] walks with [slCmp], which puts
    -2 before -1. *)
Theorem sladd_twice_adds_twice :
  let c0 := call sladdCommand ["sladd"; "k"; "1"; "-2"] (fresh_client [stop; stop; stop]) in
  let c1 := c0 ≫= call sladdCommand ["sladd"; "k"; "1"; "-1"] in
  let c2 := c1 ≫= call sladdCommand ["sladd"; "k"; "1"; "-1"] in
  replied 1 c1 = Ok [ReplyLongLong 1]
  ∧ replied 2 c2 = Ok [ReplyLongLong 1]
  ∧ replied 2 (c1 ≫= call slcardCommand ["slcard"; "k"]) = Ok [ReplyDouble 2]
  ∧ replied 3 (c2 ≫= call slcardCommand ["slcard"; "k"]) = Ok [ReplyDouble 3].
Proof. repeat split; vm_compute; reflexivity. Qed.

(** ** Towers and chains *)

Section Towers.
Implicit Types (l A R : list item) (i j h : nat) (x z : ptr).

Lemma tower_length h l : length (tower h l) = h.
Proof. unfold tower. by rewrite length_fmap, length_seq. Qed.

Lemma tower_lookup h l i : (i < h)%nat → tower h l !! i = Some (nxt i l).
Proof.
  intros Hi. unfold tower. rewrite list_lookup_fmap.
  by rewrite lookup_seq_lt.
Qed.

Lemma nxt_app_low i l1 l2 : Forall (low i) l1 → nxt i (l1 ++ l2) = nxt i l2.
Proof.
  induction 1 as [|a l1 Ha _ IH]; [done|].
  cbn. unfold low in Ha. destruct (decide (i < height a)%nat); [lia|done].
Qed.

Lemma nxt_app_high i l1 l2 l2' :
  ¬ Forall (low i) l1 → nxt i (l1 ++ l2) = nxt i (l1 ++ l2').
Proof.
  induction l1 as [|a l1 IH]; intros Hn.
  - destruct Hn. constructor.
  - cbn. destruct (decide (i < height a)%nat); [done|].
    apply IH. intros Hl. apply Hn. constructor; [unfold low; lia|done].
Qed.

Lemma nxt_Some i l z :
  nxt i l = Some z →
  ∃ l1 a l2, l = l1 ++ a :: l2 ∧ addr a = z ∧ (i < height a)%nat
             ∧ Forall (low i) l1.
Proof.
  induction l as [|a l IH]; [done|].
  cbn. destruct (decide (i < height a)%nat) as [Hh|Hh].
  - intros [= <-]. by exists [], a, l.
  - intros Hz. destruct (IH Hz) as (l1 & b & l2 & -> & Hb & Hi & Hl).
    exists (a :: l1), b, l2. repeat split; try done.
    constructor; [unfold low; lia|done].
Qed.

Lemma nxt_elem i l z : nxt i l = Some z → z ∈ addr <$> l.
Proof.
  intros (l1 & a & l2 & -> & <- & _)%nxt_Some.
  rewrite fmap_app, fmap_cons. apply elem_of_app. right. left.
Qed.

Lemma nxt_None i l : nxt i l = None → Forall (low i) l.
Proof.
  induction l as [|a l IH]; [constructor|].
  cbn. destruct (decide (i < height a)%nat); [done|].
  intros Hn. constructor; [unfold low; lia|by apply IH].
Qed.

Lemma nxt_zero l :
  Forall (λ a, (1 ≤ height a)%nat) l → nxt 0 l = head (addr <$> l).
Proof.
  destruct 1 as [|a l Ha _]; [done|].
  cbn. destruct (decide (0 < height a)%nat); [done|lia].
Qed.

Lemma pred_at_app i x A1 A2 :
  pred_at i x (A1 ++ A2) = pred_at i (pred_at i x A1) A2.
Proof. revert x. induction A1 as [|a A1 IH]; intros x; [done|]. cbn. apply IH. Qed.

Lemma pred_at_low i x A : Forall (low i) A → pred_at i x A = x.
Proof.
  intros H. revert x. induction H as [|a A Ha _ IH]; intros x; [done|].
  cbn. unfold low in Ha. destruct (decide (i < height a)%nat); [lia|apply IH].
Qed.

Lemma pred_at_split i x A1 a A2 :
  (i < height a)%nat → Forall (low i) A2 →
  pred_at i x (A1 ++ a :: A2) = addr a.
Proof.
  intros Hi Hl. rewrite pred_at_app. cbn.
  destruct (decide (i < height a)%nat); [|lia]. by apply pred_at_low.
Qed.

(** Either the walk stays on [x], or it ends on a node of [A]. *)
Lemma pred_at_cases i x A :
  (pred_at i x A = x ∧ Forall (low i) A)
  ∨ (∃ A1 a A2, A = A1 ++ a :: A2 ∧ pred_at i x A = addr a
                ∧ (i < height a)%nat ∧ Forall (low i) A2).
Proof.
  induction A as [|a A IH] using rev_ind.
  - left. split; [done|constructor].
  - destruct (decide (i < height a)%nat) as [Hh|Hh].
    + right. exists A, a, []. split; [done|]. split; [|split; [done|constructor]].
      apply pred_at_split; [done|constructor].
    + rewrite pred_at_app. cbn. destruct (decide (i < height a)%nat); [lia|].
      destruct IH as [[Hx Hl]|(A1 & b & A2 & -> & Hb & Hi & Hl)].
      * left. split; [done|]. apply Forall_app. split; [done|].
        constructor; [unfold low; lia|constructor].
      * right. exists A1, b, (A2 ++ [a]).
        split; [by rewrite <- app_assoc|]. split; [done|]. split; [done|].
        apply Forall_app. split; [done|].
        constructor; [unfold low; lia|constructor].
Qed.

Lemma pred_at_elem i x A : pred_at i x A = x ∨ pred_at i x A ∈ addr <$> A.
Proof.
  destruct (pred_at_cases i x A) as [[Hx _]|(A1 & b & A2 & -> & Hb & _)].
  - by left.
  - right. rewrite Hb, fmap_app, fmap_cons. apply elem_of_app. right. left.
Qed.

(** A walk that passes a node taller than [i] does not end on [x]. *)
Lemma pred_at_high i x A :
  ¬ Forall (low i) A → pred_at i x A ∈ addr <$> A.
Proof.
  intros Hn.
  destruct (pred_at_cases i x A) as [[_ Hl]|(A1 & b & A2 & -> & Hb & _)].
  - by destruct Hn.
  - rewrite Hb, fmap_app, fmap_cons. apply elem_of_app. right. left.
Qed.

End Towers.

Section Chains.
Implicit Types (cs : gmap ptr slNode) (l A R : list item) (i j h : nat).
Implicit Types (x z : ptr) (prev : option ptr) (m : memory) (s : robj).

Lemma bind_Ok {A B : Type} (a : A) (f : A → result B) : (Ok a ≫= f) = f a.
Proof. reflexivity. Qed.

Lemma prev_of_cons prev a l : prev_of prev (a :: l) = prev_of (Some (addr a)) l.
Proof.
  unfold prev_of. destruct l as [|b l]; [done|].
  rewrite last_cons_cons. destruct (last (b :: l)) eqn:E; [done|].
  by apply last_None in E.
Qed.

Lemma prev_of_snoc prev l a : prev_of prev (l ++ [a]) = Some (addr a).
Proof. unfold prev_of. by rewrite last_snoc. Qed.

Lemma prev_of_last l : prev_of None l = last (addr <$> l).
Proof.
  unfold prev_of. rewrite fmap_last. by destruct (last l).
Qed.

Lemma nodes_at_split cs prev l1 a l2 :
  nodes_at cs prev (l1 ++ a :: l2) →
  cs !! addr a = Some (node_of (prev_of prev l1) a l2)
  ∧ nodes_at cs (Some (addr a)) l2.
Proof.
  revert prev. induction l1 as [|b l1 IH]; intros prev.
  - cbn. by intros [? ?].
  - cbn [app nodes_at]. intros [_ H]. rewrite prev_of_cons. by apply IH.
Qed.

Lemma nodes_at_suffix cs prev l1 l2 :
  nodes_at cs prev (l1 ++ l2) → nodes_at cs (prev_of prev l1) l2.
Proof.
  revert prev. induction l1 as [|b l1 IH]; intros prev.
  - done.
  - cbn [app nodes_at]. intros [_ H]. rewrite prev_of_cons. by apply IH.
Qed.

Lemma nodes_at_intro cs prev l :
  (∀ l1 a l2, l = l1 ++ a :: l2 →
              cs !! addr a = Some (node_of (prev_of prev l1) a l2)) →
  nodes_at cs prev l.
Proof.
  revert prev. induction l as [|b l IH]; intros prev H; [done|].
  cbn. split.
  - by apply (H [] b l).
  - apply IH. intros l1 a l2 ->. rewrite <- (prev_of_cons prev).
    by apply (H (b :: l1) a l2).
Qed.

Lemma nodes_at_load m prev l1 a l2 :
  nodes_at (cells m) prev (l1 ++ a :: l2) →
  load m (addr a) = Ok (node_of (prev_of prev l1) a l2).
Proof. intros [H _]%nodes_at_split. unfold load. by rewrite H. Qed.

Lemma fwd_node m z n i :
  cells m !! z = Some n → fwd m z i = forward_at n i.
Proof. intros H. unfold fwd, load. by rewrite H. Qed.

Lemma forward_at_tower sc ob prev h l i :
  (i < h)%nat → forward_at (mkNode sc ob prev (tower h l)) i = Ok (nxt i l).
Proof. intros Hi. unfold forward_at. cbn. by rewrite tower_lookup. Qed.

Lemma forward_at_node_of prev a l i :
  (i < height a)%nat → forward_at (node_of prev a l) i = Ok (nxt i l).
Proof. apply forward_at_tower. Qed.

(** The walk of [slDeleteScore] on level [i]: from [x], whose next node
    on that level is the first of [A ++ BC], past the nodes [A] below
    the score, up to the last of them that has the level. *)
Lemma slDeleteScore_while_spec m s i A BC :
  Forall (λ a, below s a = true) A →
  Forall (λ b, below s b = false) BC →
  ∀ x prev fuel,
    nodes_at (cells m) prev (A ++ BC) →
    fwd m x i = Ok (nxt i (A ++ BC)) →
    (length A < fuel)%nat →
    slDeleteScore_while fuel m s i x = Ok (pred_at i x A).
Proof.
  intros HA HBC. induction HA as [|a A Ha _ IH]; intros x prev fuel Hn Hf Hfuel.
  - destruct fuel as [|fuel]; [cbn in Hfuel; lia|].
    cbn [slDeleteScore_while app pred_at] in *. rewrite Hf, bind_Ok.
    destruct (nxt i BC) as [z|] eqn:Hz; [|done].
    destruct (nxt_Some _ _ _ Hz) as (l1 & b & l2 & -> & <- & _ & _).
    rewrite (nodes_at_load _ _ _ _ _ Hn), bind_Ok. cbn [score node_of].
    apply Forall_app in HBC as [_ Hb]. apply Forall_cons in Hb as [Hb _].
    unfold below in Hb. by rewrite Hb.
  - cbn [app nxt pred_at] in *. destruct Hn as [Hcell Hn].
    destruct (decide (i < height a)%nat) as [Hh|Hh].
    + destruct fuel as [|fuel]; [cbn in Hfuel; lia|].
      cbn [slDeleteScore_while]. rewrite Hf, bind_Ok.
      unfold load at 1. rewrite Hcell, bind_Ok. cbn [score node_of].
      unfold below in Ha. rewrite Ha.
      apply (IH (addr a) (Some (addr a)) fuel Hn).
      * rewrite (fwd_node _ _ _ _ Hcell). by apply forward_at_tower.
      * cbn in Hfuel. lia.
    + apply (IH x (Some (addr a)) fuel Hn Hf). cbn in Hfuel. lia.
Qed.

End Chains.

Section Walk.
Implicit Types (l A R : list item) (i j h n : nat).
Implicit Types (x z : ptr) (prev : option ptr) (m : memory) (s : robj).

(** The descent of [slDeleteScore] over the levels below [n]: slot [j]
    of [update] is the last node with level [j] among [x] and [A]. *)
Lemma slDeleteScore_for_spec m s BC :
  Forall (λ b, below s b = false) BC →
  ∀ n A x prev,
    Forall (λ a, below s a = true) A →
    nodes_at (cells m) prev (A ++ BC) →
    (∀ j, (j < n)%nat → fwd m x j = Ok (nxt j (A ++ BC))) →
    (length A < fuel_of m)%nat →
    slDeleteScore_for m s n x = Ok ((λ j, pred_at j x A) <$> seq 0 n).
Proof.
  intros HBC. induction n as [|i IH]; intros A x prev HA Hn Hf Hfuel; [done|].
  cbn [slDeleteScore_for].
  rewrite (slDeleteScore_while_spec m s i A BC HA HBC x prev (fuel_of m) Hn)
    by (try apply Hf; lia).
  rewrite bind_Ok, seq_S, fmap_app. cbn [fmap list_fmap Nat.add].
  destruct (pred_at_cases i x A) as [[Hx _]|(A1 & a & A2 & -> & Hx & Hi & _)].
  - rewrite Hx at 1.
    rewrite (IH A x prev HA Hn) by (try (intros j Hj; apply Hf); lia).
    by rewrite bind_Ok.
  - rewrite Hx. rewrite <- app_assoc in Hn. cbn [app] in Hn.
    destruct (nodes_at_split _ _ _ _ _ Hn) as [Hcell Hrest].
    apply Forall_app in HA as [_ HA]. apply Forall_cons in HA as [_ HA].
    rewrite (IH A2 (addr a) (Some (addr a)) HA Hrest).
    + rewrite bind_Ok. do 2 f_equal.
      apply Forall_fmap_ext_1, Forall_forall. intros j Hj%elem_of_seq.
      rewrite pred_at_app. cbn [pred_at].
      destruct (decide (j < height a)%nat); [done|lia].
    + intros j Hj. rewrite (fwd_node _ _ _ _ Hcell).
      apply forward_at_tower. lia.
    + rewrite length_app in Hfuel. cbn in Hfuel. lia.
Qed.

End Walk.

Section Unlink.
Context (m : memory) (hdr : ptr) (A : list item) (b : item) (R : list item).
Context (update : list ptr) (lvl : nat) (pb : option ptr).
Hypothesis Hgroup : ∀ z, z ∈ hdr :: (addr <$> A) → is_Some (cells m !! z).
Hypothesis Hpred :
  ∀ j, (j < lvl)%nat → fwd m (pred_at j hdr A) j = Ok (nxt j (b :: R)).
Hypothesis Hb : cells m !! addr b = Some (node_of pb b R).
Hypothesis HbA : addr b ∉ hdr :: (addr <$> A).
Hypothesis HbR : addr b ∉ addr <$> R.
Hypothesis Hupdate : ∀ j, (j < lvl)%nat → update !! j = Some (pred_at j hdr A).

Lemma unlinked_start : unlinked (cells m) hdr A b R 0 (cells m).
Proof.
  split; [done|]. intros z n _ Hz. exists (forward n). split; [by destruct n|].
  split; [done|]. intros j. destruct (decide (_ ∧ _ ∧ _)) as [[? _]|_]; [lia|done].
Qed.

(** One level of the first loop of [slDeleteNode]. *)
Lemma unlinked_step k m' :
  (k < lvl)%nat → unlinked (cells m) hdr A b R k (cells m') →
  ∃ m'', (u ← update_at update k;
          f ← fwd m' u k;
          if decide (f = Some (addr b)) then
            xf ← fwd m' (addr b) k; set_forward m' u k xf
          else Ok m') = Ok m''
         ∧ unlinked (cells m) hdr A b R (S k) (cells m'')
         ∧ brk m'' = brk m'.
Proof.
  intros Hk [U1 U2]. unfold update_at. rewrite (Hupdate k Hk), bind_Ok.
  set (u := pred_at k hdr A).
  assert (Hu : u ∈ hdr :: (addr <$> A)).
  { destruct (pred_at_elem k hdr A) as [H|H]; [rewrite elem_of_cons; by left|].
    rewrite elem_of_cons. by right. }
  destruct (Hgroup u Hu) as [n Hn].
  destruct (U2 u n Hu Hn) as (t & Ht & Hlen & Hslots).
  pose proof (Hpred k Hk) as Hf. fold u in Hf.
  rewrite (fwd_node _ _ _ _ Hn) in Hf. unfold forward_at in Hf.
  destruct (forward n !! k) as [fk|] eqn:Hfk; [|done].
  injection Hf as ->.
  assert (Htk : t !! k = Some (nxt k (b :: R))).
  { rewrite Hslots. destruct (decide (_ ∧ _ ∧ _)) as [[? _]|_]; [lia|done]. }
  rewrite (fwd_node _ _ _ _ Ht). unfold forward_at at 1. cbn [forward].
  rewrite Htk, bind_Ok. cbn [nxt].
  destruct (decide (k < height b)%nat) as [Hh|Hh].
  - destruct (decide (Some (addr b) = Some (addr b))) as [_|]; [|done].
    assert (Hb' : cells m' !! addr b = Some (node_of pb b R))
      by (by rewrite (U1 _ HbA)).
    rewrite (fwd_node _ _ _ _ Hb'). unfold node_of.
    rewrite (forward_at_tower _ _ _ _ _ _ Hh), bind_Ok.
    unfold set_forward, load. rewrite Ht, bind_Ok. cbn [forward score obj backward].
    pose proof (lookup_lt_Some _ _ _ Htk) as Hlt.
    destruct (decide (k < length t)%nat); [|lia].
    eexists. split; [done|]. split; [|done].
    split; cbn [cells store].
    + intros z Hz. rewrite lookup_insert_ne; [by apply U1|].
      intros <-. by destruct Hz.
    + intros z n0 Hz Hn0. destruct (decide (z = u)) as [->|Hzu].
      * rewrite lookup_insert_eq. rewrite Hn in Hn0. injection Hn0 as <-.
        eexists. split; [done|]. split; [by rewrite length_insert|].
        intros j. destruct (decide (j = k)) as [->|Hjk].
        -- rewrite list_lookup_insert_eq by done.
           destruct (decide (_ ∧ _ ∧ _)) as [_|Hc]; [done|]. destruct Hc. repeat split; (done || lia).
        -- rewrite list_lookup_insert_ne by done. rewrite Hslots.
           destruct (decide (_ ∧ _ ∧ _)) as [(? & ? & ?)|Hc];
             destruct (decide (_ ∧ _ ∧ _)) as [(? & ? & ?)|Hc']; try done.
           ++ destruct Hc'. repeat split; (done || lia).
           ++ destruct Hc. repeat split; (done || lia).
      * rewrite lookup_insert_ne by done.
        destruct (U2 z n0 Hz Hn0) as (t0 & Ht0 & Hlen0 & Hslots0).
        exists t0. split; [done|]. split; [done|]. intros j. rewrite Hslots0.
        destruct (decide (_ ∧ _ ∧ _)) as [(? & ? & ?)|Hc];
          destruct (decide (_ ∧ _ ∧ _)) as [(? & Hz' & ?)|Hc']; try done.
        -- destruct Hc'. repeat split; (done || lia).
        -- destruct Hc. split; [|by split].
           destruct (decide (j = k)) as [->|]; [by destruct Hzu|lia].
  - destruct (decide (nxt k R = Some (addr b))) as [He|_].
    { destruct HbR. by apply (nxt_elem k). }
    eexists. split; [done|]. split; [|done].
    split; [done|]. intros z n0 Hz Hn0.
    destruct (U2 z n0 Hz Hn0) as (t0 & Ht0 & Hlen0 & Hslots0).
    exists t0. split; [done|]. split; [done|]. intros j. rewrite Hslots0.
    destruct (decide (_ ∧ _ ∧ _)) as [(? & ? & ?)|Hc];
      destruct (decide (_ ∧ _ ∧ _)) as [(? & Hz' & ?)|Hc']; try done.
    + destruct Hc'. repeat split; (done || lia).
    + destruct Hc. split; [|by split].
      destruct (decide (j = k)) as [->|]; [lia|lia].
Qed.

(** The first loop of [slDeleteNode] over the levels [k], ..,
    [k + n - 1]. *)
Lemma slDeleteNode_unlink_spec n :
  ∀ k m', (k + n ≤ lvl)%nat → unlinked (cells m) hdr A b R k (cells m') →
    ∃ m'', slDeleteNode_unlink m' (addr b) update (seq k n) = Ok m''
           ∧ unlinked (cells m) hdr A b R (k + n) (cells m'')
           ∧ brk m'' = brk m'.
Proof.
  induction n as [|n IH]; intros k m' Hk Hu.
  - exists m'. rewrite Nat.add_0_r. split; [done|]. by split.
  - cbn [seq slDeleteNode_unlink].
    destruct (unlinked_step k m') as (m1 & Hrun & Hu1 & Hbrk1); [lia|done|].
    destruct (IH (S k) m1) as (m2 & Hrun2 & Hu2 & Hbrk2); [lia|done|].
    exists m2. split; [|split].
    + revert Hrun. unfold update_at.
      destruct (update !! k) as [u|]; [|done]. rewrite !bind_Ok.
      destruct (fwd m' u k) as [f|]; [|done]. rewrite !bind_Ok.
      destruct (decide (f = Some (addr b))).
      * destruct (fwd m' (addr b) k) as [xf|]; [|done]. rewrite !bind_Ok.
        intros ->. by rewrite bind_Ok.
      * by intros [= ->].
    + by replace (k + S n)%nat with (S k + n)%nat by lia.
    + congruence.
Qed.

End Unlink.

Section Shrink.
Implicit Types (l : list item) (m : memory).

Lemma heights_nodup_sub (hdr : ptr) (A : list item) (b : item) (R : list item) :
  NoDup (hdr :: (addr <$> (A ++ b :: R))) →
  NoDup (hdr :: (addr <$> (A ++ R)))
  ∧ (addr b ∉ hdr :: (addr <$> A))
  ∧ (addr b ∉ addr <$> R)
  ∧ (∀ z, z ∈ addr <$> R → z ∉ hdr :: (addr <$> A)).
Proof.
  rewrite !fmap_app, fmap_cons. intros [Hh Hn]%NoDup_cons.
  apply NoDup_app in Hn as (HA & HAR & [HbR HR]%NoDup_cons).
  rewrite elem_of_app, elem_of_cons in Hh.
  split; [|split; [|split]].
  - apply NoDup_cons. split.
    + rewrite elem_of_app. intros [?|?]; apply Hh; auto.
    + apply NoDup_app. split; [done|]. split; [|done].
      intros z Hz Hz'. apply (HAR z Hz). rewrite elem_of_cons. auto.
  - rewrite elem_of_cons. intros [<-|Hb].
    + apply Hh. auto.
    + apply (HAR _ Hb). rewrite elem_of_cons. auto.
  - done.
  - intros z Hz. rewrite elem_of_cons. intros [->|Hz'].
    + apply Hh. auto.
    + apply (HAR z Hz'). rewrite elem_of_cons. auto.
Qed.

(** The loop that lowers the level stops at a level no tower exceeds. *)
Lemma slDeleteNode_shrink_spec m hdr l :
  cells m !! hdr
  = Some (mkNode None None None (tower (Z.to_nat SKIPLIST_MAXLEVEL) l)) →
  ∀ n level,
    1 <= level <= SKIPLIST_MAXLEVEL →
    Forall (λ a, Z.of_nat (height a) <= level) l →
    ∃ level', slDeleteNode_shrink n m hdr level = Ok level'
              ∧ 1 <= level' <= level
              ∧ Forall (λ a, Z.of_nat (height a) <= level') l.
Proof.
  intros Hhdr. induction n as [|n IH]; intros level Hlevel Hl.
  - exists level. cbn. split; [done|]. split; [lia|done].
  - cbn [slDeleteNode_shrink]. destruct (Z.ltb_spec 1 level) as [Hlt|Hge].
    + rewrite (fwd_node _ _ _ _ Hhdr).
      rewrite forward_at_tower by (unfold SKIPLIST_MAXLEVEL in *; lia).
      rewrite bind_Ok.
      destruct (nxt (Z.to_nat (level - 1)) l) eqn:Hnxt.
      * exists level. split; [done|]. split; [lia|done].
      * destruct (IH (level - 1)) as (level' & Hrun & Hb & Hl'); [lia| |].
        { apply nxt_None in Hnxt. eapply Forall_impl; [exact Hnxt|].
          unfold low. intros a Ha. lia. }
        exists level'. split; [done|]. split; [lia|done].
    + exists level. split; [done|]. split; [lia|done].
Qed.

(** A tower after the first loop of [slDeleteNode] is the tower for the
    list without the node. *)
Lemma unlinked_tower (hdr z : ptr) (A A2 : list item) (b : item) (R : list item)
  (lvl hz : nat) (t old : list (option ptr)) :
  old = tower hz (A2 ++ b :: R) →
  length t = hz →
  (∀ j, t !! j =
        if decide ((j < lvl)%nat ∧ z = pred_at j hdr A ∧ (j < height b)%nat)
        then Some (nxt j R) else old !! j) →
  (∀ j, (j < hz)%nat → Forall (low j) A2 → pred_at j hdr A = z) →
  (∀ j, ¬ Forall (low j) A2 → pred_at j hdr A ≠ z) →
  (height b ≤ lvl)%nat →
  t = tower hz (A2 ++ R).
Proof.
  intros -> Hlen Hslots Hlast Hnot Hb. apply list_eq. intros j.
  destruct (decide (j < hz)%nat) as [Hj|Hj].
  - rewrite Hslots, !tower_lookup by done.
    destruct (decide (Forall (low j) A2)) as [Hlow|Hhigh].
    + rewrite !nxt_app_low by done. cbn [nxt].
      destruct (decide (j < height b)%nat) as [Hh|Hh].
      * destruct (decide (_ ∧ _ ∧ _)) as [_|Hc]; [done|].
        destruct Hc. split; [lia|]. split; [|done]. symmetry. by apply Hlast.
      * destruct (decide (_ ∧ _ ∧ _)) as [(_ & _ & ?)|_]; [lia|done].
    + destruct (decide (_ ∧ _ ∧ _)) as [(_ & Hz & _)|_].
      * by destruct (Hnot j Hhigh).
      * f_equal. by apply nxt_app_high.
  - rewrite !lookup_ge_None_2; [done| |]; rewrite ?tower_length; lia.
Qed.

End Shrink.

Section DeleteNode.
Context (m : memory) (sl : skiplist) (A : list item) (b : item) (R : list item).
Context (update : list ptr).
Hypothesis Hrep : rep m sl (A ++ b :: R).
Hypothesis Hupdate :
  ∀ j, (j < Z.to_nat (sl_level sl))%nat →
       update !! j = Some (pred_at j (sl_header sl) A).

Local Abbreviation hdr := (sl_header sl).
Local Abbreviation lvl := (Z.to_nat (sl_level sl)).

Lemma rep_group z : z ∈ hdr :: (addr <$> A) → is_Some (cells m !! z).
Proof using Hrep.
  rewrite elem_of_cons. intros [->|Hz].
  - rewrite (rep_header _ _ _ Hrep). by eexists.
  - apply list_elem_of_fmap in Hz as (a & -> & Ha).
    apply list_elem_of_split in Ha as (A1 & A2 & HA).
    pose proof (rep_nodes _ _ _ Hrep) as Hn. rewrite HA in Hn.
    rewrite <- app_assoc in Hn. cbn [app] in Hn.
    apply nodes_at_split in Hn as [-> _]. by eexists.
Qed.

Lemma rep_lvl : (1 ≤ lvl ≤ Z.to_nat SKIPLIST_MAXLEVEL)%nat.
Proof using Hrep. pose proof (rep_level _ _ _ Hrep). unfold SKIPLIST_MAXLEVEL in *. lia. Qed.

(** The slot [j] of [update[j]] points at the node to delete, or past
    it when the node is too short. *)
Lemma rep_pred j :
  (j < lvl)%nat → fwd m (pred_at j hdr A) j = Ok (nxt j (b :: R)).
Proof using Hrep.
  intros Hj. pose proof rep_lvl as Hlvl.
  destruct (pred_at_cases j hdr A) as [[-> Hl]|(A1 & a & A2 & HA & -> & Hi & Hl)].
  - rewrite (fwd_node _ _ _ _ (rep_header _ _ _ Hrep)).
    rewrite forward_at_tower by lia. by rewrite nxt_app_low.
  - pose proof (rep_nodes _ _ _ Hrep) as Hn. rewrite HA in Hn.
    rewrite <- app_assoc in Hn. cbn [app] in Hn.
    apply nodes_at_split in Hn as [Hcell _].
    rewrite (fwd_node _ _ _ _ Hcell). unfold node_of.
    rewrite forward_at_tower by lia. by rewrite nxt_app_low.
Qed.

Lemma rep_cell_b : cells m !! addr b = Some (node_of (prev_of None A) b R).
Proof using Hrep. by destruct (nodes_at_split _ _ _ _ _ (rep_nodes _ _ _ Hrep)). Qed.

Lemma rep_height_b : (1 ≤ height b ≤ lvl)%nat.
Proof using Hrep.
  pose proof (rep_heights _ _ _ Hrep) as H.
  apply Forall_app in H as [_ H]. apply Forall_cons in H as [H _]. lia.
Qed.

(** The header after the first loop. *)
Lemma unlinked_header cs' :
  unlinked (cells m) hdr A b R lvl cs' →
  cs' !! hdr
  = Some (mkNode None None None (tower (Z.to_nat SKIPLIST_MAXLEVEL) (A ++ R))).
Proof using Hrep.
  intros [_ U2].
  destruct (U2 hdr _ ltac:(left) (rep_header _ _ _ Hrep)) as (t & -> & Hlen & Hslots).
  cbn [score obj backward forward] in *. rewrite tower_length in Hlen.
  destruct (heights_nodup_sub _ _ _ _ (rep_nodup _ _ _ Hrep)) as (Hnd & _).
  apply NoDup_cons in Hnd as [Hh _]. rewrite fmap_app, elem_of_app in Hh.
  do 2 f_equal.
  eapply (unlinked_tower hdr hdr A A b R); [done|done|exact Hslots| | |].
  - intros j _ Hl. by apply pred_at_low.
  - intros j Hl%(pred_at_high j hdr) Heq. rewrite Heq in Hl. auto.
  - apply rep_height_b.
Qed.

(** A node of [A] after the first loop. *)
Lemma unlinked_node cs' A1 a A2 :
  unlinked (cells m) hdr A b R lvl cs' →
  A = A1 ++ a :: A2 →
  cs' !! addr a = Some (node_of (prev_of None A1) a (A2 ++ R)).
Proof using Hrep.
  intros [_ U2] HA.
  pose proof (rep_nodes _ _ _ Hrep) as Hn. rewrite HA in Hn.
  rewrite <- app_assoc in Hn. cbn [app] in Hn.
  apply nodes_at_split in Hn as [Hcell _].
  assert (Ha : addr a ∈ hdr :: (addr <$> A)).
  { rewrite HA, fmap_app, fmap_cons, elem_of_cons, elem_of_app, elem_of_cons. auto. }
  destruct (U2 _ _ Ha Hcell) as (t & -> & Hlen & Hslots).
  cbn [score obj backward forward node_of] in *. rewrite tower_length in Hlen.
  pose proof (rep_nodup _ _ _ Hrep) as Hnd. rewrite HA in Hnd.
  rewrite <- app_assoc in Hnd. cbn [app] in Hnd.
  apply NoDup_cons in Hnd as [_ Hnd]. rewrite fmap_app, fmap_cons in Hnd.
  apply NoDup_app in Hnd as (_ & _ & [Ha2 _]%NoDup_cons).
  rewrite fmap_app, elem_of_app in Ha2.
  unfold node_of. do 2 f_equal.
  eapply (unlinked_tower hdr (addr a) A A2 b R); [done|done|exact Hslots| | |].
  - intros j Hj Hl. rewrite HA. by apply pred_at_split.
  - intros j Hl Heq. rewrite HA, pred_at_app in Heq. cbn [pred_at] in Heq.
    apply (pred_at_high j (if decide (j < height a)%nat then addr a
                           else pred_at j hdr A1)) in Hl.
    rewrite Heq in Hl. auto.
  - apply rep_height_b.
Qed.

End DeleteNode.

Section DeleteNodeSpec.
Implicit Types (cs : gmap ptr slNode) (l A R : list item) (m : memory).

Lemma nodes_at_agree cs cs' prev l :
  (∀ z, z ∈ addr <$> l → cs' !! z = cs !! z) →
  nodes_at cs prev l → nodes_at cs' prev l.
Proof.
  revert prev. induction l as [|a l IH]; intros prev Hag; [done|].
  cbn. intros [Ha Hl]. split.
  - rewrite Hag; [done|]. rewrite fmap_cons. left.
  - apply IH; [|done]. intros z Hz. apply Hag. rewrite fmap_cons. by right.
Qed.

Lemma nodes_at_app_intro cs prev A R :
  (∀ A1 a A2, A = A1 ++ a :: A2 →
              cs !! addr a = Some (node_of (prev_of prev A1) a (A2 ++ R))) →
  nodes_at cs (prev_of prev A) R →
  nodes_at cs prev (A ++ R).
Proof.
  revert prev. induction A as [|a A IH]; intros prev HA HR; [done|].
  cbn. split.
  - apply (HA [] a A eq_refl).
  - apply IH.
    + intros A1 a' A2 ->. rewrite <- (prev_of_cons prev).
      by apply (HA (a :: A1) a' A2).
    + by rewrite <- (prev_of_cons prev).
Qed.

Lemma last_addr_app_cons A (b : item) R :
  R ≠ [] → last (addr <$> (A ++ b :: R)) = last (addr <$> (A ++ R)).
Proof.
  intros HR. rewrite !fmap_app, fmap_cons, !last_app.
  destruct R as [|r R]; [done|]. by rewrite fmap_cons, last_cons_cons.
Qed.

(** [slDeleteNode] and [slFreeNode] on the node [b] of a well-formed
    list, given the slots a walk up to [b] leaves in [update]: the list
    without [b], well-formed again. *)
Lemma slDeleteNode_spec m sl A b R update :
  rep m sl (A ++ b :: R) →
  (∀ j, (j < Z.to_nat (sl_level sl))%nat →
        update !! j = Some (pred_at j (sl_header sl) A)) →
  Z.of_nat (length (A ++ b :: R)) < 2 ^ 64 →
  ∃ m1 sl1, slDeleteNode m sl (addr b) update = Ok (m1, sl1)
            ∧ rep (slFreeNode m1 (addr b)) sl1 (A ++ R)
            ∧ sl_header sl1 = sl_header sl
            ∧ sl_level sl1 <= sl_level sl.
Proof.
  intros Hrep Hupdate Hsmall.
  destruct (heights_nodup_sub _ _ _ _ (rep_nodup _ _ _ Hrep))
    as (Hnd & HbA & HbR & HRA).
  pose proof (rep_cell_b _ _ _ _ _ Hrep) as Hb.
  pose proof (rep_height_b _ _ _ _ _ Hrep) as Hhb.
  pose proof (rep_lvl _ _ _ _ _ Hrep) as Hlvl.
  destruct (slDeleteNode_unlink_spec m (sl_header sl) A b R update
              (Z.to_nat (sl_level sl)) (prev_of None A)
              (rep_group _ _ _ _ _ Hrep) (rep_pred _ _ _ _ _ Hrep)
              Hb HbA HbR Hupdate (Z.to_nat (sl_level sl)) 0%nat m)
    as (m1 & Hrun & Hu & Hbrk); [lia|apply unlinked_start|].
  cbn [Nat.add] in Hu.
  pose proof (unlinked_header _ _ _ _ _ Hrep _ Hu) as Hhdr1.
  pose proof (λ A1 a A2, unlinked_node _ _ _ _ _ Hrep _ A1 a A2 Hu) as HA1.
  destruct Hu as [U1 _].
  assert (Hheights : Forall (λ a, (1 ≤ height a)%nat
                                  ∧ Z.of_nat (height a) <= sl_level sl) (A ++ R)).
  { pose proof (rep_heights _ _ _ Hrep) as H.
    apply Forall_app in H as [H1 [_ H2]%Forall_cons]. by apply Forall_app. }
  unfold slDeleteNode. rewrite Hrun, bind_Ok.
  unfold load at 1. rewrite (U1 _ HbA), Hb, bind_Ok.
  rewrite forward_at_node_of by lia. rewrite bind_Ok.
  cbn [backward node_of].
  pose proof (rep_nodes _ _ _ Hrep) as Hnodes.
  apply nodes_at_suffix in Hnodes. cbn [nodes_at] in Hnodes.
  destruct Hnodes as [_ HnR].
  destruct R as [|r R'].
  - (* the node was the last one *)
    cbn [nxt]. rewrite bind_Ok.
    destruct (slDeleteNode_shrink_spec m1 (sl_header sl) (A ++ []) Hhdr1
                (Z.to_nat (sl_level sl)) (sl_level sl))
      as (level' & Hshrink & Hlevel' & Hh').
    { apply (rep_level _ _ _ Hrep). }
    { eapply Forall_impl; [exact Hheights|]. by intros a [_ ?]. }
    rewrite Hshrink, bind_Ok. eexists _, _. split; [done|].
    split; [|split; [done|cbn; lia]].
    constructor; cbn [sl_header sl_tail sl_length sl_level slFreeNode cells].
    + done.
    + rewrite lookup_delete_ne; [done|]. intros Heq. apply HbA. rewrite Heq. left.
    + apply nodes_at_app_intro; [|done].
      intros A1 a A2 HA. rewrite lookup_delete_ne; [by apply HA1|].
      intros Heq. apply HbA. rewrite Heq, HA, fmap_app, fmap_cons.
      right. apply elem_of_app. right. left.
    + rewrite app_nil_r. apply prev_of_last.
    + rewrite (rep_length _ _ _ Hrep) in *. unfold ulong_of.
      rewrite !length_app in *. cbn [length] in *.
      rewrite Z.mod_small; lia.
    + pose proof (rep_level _ _ _ Hrep). lia.
    + apply Forall_forall. intros a Ha.
      rewrite Forall_forall in Hheights, Hh'.
      split; [by apply Hheights|by apply Hh'].
  - (* the node has a successor, whose back pointer is redirected *)
    destruct HnR as [Hr HnR'].
    assert (Hh1 : (1 ≤ height r)%nat).
    { apply Forall_app in Hheights as [_ [[? _] _]%Forall_cons]. done. }
    cbn [nxt]. destruct (decide (0 < height r)%nat); [|lia].
    assert (HrA : addr r ∉ sl_header sl :: (addr <$> A)).
    { apply HRA. rewrite fmap_cons. left. }
    unfold set_backward, load. rewrite (U1 _ HrA).
    rewrite Hr, !bind_Ok.
    cbn [score obj forward node_of].
    set (m2 := store m1 (addr r) _).
    assert (Hhdr2 : cells m2 !! sl_header sl
              = Some (mkNode None None None
                        (tower (Z.to_nat SKIPLIST_MAXLEVEL) (A ++ r :: R')))).
    { subst m2. cbn [cells store]. rewrite lookup_insert_ne; [done|].
      intros Heq. apply HrA. rewrite Heq. left. }
    destruct (slDeleteNode_shrink_spec m2 (sl_header sl) (A ++ r :: R') Hhdr2
                (Z.to_nat (sl_level sl)) (sl_level sl))
      as (level' & Hshrink & Hlevel' & Hh').
    { apply (rep_level _ _ _ Hrep). }
    { eapply Forall_impl; [exact Hheights|]. by intros a [_ ?]. }
    rewrite Hshrink, bind_Ok. eexists _, _. split; [done|].
    split; [|split; [done|cbn; lia]].
    assert (Hbr : addr b ≠ addr r).
    { intros Heq. apply HbR. rewrite Heq, fmap_cons. left. }
    constructor; cbn [sl_header sl_tail sl_length sl_level slFreeNode cells].
    + done.
    + rewrite lookup_delete_ne; [done|]. intros Heq. apply HbA. rewrite Heq. left.
    + apply nodes_at_app_intro.
      * intros A1 a A2 HA. rewrite lookup_delete_ne.
        -- subst m2. cbn [cells store]. rewrite lookup_insert_ne; [by apply HA1|].
           intros Heq. apply HrA. rewrite Heq, HA, fmap_app, fmap_cons.
           right. apply elem_of_app. right. left.
        -- intros Heq. apply HbA. rewrite Heq, HA, fmap_app, fmap_cons.
           right. apply elem_of_app. right. left.
      * cbn [nodes_at]. split.
        -- rewrite lookup_delete_ne by done. subst m2. cbn [cells store].
           by rewrite lookup_insert_eq.
        -- eapply nodes_at_agree; [|exact HnR'].
           intros z Hz.
           assert (Hz' : z ∈ addr <$> (r :: R')) by (rewrite fmap_cons; by right).
           rewrite lookup_delete_ne.
           ++ subst m2. cbn [cells store]. rewrite lookup_insert_ne.
              ** apply U1. by apply HRA.
              ** intros <-. apply NoDup_cons in Hnd as [_ Hnd].
                 rewrite fmap_app, fmap_cons in Hnd.
                 apply NoDup_app in Hnd as (_ & _ & [Hnr _]%NoDup_cons). done.
           ++ intros <-. done.
    + rewrite (rep_tail _ _ _ Hrep). by apply last_addr_app_cons.
    + rewrite (rep_length _ _ _ Hrep) in *. unfold ulong_of.
      rewrite !length_app in *. cbn [length] in *.
      rewrite Z.mod_small; lia.
    + pose proof (rep_level _ _ _ Hrep). lia.
    + apply Forall_forall. intros a Ha.
      rewrite Forall_forall in Hheights, Hh'.
      split; [by apply Hheights|by apply Hh'].
Qed.

End DeleteNodeSpec.

Section DeleteScore.
Implicit Types (l A B C R : list item) (m : memory) (sl : skiplist) (s : robj).

Lemma rep_fuel m sl l : rep m sl l → (length l < size (cells m))%nat.
Proof.
  intros Hrep.
  pose proof (size_list_to_set (C := gset ptr) _ (rep_nodup _ _ _ Hrep)) as Hsz.
  cbn [length] in Hsz. rewrite length_fmap in Hsz.
  assert (Hsub : (list_to_set (sl_header sl :: (addr <$> l)) : gset ptr)
                 ⊆ dom (cells m)).
  { intros z Hz. apply elem_of_list_to_set in Hz. apply elem_of_dom.
    apply elem_of_cons in Hz as [->|Hz].
    - rewrite (rep_header _ _ _ Hrep). by eexists.
    - apply list_elem_of_fmap in Hz as (a & -> & Ha).
      apply list_elem_of_split in Ha as (l1 & l2 & ->).
      destruct (nodes_at_split _ _ _ _ _ (rep_nodes _ _ _ Hrep)) as [-> _].
      by eexists. }
  apply subseteq_size in Hsub. rewrite size_dom in Hsub. lia.
Qed.

(** After a walk that passes exactly [A], slot [j] of [update[j]]
    points at the first node after [A] that has level [j]. *)
Lemma rep_pred_rest m sl A R j :
  rep m sl (A ++ R) → (j < Z.to_nat (sl_level sl))%nat →
  fwd m (pred_at j (sl_header sl) A) j = Ok (nxt j R).
Proof.
  intros Hrep Hj. pose proof (rep_level _ _ _ Hrep) as Hlvl.
  unfold SKIPLIST_MAXLEVEL in Hlvl.
  destruct (pred_at_cases j (sl_header sl) A)
    as [[-> Hl]|(A1 & a & A2 & -> & -> & Hi & Hl)].
  - rewrite (fwd_node _ _ _ _ (rep_header _ _ _ Hrep)).
    rewrite forward_at_tower by (unfold SKIPLIST_MAXLEVEL; lia).
    by rewrite nxt_app_low.
  - pose proof (rep_nodes _ _ _ Hrep) as Hn.
    rewrite <- app_assoc in Hn. cbn [app] in Hn.
    apply nodes_at_split in Hn as [Hcell _].
    rewrite (fwd_node _ _ _ _ Hcell).
    rewrite forward_at_node_of by lia. by rewrite nxt_app_low.
Qed.

Lemma rep_nxt_zero m sl A R :
  rep m sl (A ++ R) → nxt 0 R = head (addr <$> R).
Proof.
  intros Hrep. apply nxt_zero.
  pose proof (rep_heights _ _ _ Hrep) as H. apply Forall_app in H as [_ H].
  eapply Forall_impl; [exact H|]. by intros a [? _].
Qed.

(** The loop of [slDeleteScore] removes the nodes [B] equal to the score
    and stops on the first node of [C]. *)
Lemma slDeleteScore_loop_spec s update C :
  Forall (λ c, same s c = false) C →
  ∀ B, Forall (λ b, same s b = true) B →
  ∀ fuel m sl A deleted,
    rep m sl (A ++ B ++ C) →
    (∀ j, (j < Z.to_nat (sl_level sl))%nat →
          update !! j = Some (pred_at j (sl_header sl) A)) →
    (length B < fuel)%nat →
    0 <= deleted → deleted + Z.of_nat (length B) < 2 ^ 31 →
    Z.of_nat (length (A ++ B ++ C)) < 2 ^ 64 →
    ∃ m' sl',
      slDeleteScore_loop fuel m sl s update (head (addr <$> (B ++ C))) deleted
      = Ok (m', sl', deleted + Z.of_nat (length B))
      ∧ rep m' sl' (A ++ C)
      ∧ sl_header sl' = sl_header sl.
Proof.
  intros HC B HB.
  induction HB as [|b B Hb _ IH];
    intros fuel m sl A deleted Hrep Hupdate Hfuel Hd0 Hd Hsmall.
  - destruct fuel as [|fuel]; [cbn in Hfuel; lia|].
    exists m, sl. cbn [app length] in *. rewrite Z.add_0_r.
    split; [|by split]. cbn [slDeleteScore_loop].
    destruct C as [|c C]; [done|]. cbn [fmap list_fmap head].
    rewrite (nodes_at_load _ _ _ _ _ (rep_nodes _ _ _ Hrep)), bind_Ok.
    cbn [score node_of]. apply Forall_cons in HC as [Hc _].
    unfold same in Hc. by rewrite Hc.
  - destruct fuel as [|fuel]; [cbn in Hfuel; lia|].
    cbn [app fmap list_fmap head slDeleteScore_loop] in *.
    rewrite (nodes_at_load _ _ _ _ _ (rep_nodes _ _ _ Hrep)), bind_Ok.
    cbn [score node_of]. unfold same in Hb. rewrite Hb.
    pose proof (rep_heights _ _ _ Hrep) as Hh.
    apply Forall_app in Hh as [_ [[Hhb _] _]%Forall_cons].
    fold (node_of (prev_of None A) b (B ++ C)).
    rewrite forward_at_node_of by lia. rewrite bind_Ok.
    destruct (slDeleteNode_spec m sl A b (B ++ C) update Hrep Hupdate Hsmall)
      as (m1 & sl1 & Hrun & Hrep1 & Hhdr1 & Hlvl1).
    rewrite Hrun, bind_Ok. cbn [length] in Hd, Hfuel.
    rewrite int_of_small by lia.
    rewrite (rep_nxt_zero _ _ A (B ++ C) Hrep1).
    destruct (IH fuel (slFreeNode m1 (addr b)) sl1 A (deleted + 1))
      as (m' & sl' & Hloop & Hrep' & Hhdr'); try done; try lia.
    + intros j Hj. rewrite Hhdr1. apply Hupdate. lia.
    + rewrite !length_app in *. cbn [length] in *. rewrite !length_app in *. lia.
    + exists m', sl'. split; [|split; [done|congruence]].
      rewrite Hloop.
      replace (deleted + Z.of_nat (length (b :: B)))
        with (deleted + 1 + Z.of_nat (length B)) by (cbn [length]; lia).
      done.
Qed.

(** [slDeleteScore] on a well-formed list ordered around the score:
    the nodes equal to the score are gone, their number is returned and
    the list is well-formed. *)
Lemma slDeleteScore_spec m sl s A B C :
  rep m sl (A ++ B ++ C) →
  Forall (λ a, below s a = true ∧ same s a = false) A →
  Forall (λ b, below s b = false ∧ same s b = true) B →
  Forall (λ c, below s c = false ∧ same s c = false) C →
  Z.of_nat (length (A ++ B ++ C)) < 2 ^ 31 →
  ∃ m' sl', slDeleteScore m sl s = Ok (m', sl', Z.of_nat (length B))
            ∧ rep m' sl' (A ++ C).
Proof.
  intros Hrep HA HB HC Hsmall.
  pose proof (rep_level _ _ _ Hrep) as Hlvl. unfold SKIPLIST_MAXLEVEL in Hlvl.
  pose proof (rep_fuel _ _ _ Hrep) as Hfuel. rewrite !length_app in Hfuel.
  unfold slDeleteScore.
  rewrite (slDeleteScore_for_spec m s (B ++ C)) with (A := A) (prev := None).
  - rewrite bind_Ok. cbv zeta.
    set (update := (λ j, pred_at j (sl_header sl) A) <$> seq 0 (Z.to_nat (sl_level sl))).
    assert (Hupdate : ∀ j, (j < Z.to_nat (sl_level sl))%nat →
                           update !! j = Some (pred_at j (sl_header sl) A)).
    { intros j Hj. subst update. rewrite list_lookup_fmap.
      by rewrite lookup_seq_lt. }
    rewrite (Hupdate 0%nat) by lia. cbn [default from_option]. unfold id.
    rewrite (rep_pred_rest _ _ _ _ _ Hrep) by lia. rewrite bind_Ok.
    rewrite (rep_nxt_zero _ _ _ _ Hrep).
    destruct (slDeleteScore_loop_spec s update C) with (B := B)
      (fuel := fuel_of m) (m := m) (sl := sl) (A := A) (deleted := 0)
      as (m' & sl' & Hloop & Hrep' & _); try done; try lia.
    + eapply Forall_impl; [exact HC|]. by intros c [_ ?].
    + eapply Forall_impl; [exact HB|]. by intros c [_ ?].
    + unfold fuel_of. lia.
    + rewrite !length_app in Hsmall. lia.
    + exists m', sl'. by split.
  - apply Forall_app. split.
    + eapply Forall_impl; [exact HB|]. by intros c [? _].
    + eapply Forall_impl; [exact HC|]. by intros c [? _].
  - eapply Forall_impl; [exact HA|]. by intros c [? _].
  - apply (rep_nodes _ _ _ Hrep).
  - intros j Hj. rewrite (fwd_node _ _ _ _ (rep_header _ _ _ Hrep)).
    apply forward_at_tower. unfold SKIPLIST_MAXLEVEL. lia.
  - unfold fuel_of. lia.
Qed.

End DeleteScore.

(** ** Well-formedness of the empty list *)

Lemma slCreate_rep : rep (slCreate empty_memory).1 (slCreate empty_memory).2 [].
Proof.
  constructor; cbn.
  - apply NoDup_cons. split; [apply not_elem_of_nil|constructor].
  - by rewrite lookup_insert_eq.
  - done.
  - done.
  - done.
  - unfold SKIPLIST_MAXLEVEL. lia.
  - constructor.
Qed.

(** ** SLREM (C7) *)

Section Slrem.
Implicit Types (l A B C : list item) (m : memory) (sl : skiplist) (s : robj).
Implicit Types (c : redisClient) (scores : list robj).

Lemma filter_keep {X : Type} (P : X → Prop) `{∀ x, Decision (P x)} (l : list X) :
  Forall P l → filter P l = l.
Proof.
  induction 1 as [|x l Hx _ IH]; [done|].
  by rewrite filter_cons_True, IH.
Qed.

Lemma filter_drop {X : Type} (P : X → Prop) `{∀ x, Decision (P x)} (l : list X) :
  Forall (λ x, ¬ P x) l → filter P l = [].
Proof.
  induction 1 as [|x l Hx _ IH]; [done|].
  by rewrite filter_cons_False.
Qed.

Lemma Forall_filter_keep {X : Type} (P Q : X → Prop) `{∀ x, Decision (Q x)}
  (l : list X) : Forall P l → Forall P (filter Q l).
Proof.
  rewrite !Forall_forall. intros HP x [_ Hx]%list_elem_of_filter. by apply HP.
Qed.

(** What goes and what stays when the class of [s] is deleted. *)
Lemma filter_splits_at s A B C :
  Forall (λ a, below s a = true ∧ same s a = false) A →
  Forall (λ b, below s b = false ∧ same s b = true) B →
  Forall (λ e, below s e = false ∧ same s e = false) C →
  filter (λ a, same s a = false) (A ++ B ++ C) = A ++ C.
Proof.
  intros HA HB HC. rewrite !filter_app.
  rewrite (filter_keep _ A), (filter_drop _ B), (filter_keep _ C); [done|..].
  - eapply Forall_impl; [exact HC|]. by intros e [_ ?].
  - eapply Forall_impl; [exact HB|]. intros e [_ ->]. done.
  - eapply Forall_impl; [exact HA|]. by intros e [_ ?].
Qed.

(** Deleting nodes keeps the chain ordered around any score. *)
Lemma splits_at_filter s (P : item → Prop) `{∀ x, Decision (P x)} l :
  splits_at s l → splits_at s (filter P l).
Proof.
  intros (A & B & C & -> & HA & HB & HC).
  exists (filter P A), (filter P B), (filter P C).
  rewrite !filter_app. split; [done|].
  split; [|split]; by apply Forall_filter_keep.
Qed.

Lemma drop_cons_inv {X : Type} (n : nat) (l : list X) (x : X) (r : list X) :
  drop n l = x :: r → l !! n = Some x ∧ drop (S n) l = r.
Proof.
  intros Hd. split.
  - rewrite <- (Nat.add_0_r n), <- lookup_drop. by rewrite Hd.
  - replace (S n) with (n + 1)%nat by lia. rewrite <- drop_drop. by rewrite Hd.
Qed.

(** The loop of [slremCommand] over the scores [argv[i + 2]], .., does
    what [slrem_spec] says. *)
Lemma slremCommand_for_spec c key scores :
  ∀ i m sl l deleted l' d gone,
    drop (i + 2) (argv c) = scores →
    rep m sl l →
    Forall (λ s, splits_at s l) scores →
    0 <= deleted → deleted + Z.of_nat (length l) < 2 ^ 31 →
    slrem_spec l scores = (l', d, gone) →
    ∃ db',
      slremCommand_for (length scores) i c key m sl deleted
      = Ok (set_db c db', deleted + d, if gone then 1 else 0)
      ∧ 0 <= d <= Z.of_nat (length l)
      ∧ if gone then db' = delete (string_bytes key) (db c)
        else ∃ m' sl', db' = <[string_bytes key := SkiplistObject m' sl']> (db c)
                       ∧ rep m' sl' l'.
Proof.
  induction scores as [|s rest IH];
    intros i m sl l deleted l' d gone Hargv Hrep Hsplit Hd0 Hd Hspec.
  - cbn in Hspec. injection Hspec as <- <- <-.
    eexists. cbn [length slremCommand_for]. rewrite Z.add_0_r.
    split; [done|]. split; [lia|]. by exists m, sl.
  - apply drop_cons_inv in Hargv as [Hs Hrest].
    apply Forall_cons in Hsplit as [(A & B & C & -> & HA & HB & HC) Hsplit].
    cbn [length slremCommand_for]. unfold argv_at. rewrite Hs, bind_Ok.
    destruct (slDeleteScore_spec m sl s A B C Hrep HA HB HC)
      as (m1 & sl1 & Hrun & Hrep1); [lia|].
    rewrite Hrun, bind_Ok.
    cbn [slrem_spec] in Hspec. rewrite (filter_splits_at s A B C HA HB HC) in Hspec.
    assert (Hlen : Z.of_nat (length (A ++ B ++ C)) - Z.of_nat (length (A ++ C))
                   = Z.of_nat (length B)).
    { rewrite !length_app. lia. }
    rewrite Hlen in Hspec. rewrite !length_app in Hd.
    rewrite int_of_small by lia.
    rewrite (rep_length _ _ _ Hrep1).
    destruct (A ++ C) as [|a AC] eqn:HAC.
    + injection Hspec as <- <- <-. cbn [length Z.of_nat Z.eqb].
      eexists. split; [done|]. split; [|done]. rewrite !length_app. lia.
    + destruct (slrem_spec (a :: AC) rest) as [[l2 d2] gone2] eqn:Hrec.
      injection Hspec as <- <- <-.
      destruct (Z.eqb_spec (Z.of_nat (length (a :: AC))) 0) as [H0|_];
        [cbn [length] in H0; lia|].
      assert (Hlen' : length (a :: AC) = (length A + length C)%nat)
        by (by rewrite <- HAC, length_app).
      destruct (IH (S i) m1 sl1 (a :: AC) (deleted + Z.of_nat (length B))
                   l2 d2 gone2) as (db' & Hloop & Hd2 & Hfin); try done; try lia.
      * rewrite <- HAC, <- (filter_splits_at s A B C HA HB HC).
        eapply Forall_impl; [exact Hsplit|]. intros s'. apply splits_at_filter.
      * exists db'. split; [|split; [|done]].
        -- rewrite Hloop. do 3 f_equal. lia.
        -- rewrite !length_app. lia.
Qed.

End Slrem.

(** C7 (what the code does at the failing input).  [SLADD k 9 a 10 b]
    stores the scores integer encoded, in the order 9, 10.  [SLREM k 10]
    hands [slDeleteScore] its argument as it came, the string "10", which
    [slCmp] compares with the stored integers by their decimal bytes.  The
    walk does not pass the node 9 ("9" is above "10" as bytes) and stops
    on the header; the node after it, 9, is not equal to "10", so the loop
    that should remove the class ends at once.  SLREM replies 0 and the
    chain is as it was, although [slCmp] finds the score of the second
    node equal to the score given.  On the chain 1, 2, 10 the same happens
    for [SLREM k 2] when the node 10 has a tower of two levels, and not
    when all towers have one. *)
Theorem slrem_misses_the_class :
  let c := call sladdCommand ["sladd"; "k"; "9"; "a"; "10"; "b"]
                (fresh_client [stop; stop]) in
  let flat := call sladdCommand ["sladd"; "k"; "1"; "a"; "2"; "b"; "10"; "c"]
                   (fresh_client [stop; stop; stop]) in
  let tall := call sladdCommand ["sladd"; "k"; "1"; "a"; "2"; "b"; "10"; "c"]
                   (fresh_client [stop; stop; go; stop]) in
  replied 1 (c ≫= call slremCommand ["slrem"; "k"; "10"]) = Ok [ReplyLongLong 0]
  ∧ contents "k" (c ≫= call slremCommand ["slrem"; "k"; "10"])
    = Ok [(Some (IntString 9), Some (RawString "a"));
          (Some (IntString 10), Some (RawString "b"))]
  ∧ slCmp (Some (RawString "10")) (Some (IntString 10)) = 0
  ∧ replied 1 (flat ≫= call slremCommand ["slrem"; "k"; "2"]) = Ok [ReplyLongLong 1]
  ∧ replied 1 (tall ≫= call slremCommand ["slrem"; "k"; "2"]) = Ok [ReplyLongLong 0]
  ∧ contents "k" (tall ≫= call slremCommand ["slrem"; "k"; "2"])
    = Ok [(Some (IntString 1), Some (RawString "a"));
          (Some (IntString 2), Some (RawString "b"));
          (Some (IntString 10), Some (RawString "c"))].
Proof. repeat split; vm_compute; reflexivity. Qed.

(** X1.  The key holds a well-formed skiplist of fewer than 2^31 nodes and
    the level 0 chain is ordered around each score argument (the nodes
    [slCmp] puts below the score, then those it finds equal, then the
    others).  Given an odd number of scores, SLREM deletes, for each
    score in turn, every node of its class; it replies the total number of
    deleted nodes; and when the container becomes empty it removes the key
    from the table and looks at no further score; otherwise the key holds
    what is left, a well-formed skiplist.  Given an even number of scores
    it replies the syntax error and leaves the table as it was. *)
Theorem slrem_deletes_classes (c : redisClient) (cmd key : robj)
  (scores : list robj) (m : memory) (sl : skiplist) (l l' : list item)
  (d : Z) (gone : bool) :
  argv c = cmd :: key :: scores →
  lookupKey c key = Some (SkiplistObject m sl) →
  rep m sl l →
  Z.of_nat (length l) < 2 ^ 31 →
  Forall (λ s, splits_at s l) scores →
  slrem_spec l scores = (l', d, gone) →
  ∃ c', slremCommand c = Ok c'
        ∧ if Z.odd (Z.of_nat (length scores))
          then reply c' = reply c ++ [ReplyLongLong d]
               ∧ if gone then db c' = delete (string_bytes key) (db c)
                 else ∃ m' sl',
                     db c' = <[string_bytes key := SkiplistObject m' sl']> (db c)
                     ∧ rep m' sl' l'
          else reply c' = reply c ++ [shared_syntaxerr] ∧ db c' = db c.
Proof.
  intros Hargv Hlook Hrep Hsmall Hsplit Hspec.
  unfold slremCommand, argc, argv_at. rewrite Hargv. cbn [length lookup list_lookup].
  assert (Hpar : (Z.of_nat (S (S (length scores))) mod 2 =? 0)
                 = negb (Z.odd (Z.of_nat (length scores)))).
  { rewrite !Nat2Z.inj_succ. generalize (Z.of_nat (length scores)). intros n.
    rewrite Zmod_odd, Z.odd_succ_succ. by destruct (Z.odd n). }
  rewrite Hpar. destruct (Z.odd (Z.of_nat (length scores))); cbn [negb].
  2:{ eexists. split; [reflexivity|]. by split. }
  rewrite bind_Ok, Hlook. cbn [not_skiplist entry_type entry_encoding skiplist_of].
  change (negb (REDIS_LIST =? REDIS_LIST)
          || negb (REDIS_ENCODING_SKIPLIST =? REDIS_ENCODING_SKIPLIST)) with false.
  cbv iota. rewrite bind_Ok.
  replace (Z.to_nat (Z.of_nat (S (S (length scores))) - 2)) with (length scores) by lia.
  destruct (slremCommand_for_spec c key scores 0%nat m sl l 0 l' d gone)
    as (db' & Hloop & Hd & Hfin); try done; try lia.
  { by rewrite Hargv. }
  rewrite Hloop, bind_Ok, Z.add_0_l.
  destruct (negb (d =? 0));
    [destruct (negb ((if gone then 1 else 0) =? 0))|];
    (eexists; split; [reflexivity|]; split; [reflexivity|]; exact Hfin).
Qed.

Lemma slrem_deletes_classes_witness :
  ∃ c,
    call sladdCommand ["sladd"; "k"; "1"; "a"; "1"; "b"; "2"; "c"]
         (fresh_client [stop; go; stop; stop]) = Ok c
    ∧ ∃ c', call slremCommand ["slrem"; "k"; "1"] c = Ok c'
      ∧ reply c' = reply c ++ [ReplyLongLong 2]
      ∧ ∃ m' sl', db c' = <["k" := SkiplistObject m' sl']> (db c)
                  ∧ rep m' sl' [mkItem 3%nat (IntString 2) (RawString "c") 1%nat].
Proof.
  eexists. split; [vm_compute; reflexivity|].
  lazymatch goal with |- ∃ c', call slremCommand _ ?c0 = _ ∧ _ => set (c1 := c0) end.
  unshelve epose proof (slrem_deletes_classes
               (set_argv c1 (map RawString ["slrem"; "k"; "1"]))
               (RawString "slrem") (RawString "k") [RawString "1"]
               _ _
               [mkItem 1%nat (IntString 1) (RawString "a") 1%nat;
                mkItem 2%nat (IntString 1) (RawString "b") 2%nat;
                mkItem 3%nat (IntString 2) (RawString "c") 1%nat]
               _ _ _ _ _ _ _ _ _) as (c' & Hrun & Hreply & Hdb).
  all: cycle 5.
  - reflexivity.
  - vm_compute. reflexivity.
  - constructor.
    + apply (bool_decide_unpack _). vm_compute. exact I.
    + vm_compute. reflexivity.
    + vm_compute. repeat split; reflexivity.
    + reflexivity.
    + reflexivity.
    + vm_compute. split; discriminate.
    + repeat constructor; vm_compute; discriminate.
  - vm_compute. reflexivity.
  - constructor; [|constructor].
    exists [], [mkItem 1%nat (IntString 1) (RawString "a") 1%nat;
                mkItem 2%nat (IntString 1) (RawString "b") 2%nat],
           [mkItem 3%nat (IntString 2) (RawString "c") 1%nat].
    split; [reflexivity|]. repeat constructor.
  - vm_compute. reflexivity.
  - exists c'. split; [exact Hrun|]. split; [exact Hreply|]. exact Hdb.
Defined.

(** Two more runs of SLREM that delete nothing.  With two scores SLREM
    replies the syntax error.  And after [SLADD k 10 m 1a m 9 m] the chain
    is [9], [10], [1a], on which the walk for the score [1a] stops at once
    ("9" is above "1a" as bytes): [SLREM k 1a] replies 0 and the node of
    score [1a] stays. *)
Lemma slrem_leaves_nodes_of_the_class :
  let c := call sladdCommand ["sladd"; "k"; "1"; "a"; "2"; "b"; "3"; "c"]
                (fresh_client [stop; stop; stop]) in
  let c' := call sladdCommand ["sladd"; "k"; "10"; "m"; "1a"; "m"; "9"; "m"]
                 (fresh_client [stop; stop; stop]) in
  replied 1 (c ≫= call slremCommand ["slrem"; "k"; "1"; "2"]) = Ok [shared_syntaxerr]
  ∧ contents "k" (c ≫= call slremCommand ["slrem"; "k"; "1"; "2"])
    = Ok [(Some (IntString 1), Some (RawString "a"));
          (Some (IntString 2), Some (RawString "b"));
          (Some (IntString 3), Some (RawString "c"))]
  ∧ replied 1 (c' ≫= call slremCommand ["slrem"; "k"; "1a"]) = Ok [ReplyLongLong 0]
  ∧ contents "k" (c' ≫= call slremCommand ["slrem"; "k"; "1a"])
    = Ok [(Some (IntString 9), Some (RawString "m"));
          (Some (IntString 10), Some (RawString "m"));
          (Some (RawString "1a"), Some (RawString "m"))].
Proof. repeat split; vm_compute; reflexivity. Qed.

(** * Well-formedness is kept by the primitives *)

(** ** The walks *)

Lemma slInsert_while_walk (s o : robj) (m : memory) (i : nat) (fuel : nat) (x : ptr) :
  slInsert_while fuel m s o i x = walk_while (slInsert_test s o) fuel m i x.
Proof.
  revert x. induction fuel as [|fuel IH]; intros x; [done|].
  cbn [slInsert_while walk_while]. destruct (fwd m x i) as [[y|]|]; cbn; try done.
  destruct (load m y) as [ny|]; cbn; [|done].
  destruct (_ || _); [apply IH|done].
Qed.

Lemma slInsert_for_walk (s o : robj) (m : memory) (n : nat) (x : ptr) :
  slInsert_for m s o n x = walk_for (slInsert_test s o) m n x.
Proof.
  revert x. induction n as [|n IH]; intros x; [done|].
  cbn [slInsert_for walk_for]. rewrite slInsert_while_walk.
  destruct (walk_while _ _ _ _ _) as [x'|]; cbn; [|done]. by rewrite IH.
Qed.

Lemma slDelete_while_walk (s o : robj) (m : memory) (i : nat) (fuel : nat) (x : ptr) :
  slDelete_while fuel m s o i x = walk_while (slDelete_test s o) fuel m i x.
Proof.
  revert x. induction fuel as [|fuel IH]; intros x; [done|].
  cbn [slDelete_while walk_while]. destruct (fwd m x i) as [[y|]|]; cbn; try done.
  destruct (load m y) as [ny|]; cbn; [|done]. unfold slDelete_test.
  destruct (_ <? 0); cbn; [apply IH|].
  destruct (_ =? 0); cbn; [|done].
  destruct (nonnull (obj ny)) as [yo|]; cbn; [|done].
  destruct (_ <? 0); [apply IH|done].
Qed.

Lemma slDelete_for_walk (s o : robj) (m : memory) (n : nat) (x : ptr) :
  slDelete_for m s o n x = walk_for (slDelete_test s o) m n x.
Proof.
  revert x. induction n as [|n IH]; intros x; [done|].
  cbn [slDelete_for walk_for]. rewrite slDelete_while_walk.
  destruct (walk_while _ _ _ _ _) as [x'|]; cbn; [|done]. by rewrite IH.
Qed.

Lemma slDeleteScore_while_walk (s : robj) (m : memory) (i : nat) (fuel : nat) (x : ptr) :
  slDeleteScore_while fuel m s i x = walk_while (slDeleteScore_test s) fuel m i x.
Proof.
  revert x. induction fuel as [|fuel IH]; intros x; [done|].
  cbn [slDeleteScore_while walk_while]. destruct (fwd m x i) as [[y|]|]; cbn; try done.
  destruct (load m y) as [ny|]; cbn; [|done].
  destruct (_ <? 0); [apply IH|done].
Qed.

Lemma slDeleteScore_for_walk (s : robj) (m : memory) (n : nat) (x : ptr) :
  slDeleteScore_for m s n x = walk_for (slDeleteScore_test s) m n x.
Proof.
  revert x. induction n as [|n IH]; intros x; [done|].
  cbn [slDeleteScore_for walk_for]. rewrite slDeleteScore_while_walk.
  destruct (walk_while _ _ _ _ _) as [x'|]; cbn; [|done]. by rewrite IH.
Qed.

Lemma slInsert_test_node (s o : robj) (prev : option ptr) (a : item) (l : list item) :
  slInsert_test s o (node_of prev a l) = Ok (insert_passes s o a).
Proof. reflexivity. Qed.

Lemma slDelete_test_node (s o : robj) (prev : option ptr) (a : item) (l : list item) :
  slDelete_test s o (node_of prev a l) = Ok (delete_passes s o a).
Proof.
  unfold slDelete_test, delete_passes. cbn [score obj node_of].
  destruct (_ <? 0); [done|]. by destruct (_ =? 0).
Qed.

Lemma slDeleteScore_test_node (s : robj) (prev : option ptr) (a : item) (l : list item) :
  slDeleteScore_test s (node_of prev a l) = Ok (below s a).
Proof. reflexivity. Qed.

Section GeneralWalk.
Context (test : slNode → result bool) (P : item → bool).
Hypothesis Htest : ∀ prev a l, test (node_of prev a l) = Ok (P a).
Implicit Types (l A R : list item) (i j n : nat) (x : ptr) (m : memory).

Lemma nxt_first_at i l : nxt i l = addr <$> first_at i l.
Proof.
  induction l as [|a l IH]; [done|].
  cbn. by destruct (decide (i < height a)%nat).
Qed.

Lemma first_at_app_low i l1 l2 :
  Forall (low i) l1 → first_at i (l1 ++ l2) = first_at i l2.
Proof.
  induction 1 as [|a l1 Ha _ IH]; [done|].
  cbn. unfold low in Ha. destruct (decide (i < height a)%nat); [lia|done].
Qed.

Lemma blocked_app_low i l1 l2 :
  Forall (low i) l1 → blocked P i (l1 ++ l2) ↔ blocked P i l2.
Proof. intros H. unfold blocked. by rewrite first_at_app_low. Qed.

Lemma blocked_high i l :
  Forall (λ a, (height a ≤ i)%nat) l → blocked P i l.
Proof.
  intros H. unfold blocked.
  rewrite <- (app_nil_r l), first_at_app_low; done.
Qed.

(** One level of a walk over a well-formed chain [R]: the walk passes a
    prefix [A'] of it and stands blocked before the rest.  Levels above
    on which it stood blocked before stay blocked, and the nodes it
    passed are too short to have them. *)
Lemma walk_while_spec m i :
  ∀ R x prev fuel,
    nodes_at (cells m) prev R →
    fwd m x i = Ok (nxt i R) →
    (length R < fuel)%nat →
    ∃ A' R', R = A' ++ R'
      ∧ walk_while test fuel m i x = Ok (pred_at i x A')
      ∧ (A' = [] ∨ ∃ A1 a, A' = A1 ++ [a] ∧ (i < height a)%nat)
      ∧ blocked P i R'
      ∧ ∀ j, (i < j)%nat → blocked P j R → Forall (low j) A' ∧ blocked P j R'.
Proof using Htest.
  induction R as [|a R IH]; intros x prev fuel Hn Hf Hfuel.
  - exists [], []. destruct fuel as [|fuel]; [cbn in Hfuel; lia|].
    cbn [walk_while]. rewrite Hf. cbn.
    split; [done|]. split; [done|]. split; [by left|]. split; [done|].
    intros j _ Hb. split; [constructor|done].
  - destruct Hn as [Hcell Hn]. cbn [nxt] in Hf. cbn [length] in Hfuel.
    destruct (decide (i < height a)%nat) as [Hh|Hh].
    + destruct fuel as [|fuel]; [lia|].
      cbn [walk_while]. rewrite Hf, bind_Ok. unfold load at 1.
      rewrite Hcell, bind_Ok, Htest, bind_Ok.
      destruct (P a) eqn:HP.
      * destruct (IH (addr a) (Some (addr a)) fuel Hn)
          as (A' & R' & -> & Hrun & Hend & Hblk & Hup); [|lia|].
        { rewrite (fwd_node _ _ _ _ Hcell). by apply forward_at_node_of. }
        exists (a :: A'), R'. split; [done|]. split.
        { cbn [pred_at]. by destruct (decide (i < height a)%nat). }
        split.
        { right. destruct Hend as [->|(A1 & a' & -> & Ha')].
          - by exists [], a.
          - by exists (a :: A1), a'. }
        split; [done|]. intros j Hj Hb.
        assert (Hlow : low j a).
        { unfold low. destruct (decide (j < height a)%nat) as [Hja|]; [|lia].
          unfold blocked in Hb. cbn [first_at] in Hb.
          destruct (decide (j < height a)%nat); [congruence|lia]. }
        destruct (Hup j Hj) as [HA' HR'].
        { by apply (blocked_app_low j [a] (A' ++ R')); [repeat constructor|]. }
        split; [by constructor|done].
      * exists [], (a :: R). split; [done|]. split; [done|]. split; [by left|].
        split.
        { unfold blocked. cbn [first_at].
          by destruct (decide (i < height a)%nat). }
        intros j _ Hb. split; [constructor|done].
    + destruct (IH x (Some (addr a)) fuel Hn Hf)
        as (A' & R' & -> & Hrun & Hend & Hblk & Hup); [lia|].
      assert (Hlow : low i a) by (unfold low; lia).
      destruct Hend as [->|(A1 & a' & -> & Ha')].
      * exists [], (a :: R'). split; [done|]. split; [done|]. split; [by left|].
        split.
        { by apply (blocked_app_low i [a] R'); [repeat constructor|]. }
        intros j _ Hb. split; [constructor|done].
      * exists (a :: A1 ++ [a']), R'. split; [done|]. split.
        { cbn [pred_at]. by destruct (decide (i < height a)%nat). }
        split; [right; by exists (a :: A1), a'|]. split; [done|].
        intros j Hj Hb.
        assert (Hlowj : low j a) by (unfold low in *; lia).
        destruct (Hup j Hj) as [HA' HR'].
        { by apply (blocked_app_low j [a] ((A1 ++ [a']) ++ R'));
            [repeat constructor|]. }
        split; [by constructor|done].
Qed.

(** The descent over the levels below [n]: the walk passes a prefix [A']
    and leaves in slot [j] the last node with level [j] among [x] and
    [A']; before the rest it stands blocked on every level. *)
Lemma walk_for_spec m :
  ∀ n R x prev,
    nodes_at (cells m) prev R →
    (∀ j, (j < n)%nat → fwd m x j = Ok (nxt j R)) →
    (∀ j, (n ≤ j)%nat → blocked P j R) →
    (length R < fuel_of m)%nat →
    ∃ A' R', R = A' ++ R'
      ∧ walk_for test m n x = Ok ((λ j, pred_at j x A') <$> seq 0 n)
      ∧ (∀ j, blocked P j R')
      ∧ (∀ j, (n ≤ j)%nat → Forall (low j) A').
Proof using Htest.
  induction n as [|i IH]; intros R x prev Hn Hf Hblk Hfuel.
  - exists [], R. split; [done|]. split; [done|].
    split; [intros j; apply Hblk; lia|]. intros; constructor.
  - destruct (walk_while_spec m i R x prev (fuel_of m) Hn)
      as (A1 & R1 & -> & Hrun & Hend & Hblk1 & Hup); [apply Hf; lia|lia|].
    assert (Hx1 : ∀ j, (j < i)%nat → pred_at j x A1 = pred_at i x A1).
    { intros j Hj. destruct Hend as [->|(A0 & a & -> & Ha)]; [done|].
      rewrite !pred_at_split; [done| |constructor|lia|constructor]. lia. }
    destruct (IH R1 (pred_at i x A1) (prev_of prev A1))
      as (A2 & R2 & -> & Hrun2 & Hblk2 & Hlow2).
    + by apply nodes_at_suffix.
    + intros j Hj. destruct Hend as [->|(A0 & a & -> & Ha)].
      * cbn. apply Hf. lia.
      * rewrite pred_at_split; [|done|constructor].
        rewrite <- app_assoc in Hn. cbn [app] in Hn.
        destruct (nodes_at_split _ _ _ _ _ Hn) as [Hcell _].
        rewrite (fwd_node _ _ _ _ Hcell). apply forward_at_node_of. lia.
    + intros j Hj. apply Nat.le_lteq in Hj as [Hj|<-]; [|done].
      apply Hup; [done|]. apply Hblk. lia.
    + rewrite length_app in Hfuel. lia.
    + exists (A1 ++ A2), R2. split; [by rewrite app_assoc|]. split.
      { cbn [walk_for]. rewrite Hrun, bind_Ok, Hrun2, bind_Ok.
        rewrite seq_S, fmap_app. cbn [fmap list_fmap Nat.add]. do 2 f_equal.
        - apply Forall_fmap_ext_1, Forall_forall. intros j Hj%elem_of_seq.
          rewrite pred_at_app. rewrite (Hx1 j) by lia. done.
        - rewrite pred_at_app, (pred_at_low i (pred_at i x A1) A2); [done|].
          apply Hlow2. lia. }
      split; [done|]. intros j Hj. apply Forall_app. split.
      * apply Hup; [lia|]. apply Hblk. lia.
      * apply Hlow2. lia.
Qed.

End GeneralWalk.

(** ** Stores *)

Section Stores.
Implicit Types (m : memory) (x z : ptr).

Lemma set_forward_fresh m x i f m' :
  set_forward m x i f = Ok m' → fresh m → fresh m'.
Proof.
  unfold set_forward, load. destruct (cells m !! x) as [n|] eqn:Hn; [|done].
  cbn. destruct (decide _); [|done]. intros [= <-] Hfr z. cbn.
  destruct (decide (z = x)) as [->|Hz].
  - intros _. apply Hfr. by exists n.
  - rewrite lookup_insert_ne by done. apply Hfr.
Qed.

Lemma set_backward_fresh m x b m' :
  set_backward m x b = Ok m' → fresh m → fresh m'.
Proof.
  unfold set_backward, load. destruct (cells m !! x) as [n|] eqn:Hn; [|done].
  cbn. intros [= <-] Hfr z. cbn.
  destruct (decide (z = x)) as [->|Hz].
  - intros _. apply Hfr. by exists n.
  - rewrite lookup_insert_ne by done. apply Hfr.
Qed.

Lemma slFreeNode_fresh m x : fresh m → fresh (slFreeNode m x).
Proof.
  intros Hfr z. cbn. destruct (decide (z = x)) as [->|Hz].
  - rewrite lookup_delete_eq. by intros [? ?].
  - rewrite lookup_delete_ne by done. apply Hfr.
Qed.

Lemma slDeleteNode_unlink_fresh x update lvls :
  ∀ m m', slDeleteNode_unlink m x update lvls = Ok m' → fresh m → fresh m'.
Proof.
  induction lvls as [|i lvls IH]; intros m m'; cbn [slDeleteNode_unlink].
  - by intros [= <-].
  - destruct (update_at update i) as [u|]; cbn; [|done].
    destruct (fwd m u i) as [f|]; cbn; [|done].
    destruct (decide (f = Some x)); [|apply IH].
    destruct (fwd m x i) as [xf|]; cbn; [|done].
    destruct (set_forward m u i xf) as [m1|] eqn:Hset; cbn; [|done].
    intros Hrun Hfr. apply (IH _ _ Hrun). by apply (set_forward_fresh _ _ _ _ _ Hset).
Qed.

Lemma slDeleteNode_fresh m sl x update m1 sl1 :
  slDeleteNode m sl x update = Ok (m1, sl1) → fresh m → fresh m1.
Proof.
  unfold slDeleteNode.
  destruct (slDeleteNode_unlink _ _ _ _) as [m0|] eqn:Hun; cbn; [|done].
  destruct (load m0 x) as [nx|]; cbn; [|done].
  destruct (forward_at nx 0) as [[y|]|]; cbn; [| |done].
  - destruct (set_backward m0 y (backward nx)) as [m2|] eqn:Hset; cbn; [|done].
    destruct (slDeleteNode_shrink _ _ _ _); cbn; [|done].
    intros [= <- _] Hfr.
    apply (set_backward_fresh _ _ _ _ Hset), (slDeleteNode_unlink_fresh _ _ _ _ _ Hun Hfr).
  - destruct (slDeleteNode_shrink _ _ _ _); cbn; [|done].
    intros [= <- _] Hfr. apply (slDeleteNode_unlink_fresh _ _ _ _ _ Hun Hfr).
Qed.

End Stores.

(** ** Deleting keeps the list well-formed *)

Section DeleteKeeps.
Implicit Types (l A R : list item) (m : memory) (sl : skiplist) (s o : robj).

Local Ltac unchanged :=
  split; [reflexivity|]; split; [assumption|]; split; [lia|];
  first [split; [trivial|]; left; by repeat split | trivial].

(** What a walk leaves in [update] on a well-formed list. *)
Lemma walk_for_rep (test : slNode → result bool) (P : item → bool) m sl l :
  (∀ prev a l', test (node_of prev a l') = Ok (P a)) →
  rep m sl l →
  ∃ A R, l = A ++ R
    ∧ walk_for test m (Z.to_nat (sl_level sl)) (sl_header sl)
      = Ok ((λ j, pred_at j (sl_header sl) A) <$> seq 0 (Z.to_nat (sl_level sl)))
    ∧ ∀ j, blocked P j R.
Proof.
  intros Htest Hrep.
  pose proof (rep_level _ _ _ Hrep) as Hlvl. unfold SKIPLIST_MAXLEVEL in Hlvl.
  destruct (walk_for_spec test P Htest m (Z.to_nat (sl_level sl)) l
              (sl_header sl) None) as (A & R & -> & Hrun & Hblk & _).
  - apply (rep_nodes _ _ _ Hrep).
  - intros j Hj. rewrite (fwd_node _ _ _ _ (rep_header _ _ _ Hrep)).
    apply forward_at_tower. unfold SKIPLIST_MAXLEVEL. lia.
  - intros j Hj. apply blocked_high.
    eapply Forall_impl; [exact (rep_heights _ _ _ Hrep)|]. intros a [_ Ha]. lia.
  - pose proof (rep_fuel _ _ _ Hrep). unfold fuel_of. lia.
  - by exists A, R.
Qed.

Lemma update_lookup (hdr : ptr) A (n j : nat) :
  (j < n)%nat →
  ((λ j, pred_at j hdr A) <$> seq 0 n) !! j = Some (pred_at j hdr A).
Proof. intros Hj. rewrite list_lookup_fmap. by rewrite lookup_seq_lt. Qed.

(** [slDelete] keeps a well-formed list well-formed: it changes nothing
    and returns 0, or it takes out one node that compares equal in score
    and in member and returns 1. *)
Lemma slDelete_rep m sl s o l :
  rep m sl l → Z.of_nat (length l) < 2 ^ 64 →
  ∃ m' sl' d l',
    slDelete m sl s o = Ok (m', sl', d)
    ∧ rep m' sl' l'
    ∧ (length l' ≤ length l)%nat
    ∧ (fresh m → fresh m')
    ∧ ((d = 0 ∧ l' = l ∧ m' = m ∧ sl' = sl)
       ∨ (d = 1 ∧ ∃ A b R, l = A ++ b :: R ∧ l' = A ++ R
                          ∧ slCmp (Some s) (Some (iscore b)) = 0
                          ∧ equalStringObjects (iobj b) o = true
                          ∧ cells m' !! addr b = None)).
Proof.
  intros Hrep Hsmall.
  pose proof (rep_level _ _ _ Hrep) as Hlvl. unfold SKIPLIST_MAXLEVEL in Hlvl.
  destruct (walk_for_rep (slDelete_test s o) (delete_passes s o) m sl l
              (slDelete_test_node s o) Hrep) as (A & R & -> & Hrun & _).
  unfold slDelete. rewrite slDelete_for_walk, Hrun, bind_Ok. cbv zeta.
  rewrite update_lookup by lia. cbn [default from_option]. unfold id.
  rewrite (rep_pred_rest _ _ _ _ _ Hrep) by lia. rewrite bind_Ok.
  rewrite (rep_nxt_zero _ _ _ _ Hrep).
  destruct R as [|b R]; cbn [fmap list_fmap head].
  { exists m, sl, 0, (A ++ []). unchanged. }
  rewrite (nodes_at_load _ _ _ _ _ (rep_nodes _ _ _ Hrep)), bind_Ok.
  cbn [score obj node_of nonnull].
  destruct (_ =? 0) eqn:Hcmp; [|exists m, sl, 0, (A ++ b :: R); unchanged].
  rewrite bind_Ok.
  destruct (equalStringObjects _ _) eqn:Heq;
    [|exists m, sl, 0, (A ++ b :: R); unchanged].
  destruct (slDeleteNode_spec m sl A b R
              ((λ j, pred_at j (sl_header sl) A) <$> seq 0 (Z.to_nat (sl_level sl)))
              Hrep) as (m1 & sl1 & Hdel & Hrep1 & _).
  { intros j Hj. by apply update_lookup. }
  { done. }
  rewrite Hdel, bind_Ok.
  exists (slFreeNode m1 (addr b)), sl1, 1, (A ++ R).
  split; [done|]. split; [done|]. split; [|split].
  - rewrite !length_app. cbn. lia.
  - intros Hfr. apply slFreeNode_fresh. by apply (slDeleteNode_fresh _ _ _ _ _ _ Hdel).
  - right. split; [done|]. exists A, b, R. apply Z.eqb_eq in Hcmp.
    do 4 (split; [done|]). cbn. apply lookup_delete_eq.
Qed.

(** The loop of [slDeleteScore] keeps a well-formed list well-formed: it
    takes out the nodes [B] it finds equal to the score, one after the
    other, stops at the first that is not, and counts them in [int]. *)
Lemma slDeleteScore_loop_rep s update :
  ∀ R fuel m sl A deleted,
    rep m sl (A ++ R) →
    (∀ j, (j < Z.to_nat (sl_level sl))%nat →
          update !! j = Some (pred_at j (sl_header sl) A)) →
    (length R < fuel)%nat →
    Z.of_nat (length (A ++ R)) < 2 ^ 64 →
    - 2 ^ 31 <= deleted < 2 ^ 31 →
    ∃ m' sl' B R',
      R = B ++ R'
      ∧ slDeleteScore_loop fuel m sl s update (head (addr <$> R)) deleted
        = Ok (m', sl', int_of (deleted + Z.of_nat (length B)))
      ∧ rep m' sl' (A ++ R')
      ∧ Forall (λ b, same s b = true) B
      ∧ (∀ c, head R' = Some c → same s c = false)
      ∧ (fresh m → fresh m').
Proof.
  induction R as [|b R IH];
    intros fuel m sl A deleted Hrep Hupdate Hfuel Hsmall Hd.
  - destruct fuel as [|fuel]; [cbn in Hfuel; lia|].
    exists m, sl, [], []. cbn [length]. rewrite Z.add_0_r, int_of_small by done.
    split; [done|]. split; [done|]. split; [done|]. split; [constructor|].
    by split.
  - destruct fuel as [|fuel]; [cbn in Hfuel; lia|].
    cbn [fmap list_fmap head slDeleteScore_loop].
    rewrite (nodes_at_load _ _ _ _ _ (rep_nodes _ _ _ Hrep)), bind_Ok.
    cbn [score node_of].
    destruct (_ =? 0) eqn:Hsame.
    2:{ exists m, sl, [], (b :: R). cbn [length].
        rewrite Z.add_0_r, int_of_small by done.
        split; [done|]. split; [done|]. split; [done|]. split; [constructor|].
        split; [|done]. by intros c [= <-]. }
    pose proof (rep_heights _ _ _ Hrep) as Hh.
    apply Forall_app in Hh as [_ [[Hhb _] _]%Forall_cons].
    fold (node_of (prev_of None A) b R).
    rewrite forward_at_node_of by lia. rewrite bind_Ok.
    destruct (slDeleteNode_spec m sl A b R update Hrep Hupdate Hsmall)
      as (m1 & sl1 & Hdel & Hrep1 & Hhdr1 & Hlvl1).
    rewrite Hdel, bind_Ok. rewrite (rep_nxt_zero _ _ A R Hrep1).
    destruct (IH fuel (slFreeNode m1 (addr b)) sl1 A (int_of (deleted + 1)))
      as (m' & sl' & B & R' & -> & Hloop & Hrep' & HB & Hhead & Hfr); try done.
    + intros j Hj. rewrite Hhdr1. apply Hupdate. lia.
    + cbn in Hfuel. lia.
    + rewrite !length_app in *. cbn [length] in *. lia.
    + apply int_of_range.
    + exists m', sl', (b :: B), R'. split; [done|]. split.
      { rewrite Hloop. do 2 f_equal. rewrite int_of_add_l. f_equal.
        cbn [length]. lia. }
      split; [done|]. split; [by constructor|]. split; [done|].
      intros Hfr0. apply Hfr, slFreeNode_fresh.
      by apply (slDeleteNode_fresh _ _ _ _ _ _ Hdel).
Qed.

(** [slDeleteScore] keeps a well-formed list well-formed: after the nodes
    [A] that the walk passes, it takes out the run [B] of nodes equal to
    the score and returns their number. *)
Lemma slDeleteScore_rep m sl s l :
  rep m sl l → Z.of_nat (length l) < 2 ^ 64 →
  ∃ m' sl' A B R,
    l = A ++ B ++ R
    ∧ slDeleteScore m sl s = Ok (m', sl', int_of (Z.of_nat (length B)))
    ∧ rep m' sl' (A ++ R)
    ∧ Forall (λ b, same s b = true) B
    ∧ (∀ c, head R = Some c → same s c = false)
    ∧ (∀ j, blocked (below s) j (B ++ R))
    ∧ (fresh m → fresh m').
Proof.
  intros Hrep Hsmall.
  pose proof (rep_level _ _ _ Hrep) as Hlvl. unfold SKIPLIST_MAXLEVEL in Hlvl.
  destruct (walk_for_rep (slDeleteScore_test s) (below s) m sl l
              (slDeleteScore_test_node s) Hrep) as (A & R & -> & Hrun & Hblk).
  unfold slDeleteScore. rewrite slDeleteScore_for_walk, Hrun, bind_Ok. cbv zeta.
  rewrite update_lookup by lia. cbn [default from_option]. unfold id.
  rewrite (rep_pred_rest _ _ _ _ _ Hrep) by lia. rewrite bind_Ok.
  rewrite (rep_nxt_zero _ _ _ _ Hrep).
  destruct (slDeleteScore_loop_rep s
              ((λ j, pred_at j (sl_header sl) A) <$> seq 0 (Z.to_nat (sl_level sl)))
              R (fuel_of m) m sl A 0 Hrep)
    as (m' & sl' & B & R' & -> & Hloop & Hrep' & HB & Hhead & Hfr); try done.
  - intros j Hj. by apply update_lookup.
  - pose proof (rep_fuel _ _ _ Hrep) as Hf. rewrite length_app in Hf.
    unfold fuel_of. lia.
  - exists m', sl', A, B, R'. do 6 (split; [done|]). done.
Qed.

End DeleteKeeps.

(** ** Inserting keeps the list well-formed *)

Section Link.
Context (m : memory) (sl : skiplist) (A : list item) (new : item) (R : list item).
Context (update : list ptr).
Hypothesis Hrep : rep m sl (A ++ R).
Hypothesis Hnew : cells m !! addr new = None.
Hypothesis Hupdate :
  ∀ j, (j < height new)%nat → update !! j = Some (pred_at j (sl_header sl) A).
Hypothesis Hheight : (height new ≤ Z.to_nat SKIPLIST_MAXLEVEL)%nat.

Local Abbreviation hdr := (sl_header sl).

Lemma link_group z : z ∈ hdr :: (addr <$> A) → is_Some (cells m !! z).
Proof using All.
  rewrite elem_of_cons. intros [->|Hz].
  - rewrite (rep_header _ _ _ Hrep). by eexists.
  - apply list_elem_of_fmap in Hz as (a & -> & Ha).
    apply list_elem_of_split in Ha as (A1 & A2 & HA).
    pose proof (rep_nodes _ _ _ Hrep) as Hn. rewrite HA in Hn.
    rewrite <- app_assoc in Hn. cbn [app] in Hn.
    apply nodes_at_split in Hn as [-> _]. by eexists.
Qed.

Lemma link_new_apart : addr new ∉ hdr :: (addr <$> A).
Proof using All.
  intros Hz. destruct (link_group _ Hz) as [n Hn]. congruence.
Qed.

(** On any level the header has, the last node with that level before
    the place of insertion points at the first one after it. *)
Lemma link_pred j :
  (j < Z.to_nat SKIPLIST_MAXLEVEL)%nat →
  fwd m (pred_at j hdr A) j = Ok (nxt j R).
Proof using All.
  intros Hj.
  destruct (pred_at_cases j hdr A) as [[-> Hl]|(A1 & a & A2 & HA & -> & Hi & Hl)].
  - rewrite (fwd_node _ _ _ _ (rep_header _ _ _ Hrep)).
    rewrite forward_at_tower by exact Hj. by rewrite nxt_app_low.
  - pose proof (rep_nodes _ _ _ Hrep) as Hn. rewrite HA in Hn.
    rewrite <- app_assoc in Hn. cbn [app] in Hn.
    apply nodes_at_split in Hn as [Hcell _].
    rewrite (fwd_node _ _ _ _ Hcell).
    rewrite forward_at_node_of by exact Hi. by rewrite nxt_app_low.
Qed.

Lemma linked_start :
  linked (cells m) hdr A new R 0
    (<[addr new := mkNode (Some (iscore new)) (Some (iobj new)) None
                          (replicate (height new) None)]> (cells m)).
Proof using All.
  split; [|split].
  - intros z Hz. rewrite lookup_insert_ne; [done|].
    intros <-. apply Hz. left.
  - intros z n Hz Hn. exists (forward n).
    rewrite lookup_insert_ne.
    + split; [by destruct n|]. split; [done|]. intros j.
      destruct (decide (_ ∧ _)) as [[? _]|_]; [lia|done].
    + intros <-. by apply link_new_apart.
  - eexists. rewrite lookup_insert_eq. split; [done|].
    split; [by rewrite length_replicate|]. intros j.
    destruct (decide (j < 0)%nat); [lia|].
    destruct (decide (j < height new)%nat).
    + by apply lookup_replicate_2.
    + apply lookup_ge_None_2. rewrite length_replicate. lia.
Qed.

(** One level of the loop that links the new node in. *)
Lemma linked_step k m' :
  (k < height new)%nat → linked (cells m) hdr A new R k (cells m') →
  ∃ m'', (u ← update_at update k;
          f ← fwd m' u k;
          m1 ← set_forward m' (addr new) k f;
          set_forward m1 u k (Some (addr new))) = Ok m''
         ∧ linked (cells m) hdr A new R (S k) (cells m'')
         ∧ brk m'' = brk m'.
Proof using All.
  intros Hk (L1 & L2 & tx & Hx & Hlx & Hsx).
  unfold update_at. rewrite (Hupdate k Hk), bind_Ok.
  set (u := pred_at k hdr A).
  assert (Hu : u ∈ hdr :: (addr <$> A)).
  { destruct (pred_at_elem k hdr A) as [H|H]; rewrite elem_of_cons; auto. }
  assert (Hux : u ≠ addr new).
  { intros Heq. apply link_new_apart. by rewrite <- Heq. }
  destruct (link_group u Hu) as [n Hn].
  destruct (L2 u n Hu Hn) as (t & Ht & Hlen & Hslots).
  pose proof (link_pred k ltac:(lia)) as Hf. fold u in Hf.
  rewrite (fwd_node _ _ _ _ Hn) in Hf. unfold forward_at in Hf.
  destruct (forward n !! k) as [fk|] eqn:Hfk; [|done].
  injection Hf as ->.
  assert (Htk : t !! k = Some (nxt k R)).
  { rewrite Hslots. destruct (decide (_ ∧ _)) as [[? _]|_]; [lia|done]. }
  rewrite (fwd_node _ _ _ _ Ht). unfold forward_at at 1. cbn [forward].
  rewrite Htk, bind_Ok.
  unfold set_forward at 2. unfold load. rewrite Hx, bind_Ok. cbn [forward score obj backward].
  destruct (decide (k < length tx)%nat); [|lia]. rewrite bind_Ok.
  unfold set_forward, load. cbn [cells store].
  rewrite lookup_insert_ne by done. rewrite Ht, bind_Ok.
  cbn [forward score obj backward].
  pose proof (lookup_lt_Some _ _ _ Htk) as Hlt.
  destruct (decide (k < length t)%nat); [|lia].
  eexists. split; [done|]. split; [|done].
  split; [|split]; cbn [cells store].
  - intros z Hz. rewrite !lookup_insert_ne; [by apply L1| |].
    + intros <-. apply Hz. left.
    + intros <-. apply Hz. by right.
  - intros z n0 Hz Hn0. destruct (decide (z = u)) as [->|Hzu].
    + rewrite lookup_insert_eq. rewrite Hn in Hn0. injection Hn0 as <-.
      eexists. split; [done|]. split; [by rewrite length_insert|].
      intros j. destruct (decide (j = k)) as [->|Hjk].
      * rewrite list_lookup_insert_eq by done.
        destruct (decide (_ ∧ _)) as [_|Hc]; [done|]. destruct Hc. split; [lia|done].
      * rewrite list_lookup_insert_ne by done. rewrite Hslots.
        destruct (decide (_ ∧ _)) as [[? ?]|Hc];
          destruct (decide (_ ∧ _)) as [[? ?]|Hc']; try done.
        -- destruct Hc'. split; [lia|done].
        -- destruct Hc. split; [lia|done].
    + rewrite lookup_insert_ne by done.
      assert (Hzx : z ≠ addr new).
      { intros Heq. apply link_new_apart. by rewrite <- Heq. }
      rewrite lookup_insert_ne by done.
      destruct (L2 z n0 Hz Hn0) as (t0 & Ht0 & Hlen0 & Hslots0).
      exists t0. split; [done|]. split; [done|]. intros j. rewrite Hslots0.
      destruct (decide (_ ∧ _)) as [[? ?]|Hc];
        destruct (decide (_ ∧ _)) as [[? Hz']|Hc']; try done.
      * destruct Hc'. split; [lia|done].
      * destruct Hc. split; [|done].
        destruct (decide (j = k)) as [->|]; [by destruct Hzu|lia].
  - rewrite lookup_insert_ne by done. rewrite lookup_insert_eq.
    eexists. split; [done|]. split; [by rewrite length_insert|].
    intros j. destruct (decide (j = k)) as [->|Hjk].
    + rewrite list_lookup_insert_eq by lia.
      destruct (decide (k < S k)%nat); [done|lia].
    + rewrite list_lookup_insert_ne by done. rewrite Hsx.
      destruct (decide (j < k)%nat); destruct (decide (j < S k)%nat); try done; lia.
Qed.

Lemma slInsert_link_spec n :
  ∀ k m', (k + n ≤ height new)%nat → linked (cells m) hdr A new R k (cells m') →
    ∃ m'', slInsert_link m' (addr new) update (seq k n) = Ok m''
           ∧ linked (cells m) hdr A new R (k + n) (cells m'')
           ∧ brk m'' = brk m'.
Proof using All.
  induction n as [|n IH]; intros k m' Hk Hl.
  - exists m'. rewrite Nat.add_0_r. split; [done|]. by split.
  - cbn [seq slInsert_link].
    destruct (linked_step k m') as (m1 & Hrun & Hl1 & Hbrk1); [lia|done|].
    destruct (IH (S k) m1) as (m2 & Hrun2 & Hl2 & Hbrk2); [lia|done|].
    exists m2. split; [|split].
    + revert Hrun. unfold update_at.
      destruct (update !! k) as [u|]; [|done]. rewrite !bind_Ok.
      destruct (fwd m' u k) as [f|]; [|done]. rewrite !bind_Ok.
      destruct (set_forward m' (addr new) k f) as [m3|]; [|done]. rewrite !bind_Ok.
      intros ->. by rewrite bind_Ok.
    + by replace (k + S n)%nat with (S k + n)%nat by lia.
    + congruence.
Qed.

End Link.

Section LinkedTowers.
Context (m : memory) (sl : skiplist) (A : list item) (new : item) (R : list item).
Hypothesis Hrep : rep m sl (A ++ R).
Hypothesis Hnew : cells m !! addr new = None.

Local Abbreviation hdr := (sl_header sl).

Lemma linked_tower (z : ptr) (A2 : list item) (hz : nat) (t old : list (option ptr)) :
  old = tower hz (A2 ++ R) →
  length t = hz →
  (∀ j, t !! j =
        if decide ((j < height new)%nat ∧ z = pred_at j hdr A)
        then Some (Some (addr new)) else old !! j) →
  (∀ j, (j < hz)%nat → Forall (low j) A2 → pred_at j hdr A = z) →
  (∀ j, ¬ Forall (low j) A2 → pred_at j hdr A ≠ z) →
  t = tower hz (A2 ++ new :: R).
Proof using Type.
  intros -> Hlen Hslots Hlast Hnot. apply list_eq. intros j.
  destruct (decide (j < hz)%nat) as [Hj|Hj].
  - rewrite Hslots, !tower_lookup by done.
    destruct (decide (Forall (low j) A2)) as [Hlow|Hhigh].
    + rewrite !nxt_app_low by done. cbn [nxt].
      destruct (decide (j < height new)%nat) as [Hh|Hh].
      * destruct (decide (_ ∧ _)) as [_|Hc]; [done|].
        destruct Hc. split; [done|]. symmetry. by apply Hlast.
      * destruct (decide (_ ∧ _)) as [[? _]|_]; [lia|done].
    + destruct (decide (_ ∧ _)) as [[_ Hz]|_].
      * by destruct (Hnot j Hhigh).
      * f_equal. by apply nxt_app_high.
  - rewrite !lookup_ge_None_2; [done| |]; rewrite ?tower_length; lia.
Qed.

Lemma linked_header cs' :
  linked (cells m) hdr A new R (height new) cs' →
  cs' !! hdr
  = Some (mkNode None None None (tower (Z.to_nat SKIPLIST_MAXLEVEL) (A ++ new :: R))).
Proof using Hrep.
  intros (_ & L2 & _).
  destruct (L2 hdr _ ltac:(left) (rep_header _ _ _ Hrep)) as (t & -> & Hlen & Hslots).
  cbn [score obj backward forward] in *. rewrite tower_length in Hlen.
  pose proof (rep_nodup _ _ _ Hrep) as Hnd.
  apply NoDup_cons in Hnd as [Hh _]. rewrite fmap_app, elem_of_app in Hh.
  do 2 f_equal.
  eapply (linked_tower hdr A); [done|done|exact Hslots| |].
  - intros j _ Hl. by apply pred_at_low.
  - intros j Hl%(pred_at_high j hdr) Heq. rewrite Heq in Hl. auto.
Qed.

Lemma linked_node cs' A1 a A2 :
  linked (cells m) hdr A new R (height new) cs' →
  A = A1 ++ a :: A2 →
  cs' !! addr a = Some (node_of (prev_of None A1) a (A2 ++ new :: R)).
Proof using Hrep.
  intros (_ & L2 & _) HA.
  pose proof (rep_nodes _ _ _ Hrep) as Hn. rewrite HA in Hn.
  rewrite <- app_assoc in Hn. cbn [app] in Hn.
  apply nodes_at_split in Hn as [Hcell _].
  assert (Ha : addr a ∈ hdr :: (addr <$> A)).
  { rewrite HA, fmap_app, fmap_cons, elem_of_cons, elem_of_app, elem_of_cons. auto. }
  destruct (L2 _ _ Ha Hcell) as (t & -> & Hlen & Hslots).
  cbn [score obj backward forward node_of] in *. rewrite tower_length in Hlen.
  pose proof (rep_nodup _ _ _ Hrep) as Hnd. rewrite HA in Hnd.
  rewrite <- app_assoc in Hnd. cbn [app] in Hnd.
  apply NoDup_cons in Hnd as [_ Hnd]. rewrite fmap_app, fmap_cons in Hnd.
  apply NoDup_app in Hnd as (_ & _ & [Ha2 _]%NoDup_cons).
  rewrite fmap_app, elem_of_app in Ha2.
  unfold node_of. do 2 f_equal.
  eapply (linked_tower (addr a) A2); [done|done|exact Hslots| |].
  - intros j Hj Hl. rewrite HA. by apply pred_at_split.
  - intros j Hl Heq. rewrite HA, pred_at_app in Heq. cbn [pred_at] in Heq.
    apply (pred_at_high j (if decide (j < height a)%nat then addr a
                           else pred_at j hdr A1)) in Hl.
    rewrite Heq in Hl. auto.
Qed.

Lemma linked_new cs' :
  linked (cells m) hdr A new R (height new) cs' →
  cs' !! addr new = Some (node_of None new R).
Proof using Type.
  intros (_ & _ & t & -> & Hlen & Hslots). unfold node_of. do 2 f_equal.
  apply list_eq. intros j. rewrite Hslots.
  destruct (decide (j < height new)%nat).
  - by rewrite tower_lookup.
  - symmetry. apply lookup_ge_None_2. rewrite tower_length. lia.
Qed.

End LinkedTowers.

Section InsertKeeps.
Implicit Types (l A R : list item) (m : memory) (sl : skiplist) (s o : robj).

Lemma slRandomLevel_while_range (rs : list Z) :
  ∀ level level' rs',
    slRandomLevel_while rs level = Ok (level', rs') →
    level + Z.of_nat (length rs) < 2 ^ 31 → - 2 ^ 31 <= level →
    level <= level' ∧ (length rs' < length rs)%nat.
Proof.
  induction rs as [|r rs IH]; intros level level' rs'; [done|].
  cbn [slRandomLevel_while length]. destruct (_ <? _).
  - intros Hrun Hb Hl. rewrite int_of_small in Hrun by lia.
    destruct (IH _ _ _ Hrun) as [? ?]; lia.
  - intros [= <- <-] _ _. split; [lia|]. lia.
Qed.

Lemma slRandomLevel_range (rs : list Z) (level : Z) (rs' : list Z) :
  slRandomLevel rs = Ok (level, rs') →
  Z.of_nat (length rs) < 2 ^ 31 - 1 →
  1 <= level <= SKIPLIST_MAXLEVEL ∧ (length rs' < length rs)%nat.
Proof.
  unfold slRandomLevel.
  destruct (slRandomLevel_while rs 1) as [[l0 rs0]|] eqn:Hrun; [|done].
  cbn. intros [= <- <-] Hb.
  destruct (slRandomLevel_while_range _ _ _ _ Hrun) as [? ?]; [lia|lia|].
  unfold SKIPLIST_MAXLEVEL. destruct (Z.ltb_spec l0 32); lia.
Qed.

Lemma slInsert_link_fresh (x : ptr) (update : list ptr) (lvls : list nat) :
  ∀ m m', slInsert_link m x update lvls = Ok m' → fresh m → fresh m'.
Proof.
  induction lvls as [|i lvls IH]; intros m m'; cbn [slInsert_link].
  - by intros [= <-].
  - destruct (update_at update i) as [u|]; cbn; [|done].
    destruct (fwd m u i) as [f|]; cbn; [|done].
    destruct (set_forward m x i f) as [m1|] eqn:H1; cbn; [|done].
    destruct (set_forward m1 u i (Some x)) as [m2|] eqn:H2; cbn; [|done].
    intros Hrun Hfr. apply (IH _ _ Hrun).
    apply (set_forward_fresh _ _ _ _ _ H2), (set_forward_fresh _ _ _ _ _ H1 Hfr).
Qed.

Lemma slCreateNode_fresh m level (s o : option robj) :
  fresh m → fresh (slCreateNode m level s o).1.
Proof.
  intros Hfr z. cbn. destruct (decide (z = brk m)) as [->|Hz]; [lia|].
  rewrite lookup_insert_ne by done. intros H%Hfr. lia.
Qed.

Lemma fresh_brk m : fresh m → cells m !! brk m = None.
Proof.
  intros Hfr. destruct (cells m !! brk m) as [n|] eqn:Hn; [|done].
  assert (brk m < brk m)%nat by (apply Hfr; by exists n). lia.
Qed.

(** The node before the new one, as [slInsert] computes it from
    [update[0]]. *)
Lemma pred_at_zero_prev (hdr : ptr) A :
  hdr ∉ addr <$> A → Forall (λ a, (1 ≤ height a)%nat) A →
  (if decide (pred_at 0 hdr A = hdr) then None else Some (pred_at 0 hdr A))
  = prev_of None A.
Proof.
  intros Hh HA. destruct A as [|a A _] using rev_ind.
  - cbn. by destruct (decide (hdr = hdr)).
  - apply Forall_app in HA as [_ [Ha _]%Forall_cons].
    rewrite pred_at_split by (done || constructor). rewrite prev_of_snoc.
    destruct (decide (addr a = hdr)) as [Heq|]; [|done].
    destruct Hh. rewrite fmap_app, elem_of_app. right. rewrite <- Heq. left.
Qed.

Lemma nodup_insert (hdr : ptr) A (new : item) R :
  NoDup (hdr :: (addr <$> (A ++ R))) →
  addr new ∉ hdr :: (addr <$> (A ++ R)) →
  NoDup (hdr :: (addr <$> (A ++ new :: R))).
Proof.
  rewrite !fmap_app, fmap_cons.
  intros [Hh Hn]%NoDup_cons Hx. rewrite elem_of_cons, elem_of_app in Hx.
  apply NoDup_app in Hn as (HA & HAR & HR). rewrite elem_of_app in Hh.
  apply NoDup_cons. split.
  - rewrite elem_of_app, elem_of_cons. intros [?|[->|?]]; auto.
  - apply NoDup_app. split; [done|]. split.
    + intros z Hz. rewrite elem_of_cons. intros [->|Hz']; [auto|].
      by apply (HAR z).
    + apply NoDup_cons. split; [auto|done].
Qed.

Lemma rep_allocated m sl l z :
  rep m sl l → z ∈ sl_header sl :: (addr <$> l) → is_Some (cells m !! z).
Proof.
  intros Hrep. rewrite elem_of_cons. intros [->|Hz].
  - rewrite (rep_header _ _ _ Hrep). by eexists.
  - apply list_elem_of_fmap in Hz as (a & -> & Ha).
    apply list_elem_of_split in Ha as (A1 & A2 & HA).
    pose proof (rep_nodes _ _ _ Hrep) as Hn. rewrite HA in Hn.
    apply nodes_at_split in Hn as [-> _]. by eexists.
Qed.

Lemma set_backward_cell m x n b :
  cells m !! x = Some n →
  set_backward m x b = Ok (store m x (mkNode (score n) (obj n) b (forward n))).
Proof. intros H. unfold set_backward, load. by rewrite H. Qed.

(** [slInsert] from the creation of the node on, given the slots the walk
    left in [update]. *)
Lemma slInsert_tail rs' m sl A R s o level update sllevel :
  rep m sl (A ++ R) → fresh m →
  Z.of_nat (length (A ++ R)) + 1 < 2 ^ 64 →
  1 <= level <= SKIPLIST_MAXLEVEL →
  (∀ j, (j < Z.to_nat level)%nat →
        update !! j = Some (pred_at j (sl_header sl) A)) →
  sllevel = Z.max (sl_level sl) level →
  ∃ m' sl',
    ((let '(m0, x) := slCreateNode m level (Some s) (Some o) in
     m1 ← slInsert_link m0 x update (seq 0 (Z.to_nat level));
     u0 ← update_at update 0;
     m2 ← set_backward m1 x (if decide (u0 = sl_header sl) then None else Some u0);
     f0 ← fwd m2 x 0;
     '(m3, tail) ← match f0 with
                   | Some y => m' ← set_backward m2 y (Some x); Ok (m', sl_tail sl)
                   | None => Ok (m2, Some x)
                   end;
     Ok (rs', m3, mkSkiplist (sl_header sl) tail (ulong_of (sl_length sl + 1)) sllevel, x))
     : result (list Z * memory * skiplist * ptr))
    = Ok (rs', m', sl', brk m)
    ∧ rep m' sl' (A ++ mkItem (brk m) s o (Z.to_nat level) :: R)
    ∧ fresh m'.
Proof.
  intros Hrep Hfr Hsmall Hlevel Hupdate ->.
  set (new := mkItem (brk m) s o (Z.to_nat level)).
  pose proof (fresh_brk _ Hfr) as Hnew.
  assert (Hh : (height new ≤ Z.to_nat SKIPLIST_MAXLEVEL)%nat) by (cbn; lia).
  assert (Hx : addr new ∉ sl_header sl :: (addr <$> (A ++ R))).
  { intros [n Hn]%(rep_allocated _ _ _ _ Hrep). cbn in Hn. congruence. }
  pose proof (rep_nodup _ _ _ Hrep) as Hnd.
  pose proof (nodup_insert _ _ new _ Hnd Hx) as Hnd'.
  cbn [slCreateNode]. cbv zeta. 
  destruct (slInsert_link_spec m sl A new R update Hrep Hnew Hupdate Hh
              (Z.to_nat level) 0
              (mkMemory (<[brk m := mkNode (Some s) (Some o) None
                                      (replicate (Z.to_nat level) None)]> (cells m))
                        (S (brk m))))
    as (m1 & Hrun & Hl & Hbrk).
  { cbn. lia. }
  { apply (linked_start m sl A new R update Hrep Hnew Hupdate Hh). }
  cbn [addr new] in Hrun. fold new in Hrun. rewrite Hrun, bind_Ok.
  unfold update_at. rewrite Hupdate by lia. rewrite bind_Ok.
  change (0 + Z.to_nat level)%nat with (height new) in Hl. cbn [brk] in Hbrk.
  pose proof (rep_heights _ _ _ Hrep) as Hhs.
  apply Forall_app in Hhs as [HhA HhR].
  rewrite pred_at_zero_prev; cycle 1.
  { apply NoDup_cons in Hnd as [Hnd _]. rewrite fmap_app, elem_of_app in Hnd. auto. }
  { eapply Forall_impl; [exact HhA|]. by intros a [? _]. }
  pose proof (linked_new m sl A new R _ Hl) as Hcell.
  pose proof (linked_header m sl A new R Hrep _ Hl) as Hhdr.
  pose proof (λ A1 a A2, linked_node m sl A new R Hrep (cells m1) A1 a A2 Hl) as Hnode.
  destruct Hl as (Hout & _ & _).
  cbn [addr new] in Hcell. rewrite (set_backward_cell _ _ _ _ Hcell).
  rewrite !bind_Ok. cbn [score obj forward node_of].
  change (mkNode (Some (iscore new)) (Some (iobj new)) (prev_of None A)
            (tower (height new) R)) with (node_of (prev_of None A) new R).
  set (m2 := store m1 (brk m) (node_of (prev_of None A) new R)).
  assert (Hcell2 : cells m2 !! brk m = Some (node_of (prev_of None A) new R))
    by apply lookup_insert_eq.
  rewrite (fwd_node _ _ _ _ Hcell2), forward_at_node_of by (cbn; lia).
  rewrite bind_Ok.
  assert (Hlen : ulong_of (sl_length sl + 1) = Z.of_nat (length (A ++ new :: R))).
  { rewrite (rep_length _ _ _ Hrep). unfold ulong_of.
    rewrite !length_app in *. cbn [length]. rewrite Z.mod_small; lia. }
  assert (Hlvl : 1 <= sl_level sl `max` level <= SKIPLIST_MAXLEVEL).
  { pose proof (rep_level _ _ _ Hrep). lia. }
  assert (Hhs : Forall (λ a, (1 ≤ height a)%nat
                             ∧ Z.of_nat (height a) <= sl_level sl `max` level)
                  (A ++ new :: R)).
  { apply Forall_app. split; [|apply Forall_cons; split].
    - eapply Forall_impl; [exact HhA|]. intros a [? ?]. lia.
    - cbn. lia.
    - eapply Forall_impl; [exact HhR|]. intros a [? ?]. lia. }
  assert (Hfr2 : fresh m2).
  { intros z. cbn. destruct (decide (z = brk m)) as [->|Hz]; [lia|].
    rewrite lookup_insert_ne by done. rewrite Hbrk.
    destruct (decide (z ∈ sl_header sl :: (addr <$> A))) as [Hin|Hin].
    - intros _. apply Nat.lt_lt_succ_r, Hfr, (rep_allocated _ _ _ _ Hrep).
      revert Hin. rewrite fmap_app, !elem_of_cons, elem_of_app. tauto.
    - rewrite Hout; [intros ?%Hfr; lia|].
      rewrite elem_of_cons. cbn. tauto. }
  pose proof Hnd' as Hap. rewrite fmap_app, fmap_cons in Hap.
  apply NoDup_cons in Hap as [HhdrA Hap].
  rewrite elem_of_app, elem_of_cons in HhdrA.
  apply NoDup_app in Hap as (_ & HAR & [HxR HndR]%NoDup_cons).
  cbn [addr new] in HhdrA, HAR, HxR.
  assert (HxA : ∀ A1 a A2, A = A1 ++ a :: A2 → addr a ≠ brk m).
  { intros A1 a A2 -> Heq. apply (HAR (addr a)); [|rewrite Heq; left].
    rewrite fmap_app, fmap_cons, elem_of_app, elem_of_cons. auto. }
  destruct R as [|r R].
  - cbn [nxt]. rewrite bind_Ok. eexists _, _. split; [done|]. split; [|done].
    split; cbn [sl_header sl_tail sl_length sl_level]; try done.
    + cbn. rewrite lookup_insert_ne by (intros Heq; apply HhdrA; auto). done.
    + apply nodes_at_app_intro; [|by split].
      intros A1 a A2 HA. cbn.
      rewrite lookup_insert_ne by (intros Heq; by apply (HxA _ _ _ HA)).
      by apply Hnode.
    + by rewrite fmap_app, last_app.
  - apply Forall_cons in HhR as [[Hr1 _] _].
    cbn [nxt]. destruct (decide (0 < height r)%nat) as [_|?]; [|lia].
    rewrite fmap_cons, not_elem_of_cons in HxR. destruct HxR as [Hxr HxR].
    rewrite fmap_cons in HndR. apply NoDup_cons in HndR as [HrR _].
    assert (HrA : addr r ∉ brk m :: sl_header sl :: (addr <$> A)).
    { rewrite !elem_of_cons. intros [?|[Heq|Hin]]; [done| |].
      - apply HhdrA. rewrite <- Heq, fmap_cons, elem_of_cons. auto.
      - apply (HAR _ Hin). rewrite fmap_cons, !elem_of_cons. auto. }
    pose proof (rep_nodes _ _ _ Hrep) as Hn.
    apply nodes_at_split in Hn as [Hr HR].
    assert (Hcellr : cells m2 !! addr r = Some (node_of (prev_of None A) r R)).
    { cbn. rewrite lookup_insert_ne by done. by rewrite Hout. }
    rewrite (set_backward_cell _ _ _ _ Hcellr), !bind_Ok.
    cbn [score obj forward node_of].
    change (mkNode (Some (iscore r)) (Some (iobj r)) (Some (brk m))
              (tower (height r) R)) with (node_of (Some (addr new)) r R).
    eexists _, _. split; [done|]. split.
    + split; cbn [sl_header sl_tail sl_length sl_level]; try done.
      * cbn. rewrite !lookup_insert_ne; [done|..];
          intros Heq; apply HhdrA; rewrite <- Heq, ?fmap_cons, ?elem_of_cons; auto.
      * apply nodes_at_app_intro.
        -- intros A1 a A2 HA. cbn.
           rewrite !lookup_insert_ne; [by apply Hnode| |].
           ++ intros Heq. by apply (HxA _ _ _ HA).
           ++ intros Heq. apply (HAR (addr a)).
              ** rewrite HA, fmap_app, fmap_cons, elem_of_app, elem_of_cons. auto.
              ** rewrite <- Heq, fmap_cons, !elem_of_cons. auto.
        -- split; [|split].
           ++ cbn. by rewrite lookup_insert_ne, lookup_insert_eq.
           ++ cbn. by rewrite lookup_insert_eq.
           ++ eapply nodes_at_agree; [|exact HR]. intros z Hz. cbn.
              rewrite !lookup_insert_ne; [apply Hout| |].
              ** rewrite !elem_of_cons. intros [->|[->|Hin]]; [done| |].
                 --- apply HhdrA. rewrite fmap_cons, elem_of_cons. auto.
                 --- apply (HAR _ Hin). rewrite fmap_cons, !elem_of_cons. auto.
              ** by intros <-.
              ** by intros <-.
      * rewrite (rep_tail _ _ _ Hrep). symmetry. by apply last_addr_app_cons.
    + intros z. cbn. destruct (decide (z = addr r)) as [->|Hz].
      * intros _. apply Hfr2. eexists. exact Hcellr.
      * rewrite (lookup_insert_ne _ (addr r)) by done. apply Hfr2.
Qed.

(** [slInsert] keeps a well-formed list well-formed: the new node stands
    where the walk stopped, and its address is the one the allocator
    hands out. *)
Lemma slInsert_rep rs m sl s o l level rs' :
  rep m sl l → fresh m →
  Z.of_nat (length l) + 1 < 2 ^ 64 →
  Z.of_nat (length rs) < 2 ^ 31 - 1 →
  slRandomLevel rs = Ok (level, rs') →
  ∃ m' sl' A R,
    l = A ++ R
    ∧ slInsert rs m sl s o = Ok (rs', m', sl', brk m)
    ∧ rep m' sl' (A ++ mkItem (brk m) s o (Z.to_nat level) :: R)
    ∧ fresh m'
    ∧ ∀ j, blocked (insert_passes s o) j R.
Proof.
  intros Hrep Hfr Hsmall Hrs Hrand.
  destruct (slRandomLevel_range _ _ _ Hrand Hrs) as [Hlevel _].
  pose proof (rep_level _ _ _ Hrep) as Hlvl. unfold SKIPLIST_MAXLEVEL in Hlvl.
  destruct (walk_for_rep (slInsert_test s o) (insert_passes s o) m sl l
              (slInsert_test_node s o) Hrep) as (A & R & -> & Hrun & Hblk).
  unfold slInsert. rewrite slInsert_for_walk, Hrun, bind_Ok, Hrand, bind_Ok.
  set (update := (λ j, pred_at j (sl_header sl) A) <$> seq 0 (Z.to_nat (sl_level sl))).
  destruct (slInsert_tail rs' m sl A R s o level
              (if sl_level sl <? level
               then update ++ replicate (Z.to_nat (level - sl_level sl)) (sl_header sl)
               else update)
              (Z.max (sl_level sl) level) Hrep Hfr Hsmall Hlevel)
    as (m' & sl' & Hins & Hrep' & Hfr'); [|done|].
  { intros j Hj. destruct (Z.ltb_spec (sl_level sl) level).
    - destruct (decide (j < Z.to_nat (sl_level sl))%nat) as [Hlt|Hge].
      + rewrite lookup_app_l by (unfold update; rewrite length_fmap, length_seq; lia).
        by apply update_lookup.
      + rewrite lookup_app_r by (unfold update; rewrite length_fmap, length_seq; lia).
        unfold update. rewrite length_fmap, length_seq.
        rewrite lookup_replicate_2 by lia. f_equal. symmetry. apply pred_at_low.
        pose proof (rep_heights _ _ _ Hrep) as [HhA _]%Forall_app.
        eapply Forall_impl; [exact HhA|]. intros a [_ Ha]. unfold low. lia.
    - apply update_lookup. lia. }
  exists m', sl', A, R. split; [done|]. split; [|done].
  rewrite <- Hins. destruct (Z.ltb_spec (sl_level sl) level).
  - by rewrite Z.max_r by lia.
  - by rewrite Z.max_l by lia.
Qed.

End InsertKeeps.

(** * The commands keep the key table well-formed *)

Section Commands.
Implicit Types (c : redisClient) (m : memory) (sl : skiplist) (l : list item).

Lemma stops_le (rs : list Z) : (stops rs ≤ length rs)%nat.
Proof. induction rs as [|r rs IH]; cbn; [lia|]. destruct (goes_up r); lia. Qed.

Lemma slRandomLevel_while_total (rs : list Z) :
  ∀ level, (0 < stops rs)%nat →
    ∃ level' rs', slRandomLevel_while rs level = Ok (level', rs')
                  ∧ stops rs' = pred (stops rs)
                  ∧ (length rs' < length rs)%nat.
Proof.
  induction rs as [|r rs IH]; intros level; cbn [stops slRandomLevel_while length].
  - lia.
  - fold (goes_up r). destruct (goes_up r).
    + intros Hs. destruct (IH (int_of (level + 1)) Hs) as (l' & rs' & -> & ? & ?).
      exists l', rs'. split; [done|]. split; [done|lia].
    + intros _. exists level, rs. split; [done|]. split; [done|lia].
Qed.

(** [slRandomLevel] returns as soon as the script holds a draw that ends
    its loop. *)
Lemma slRandomLevel_total (rs : list Z) :
  (0 < stops rs)%nat →
  ∃ level rs', slRandomLevel rs = Ok (level, rs')
               ∧ stops rs' = pred (stops rs)
               ∧ (length rs' < length rs)%nat.
Proof.
  intros Hs. unfold slRandomLevel.
  destruct (slRandomLevel_while_total rs 1 Hs) as (l' & rs' & -> & ? & ?).
  rewrite bind_Ok. by eexists _, _.
Qed.

(** The [for] of SLADD keeps the list well-formed and touches neither the
    key table nor the reply buffer; [added] grows as the list does, and
    the last pair is in the list at the end. *)
Lemma sladdCommand_for_rep (n : nat) :
  ∀ j c m sl added l,
    rep m sl l → fresh m →
    Z.of_nat (length l) + Z.of_nat n < 2 ^ 64 →
    Z.of_nat (length (random c)) < 2 ^ 31 - 1 →
    (n ≤ stops (random c))%nat →
    (2 + 2 * (j + n) ≤ length (argv c))%nat →
    0 <= added → added + Z.of_nat n < 2 ^ 31 →
    ∃ c' m' sl' l',
      sladdCommand_for n j c (SkiplistObject m sl) added
      = Ok (c', SkiplistObject m' sl',
            added + (Z.of_nat (length l') - Z.of_nat (length l)))
      ∧ rep m' sl' l' ∧ fresh m'
      ∧ db c' = db c ∧ reply c' = reply c ∧ events c' = events c
      ∧ dirty c' = dirty c + Z.of_nat n
      ∧ (length l ≤ length l' ≤ length l + n)%nat
      ∧ (n = 0%nat → l' = l)
      ∧ ∀ s o, (0 < n)%nat →
          argv c !! (2 + (j + n - 1) * 2)%nat = Some s →
          argv c !! (3 + (j + n - 1) * 2)%nat = Some o →
          ∃ a, a ∈ l' ∧ iscore a = tryObjectEncoding s
                      ∧ iobj a = tryObjectEncoding o.
Proof.
  induction n as [|n IH];
    intros j c m sl added l Hrep Hfr Hsmall Hrs Hst Hargs Ha0 Ha1.
  { exists c, m, sl, l. cbn [sladdCommand_for].
    replace (added + _) with added by lia.
    do 6 (split; [done|]). split; [cbn; lia|]. split; [lia|]. split; [done|].
    intros; lia. }
  cbn [sladdCommand_for]. unfold argv_at.
  destruct (lookup_lt_is_Some_2 (argv c) (2 + j * 2)%nat) as [a Ha]; [lia|].
  rewrite Ha, bind_Ok. cbv zeta. cbn [argv set_argv].
  destruct (lookup_lt_is_Some_2 (<[(2 + j * 2)%nat := tryObjectEncoding a]> (argv c))
              (3 + j * 2)%nat) as [b Hb]; [rewrite length_insert; lia|].
  rewrite Hb, bind_Ok. cbn [skiplist_of]. rewrite bind_Ok.
  destruct (slDelete_rep m sl (tryObjectEncoding a) (tryObjectEncoding b) l Hrep)
    as (m1 & sl1 & d & l1 & -> & Hrep1 & Hlen1 & Hfr1 & Hd); [lia|].
  rewrite bind_Ok. cbn [random set_argv].
  destruct (slRandomLevel_total (random c)) as (level & rs' & Hrand & Hst' & Hrs');
    [lia|].
  destruct (slInsert_rep (random c) m1 sl1 (tryObjectEncoding a) (tryObjectEncoding b)
              l1 level rs' Hrep1 (Hfr1 Hfr))
    as (m2 & sl2 & A & R & HAR & -> & Hrep2 & Hfr2 & _); [lia|lia|done|].
  rewrite bind_Ok.
  assert (Hd' : Z.of_nat (length l1) = Z.of_nat (length l) - d ∧ 0 <= d <= 1).
  { destruct Hd as [(-> & -> & _)|(-> & A0 & b0 & R0 & -> & -> & _)]; [lia|].
    rewrite !length_app. cbn [length]. lia. }
  rewrite (int_of_small (added - d)) by lia.
  rewrite (int_of_small (added - d + 1)) by lia.
  set (new := mkItem (brk m1) (tryObjectEncoding a) (tryObjectEncoding b) (Z.to_nat level)) in *.
  assert (Hlen2 : length (A ++ new :: R) = S (length l1)).
  { rewrite HAR, !length_app. cbn [length]. lia. }
  edestruct (IH (S j) (incr_dirty (set_random
               (set_argv (set_argv c (<[(2 + j * 2)%nat := tryObjectEncoding a]> (argv c)))
                  (<[(3 + j * 2)%nat := tryObjectEncoding b]>
                     (<[(2 + j * 2)%nat := tryObjectEncoding a]> (argv c)))) rs'))
               m2 sl2 (added - d + 1))
    as (c' & m' & sl' & l' & -> & Hrep' & Hfr' & Hdb & Hreply & Hev & Hdirty & Hlen' & Hsame & Hlast);
    [exact Hrep2|exact Hfr2|..].
  - rewrite Hlen2. lia.
  - cbn. lia.
  - cbn. lia.
  - cbn. rewrite !length_insert. lia.
  - lia.
  - lia.
  - exists c', m', sl', l'. split; [do 2 f_equal; rewrite Hlen2; lia|].
    do 5 (split; [done|]). split; [rewrite Hdirty; cbn; lia|].
    split; [rewrite Hlen2 in Hlen'; lia|]. split; [done|].
    intros s o _ Hs Ho. destruct n as [|n].
    + replace (j + 1 - 1)%nat with j in * by lia.
      rewrite (Hsame eq_refl). exists new.
      split; [rewrite elem_of_app, elem_of_cons; auto|].
      rewrite list_lookup_insert_ne in Hb by lia.
      split; cbn [iscore iobj new]; congruence.
    + apply Hlast; [lia| |]; cbn [argv incr_dirty set_random set_argv].
      * rewrite !list_lookup_insert_ne by lia.
        by replace (S j + S n - 1)%nat with (j + S (S n) - 1)%nat by lia.
      * rewrite !list_lookup_insert_ne by lia.
        by replace (S j + S n - 1)%nat with (j + S (S n) - 1)%nat by lia.
Qed.

Lemma wf_created : wf_entry createSkiplistObject.
Proof.
  split.
  - intros z [n Hn]. cbn in *. destruct (decide (z = 0%nat)) as [->|Hz]; [lia|].
    by rewrite lookup_insert_ne in Hn.
  - exists []. apply slCreate_rep.
Qed.

(** SLADD with an even number of words after the key, on a key that holds
    a well-formed list or nothing: it returns, binds the key to a
    well-formed list, replies by how much the list has grown, and the
    last pair given is in the list. *)
Lemma sladdCommand_spec (c : redisClient) (cmd key : robj) (pairs : list robj)
  (k : nat) (l : list item) :
  argv c = cmd :: key :: pairs →
  length pairs = (2 * k)%nat →
  list_of (lookupKey c key) l →
  Z.of_nat (length l) + Z.of_nat k < 2 ^ 64 →
  Z.of_nat (length (random c)) < 2 ^ 31 - 1 →
  (k ≤ stops (random c))%nat →
  ∃ c' m' sl' l',
    sladdCommand c = Ok c'
    ∧ db c' = <[string_bytes key := SkiplistObject m' sl']> (db c)
    ∧ rep m' sl' l' ∧ fresh m'
    ∧ reply c' = reply c ++ [ReplyLongLong (Z.of_nat (length l') - Z.of_nat (length l))]
    ∧ dirty c' = dirty c + Z.of_nat k
    ∧ events c'
      = events c ++ (if length l' =? length l then []
                     else [signalModifiedKey (string_bytes key);
                           notifyKeyspaceEvent "REDIS_NOTIFY_LIST" "sladd"
                                               (string_bytes key)])%nat
    ∧ (length l ≤ length l' ≤ length l + k)%nat
    ∧ (k = 0%nat → l' = l)
    ∧ ∀ s o, (0 < k)%nat →
        pairs !! (2 * k - 2)%nat = Some s → pairs !! (2 * k - 1)%nat = Some o →
        ∃ a, a ∈ l' ∧ iscore a = tryObjectEncoding s ∧ iobj a = tryObjectEncoding o.
Proof.
  intros Hargv Hk Hl Hsmall Hrs Hst.
  pose proof (stops_le (random c)) as Hsr.
  unfold sladdCommand, argc, argv_at. rewrite Hargv. cbn [length lookup list_lookup].
  rewrite Hk.
  replace (Z.of_nat (S (S (2 * k))) mod 2 =? 0) with true; cycle 1.
  { symmetry. apply Z.eqb_eq.
    replace (Z.of_nat (S (S (2 * k)))) with ((Z.of_nat k + 1) * 2) by lia.
    apply Z.mod_mul. lia. }
  cbn [negb]. rewrite bind_Ok.
  lazymatch goal with
  | |- ∃ c' m' sl' l', _ ≫= ?K = _ ∧ _ =>
      assert (Hgen : ∀ c0 m sl,
                argv c0 = argv c → random c0 = random c → reply c0 = reply c →
                dirty c0 = dirty c → events c0 = events c →
                rep m sl l → fresh m →
                ∃ c' m' sl' l',
                  Ok (c0, SkiplistObject m sl) ≫= K = Ok c'
                  ∧ db c' = <[string_bytes key := SkiplistObject m' sl']> (db c0)
                  ∧ rep m' sl' l' ∧ fresh m'
                  ∧ reply c' = reply c ++ [ReplyLongLong (Z.of_nat (length l') - Z.of_nat (length l))]
                  ∧ dirty c' = dirty c + Z.of_nat k
                  ∧ events c'
                    = events c ++ (if length l' =? length l then []
                                   else [signalModifiedKey (string_bytes key);
                                         notifyKeyspaceEvent "REDIS_NOTIFY_LIST" "sladd"
                                                             (string_bytes key)])%nat
                  ∧ (length l ≤ length l' ≤ length l + k)%nat
                  ∧ (k = 0%nat → l' = l)
                  ∧ ∀ s o, (0 < k)%nat →
                      pairs !! (2 * k - 2)%nat = Some s →
                      pairs !! (2 * k - 1)%nat = Some o →
                      ∃ a, a ∈ l' ∧ iscore a = tryObjectEncoding s
                                  ∧ iobj a = tryObjectEncoding o)
  end.
  { intros c0 m sl Hargv0 Hrand0 Hreply0 Hdirty0 Hev0 Hrep Hfr.
    rewrite bind_Ok.
    unfold argc. rewrite Hargv0, Hargv. cbn [length]. rewrite Hk.
    replace (Z.to_nat (Z.quot (Z.of_nat (S (S (2 * k))) - 2) 2)) with k; cycle 1.
    { replace (Z.of_nat (S (S (2 * k))) - 2) with (Z.of_nat k * 2) by lia.
      rewrite Z.quot_mul by lia. lia. }
    destruct (sladdCommand_for_rep k 0 c0 m sl 0 l Hrep Hfr)
      as (c1 & m1 & sl1 & l1 & -> & Hrep1 & Hfr1 & Hdb & Hreply & Hev & Hdirty
          & Hlen & Hsame & Hlast);
      [rewrite ?Hrand0; lia..| | | |].
    { rewrite Hargv0, Hargv. cbn [length]. lia. }
    { lia. }
    { lia. }
    rewrite bind_Ok. rewrite Z.add_0_l.
    exists (if negb (Z.of_nat (length l1) - Z.of_nat (length l) =? 0)
            then emit (emit (addReply (set_db c1 (<[string_bytes key := SkiplistObject m1 sl1]> (db c1)))
                                      (ReplyLongLong (Z.of_nat (length l1) - Z.of_nat (length l))))
                            (signalModifiedKey (string_bytes key)))
                      (notifyKeyspaceEvent "REDIS_NOTIFY_LIST" "sladd" (string_bytes key))
            else addReply (set_db c1 (<[string_bytes key := SkiplistObject m1 sl1]> (db c1)))
                          (ReplyLongLong (Z.of_nat (length l1) - Z.of_nat (length l)))),
           m1, sl1, l1.
    split; [by destruct (negb _)|].
    split; [destruct (negb _); cbn; by rewrite Hdb|].
    split; [done|]. split; [done|].
    split; [destruct (negb _); cbn; by rewrite Hreply, Hreply0|].
    split; [destruct (negb _); cbn; rewrite Hdirty; lia|].
    split.
    { destruct (Z.eqb_spec (Z.of_nat (length l1) - Z.of_nat (length l)) 0) as [He|He];
        destruct (Nat.eqb_spec (length l1) (length l)) as [Hn|Hn]; try lia;
        cbn; rewrite Hev, Hev0; by rewrite ?app_nil_r, <- ?app_assoc. }
    split; [done|]. split; [done|].
    intros s o Hk0 Hs Ho. apply Hlast; [done| |]; rewrite Hargv0, Hargv.
    - replace (2 + (0 + k - 1) * 2)%nat with (S (S (2 * k - 2))) by lia. exact Hs.
    - replace (3 + (0 + k - 1) * 2)%nat with (S (S (2 * k - 1))) by lia. exact Ho. }
  unfold list_of in Hl.
  destruct (lookupKey c key) as [[m sl|o]|] eqn:Hkey; [| done |].
  - destruct Hl as [Hrep Hfr].
    change (not_skiplist (SkiplistObject m sl)) with false. cbv iota.
    by apply (Hgen c m sl).
  - subst l.
    change createSkiplistObject
      with (SkiplistObject (slCreate empty_memory).1 (slCreate empty_memory).2).
    destruct (Hgen (set_db c (<[string_bytes key :=
                SkiplistObject (slCreate empty_memory).1 (slCreate empty_memory).2]> (db c)))
                (slCreate empty_memory).1 (slCreate empty_memory).2)
      as (c' & m' & sl' & l' & Hrun & Hdb & Hrest); try done.
    + apply slCreate_rep.
    + apply wf_created.
    + exists c', m', sl', l'. split; [done|]. split; [|done].
      rewrite Hdb. cbn [db set_db]. by rewrite insert_insert_eq.
Qed.

(** X2.  SLADD with an even number of words after the key, on a key that
    holds a skiplist or nothing, in a table all of whose lists are
    well-formed: it returns, and every list of the table is well-formed
    afterwards. *)
Theorem sladd_keeps_well_formed (c : redisClient) (cmd key : robj)
  (pairs : list robj) :
  argv c = cmd :: key :: pairs →
  Nat.Even (length pairs) →
  wf_db (db c) →
  (∀ o, lookupKey c key ≠ Some (PlainObject o)) →
  (∀ m sl, lookupKey c key = Some (SkiplistObject m sl) →
           sl_length sl + Z.of_nat (length pairs) < 2 ^ 64) →
  Z.of_nat (length (random c)) < 2 ^ 31 - 1 →
  (length pairs ≤ 2 * stops (random c))%nat →
  ∃ c', sladdCommand c = Ok c' ∧ wf_db (db c').
Proof.
  intros Hargv [k Hk] Hwf Hskip Hsmall Hrs Hst.
  assert (Hl : ∃ l, list_of (lookupKey c key) l
                    ∧ Z.of_nat (length l) + Z.of_nat k < 2 ^ 64).
  { destruct (lookupKey c key) as [[m sl|o]|] eqn:Hkey.
    - destruct (Hwf _ _ Hkey) as [Hfr [l Hrep]]. exists l. split; [by split|].
      rewrite <- (rep_length _ _ _ Hrep). pose proof (Hsmall m sl eq_refl). lia.
    - by destruct (Hskip o).
    - exists []. split; [done|]. pose proof (stops_le (random c)). cbn. lia. }
  destruct Hl as (l & Hl & Hlen).
  destruct (sladdCommand_spec c cmd key pairs k l Hargv Hk Hl Hlen Hrs)
    as (c' & m' & sl' & l' & Hrun & Hdb & Hrep & Hfr & _); [lia|].
  exists c'. split; [done|]. rewrite Hdb.
  apply map_Forall_insert_2; [|done]. split; [done|by exists l'].
Qed.

(** The [for] of SLREM leaves the key table well-formed, whether it ends
    by storing the list back or by deleting the key. *)
Lemma slremCommand_for_wf (n : nat) :
  ∀ i c key m sl deleted l,
    rep m sl l → fresh m →
    Z.of_nat (length l) < 2 ^ 64 →
    (i + 2 + n ≤ length (argv c))%nat →
    wf_db (db c) →
    ∃ c' d r, slremCommand_for n i c key m sl deleted = Ok (c', d, r)
              ∧ wf_db (db c').
Proof.
  induction n as [|n IH]; intros i c key m sl deleted l Hrep Hfr Hsmall Hargs Hwf.
  { eexists _, _, _. split; [done|].
    apply map_Forall_insert_2; [|done]. split; [done|by exists l]. }
  cbn [slremCommand_for]. unfold argv_at.
  destruct (lookup_lt_is_Some_2 (argv c) (i + 2)%nat) as [s Hs]; [lia|].
  rewrite Hs, bind_Ok.
  destruct (slDeleteScore_rep m sl s l Hrep Hsmall)
    as (m1 & sl1 & A & B & R & -> & -> & Hrep1 & _ & _ & _ & Hfr1).
  rewrite bind_Ok. destruct (_ =? 0).
  - eexists _, _, _. split; [done|]. by apply map_Forall_delete.
  - apply (IH _ _ _ _ _ _ (A ++ R)); try done; [by apply Hfr1| |lia].
    rewrite !length_app in *. lia.
Qed.

(** X3.  SLREM on a table all of whose lists are well-formed, the list
    under the key having fewer than 2^64 nodes: whatever the number of
    scores and whatever the key holds, SLREM returns and every list of the
    table is well-formed afterwards. *)
Theorem slrem_keeps_well_formed (c : redisClient) (cmd key : robj)
  (scores : list robj) :
  argv c = cmd :: key :: scores →
  wf_db (db c) →
  (∀ o, lookupKey c key = Some (PlainObject o) → not_skiplist (PlainObject o) = true) →
  (∀ m sl, lookupKey c key = Some (SkiplistObject m sl) → sl_length sl < 2 ^ 64) →
  ∃ c', slremCommand c = Ok c' ∧ wf_db (db c').
Proof.
  intros Hargv Hwf Hplain Hsmall. unfold slremCommand, argc, argv_at.
  rewrite Hargv. cbn [length lookup list_lookup].
  destruct (_ =? 0); [by eexists|]. rewrite bind_Ok.
  destruct (lookupKey c key) as [[m sl|o]|] eqn:Hkey; [| |by eexists].
  - change (not_skiplist (SkiplistObject m sl)) with false. cbv iota.
    cbn [skiplist_of]. rewrite bind_Ok.
    destruct (Hwf _ _ Hkey) as [Hfr [l Hrep]].
    destruct (slremCommand_for_wf (Z.to_nat (Z.of_nat (S (S (length scores))) - 2)) 0
                c key m sl 0 l Hrep Hfr)
      as (c1 & d & r & -> & Hwf1); [| |done|].
    { rewrite <- (rep_length _ _ _ Hrep). exact (Hsmall m sl eq_refl). }
    { rewrite Hargv. cbn [length]. lia. }
    rewrite bind_Ok. destruct (negb (d =? 0)); [|by eexists].
    destruct (negb (r =? 0)); by eexists.
  - rewrite (Hplain o eq_refl). by eexists.
Qed.

(** The [for] of SLREM: what is left is a sublist, [deleted] counts what
    went, and every node that went compares equal to one of the scores
    looked at. *)
Lemma slremCommand_for_rep (n : nat) :
  ∀ i c key m sl deleted l,
    rep m sl l → fresh m →
    (i + 2 + n ≤ length (argv c))%nat →
    0 <= deleted → deleted + Z.of_nat (length l) < 2 ^ 31 →
    ∃ c' l' r,
      slremCommand_for n i c key m sl deleted
      = Ok (c', deleted + (Z.of_nat (length l) - Z.of_nat (length l')), r)
      ∧ l' `sublist_of` l
      ∧ ((r = 1 ∧ l' = [] ∧ db c' = delete (string_bytes key) (db c))
         ∨ (r = 0 ∧ (l' = [] → n = 0%nat ∧ l = [])
            ∧ ∃ m' sl', db c' = <[string_bytes key := SkiplistObject m' sl']> (db c)
                        ∧ rep m' sl' l' ∧ fresh m'))
      ∧ argv c' = argv c ∧ reply c' = reply c ∧ dirty c' = dirty c
      ∧ events c' = events c ∧ random c' = random c
      ∧ ∀ a, a ∈ l → a ∉ l' →
          ∃ p s, (i ≤ p < i + n)%nat ∧ argv c !! (p + 2)%nat = Some s
                 ∧ same s a = true.
Proof.
  induction n as [|n IH]; intros i c key m sl deleted l Hrep Hfr Hargs Hd0 Hd1.
  { exists (set_db c (<[string_bytes key := SkiplistObject m sl]> (db c))), l, 0.
    cbn [slremCommand_for]. split; [do 3 f_equal; lia|]. split; [done|].
    split; [right; split; [done|]; split; [done|]; by exists m, sl|].
    do 5 (split; [done|]). intros a Ha Hna. by destruct Hna. }
  cbn [slremCommand_for]. unfold argv_at.
  destruct (lookup_lt_is_Some_2 (argv c) (i + 2)%nat) as [s Hs]; [lia|].
  rewrite Hs, bind_Ok.
  destruct (slDeleteScore_rep m sl s l Hrep)
    as (m1 & sl1 & A & B & R & -> & -> & Hrep1 & HB & _ & _ & Hfr1); [lia|].
  rewrite bind_Ok. rewrite !length_app in Hd1.
  rewrite (int_of_small (Z.of_nat (length B))) by lia.
  rewrite (int_of_small (deleted + _)) by lia.
  assert (Hsub : (A ++ R) `sublist_of` (A ++ B ++ R)).
  { apply sublist_app; [done|]. by apply sublist_inserts_l. }
  rewrite (rep_length _ _ _ Hrep1).
  destruct (Z.eqb_spec (Z.of_nat (length (A ++ R))) 0) as [He|He].
  - assert (A ++ R = []) as HAR by (destruct (A ++ R); [done|cbn in He; lia]).
    exists (set_db c (delete (string_bytes key) (db c))), [], 1.
    split; [do 3 f_equal; rewrite !length_app in *; cbn [length]; lia|].
    split; [apply sublist_nil_l|]. split; [by left|].
    do 5 (split; [done|]). intros a Ha _. exists i, s.
    split; [lia|]. split; [done|].
    apply (proj1 (Forall_forall _ _) HB). revert Ha.
    rewrite app_assoc, (comm (++) A B), <- app_assoc, elem_of_app, HAR.
    intros [?|[]%not_elem_of_nil]; done.
  - destruct (IH (S i) c key m1 sl1 (deleted + Z.of_nat (length B)) (A ++ R))
      as (c' & l' & r & -> & Hsub' & Hcase & Hargv & Hreply & Hdirty & Hev & Hrand & Hmatch);
      [done|by apply Hfr1|lia|lia|rewrite !length_app in *; lia|].
    exists c', l', r.
    split; [do 3 f_equal; rewrite !length_app in *; lia|].
    split; [by etrans|]. split.
    { destruct Hcase as [?|(-> & Hnil & Hdb)]; [by left|right].
      split; [done|]. split; [|done].
      intros Hl'. destruct (Hnil Hl') as [_ HAR]. rewrite HAR in He. done. }
    do 5 (split; [done|]). intros a Ha Hna.
    assert (Hcases : a ∈ B ∨ a ∈ A ++ R).
    { revert Ha. rewrite !elem_of_app. tauto. }
    destruct Hcases as [Hin|Hin].
    + exists i, s. split; [lia|]. split; [done|].
      by apply (proj1 (Forall_forall _ _) HB).
    + destruct (Hmatch a Hin Hna) as (p & s' & Hp & Hs' & Hsame).
      exists p, s'. split; [lia|done].
Qed.

(** SLREM with an odd number of scores on a well-formed list. *)
Lemma slremCommand_rep (c : redisClient) (cmd key : robj) (scores : list robj)
  (m : memory) (sl : skiplist) (l : list item) :
  argv c = cmd :: key :: scores →
  Nat.Odd (length scores) →
  lookupKey c key = Some (SkiplistObject m sl) →
  rep m sl l → fresh m →
  Z.of_nat (length l) < 2 ^ 31 →
  ∃ c' l',
    slremCommand c = Ok c'
    ∧ l' `sublist_of` l
    ∧ list_of (lookupKey c' key) l'
    ∧ (lookupKey c' key = None ↔ l' = [])
    ∧ (∀ k, k ≠ string_bytes key → db c' !! k = db c !! k)
    ∧ reply c' = reply c ++ [ReplyLongLong (Z.of_nat (length l) - Z.of_nat (length l'))]
    ∧ dirty c' = dirty c
    ∧ ∀ a, a ∈ l → a ∉ l' → ∃ s, s ∈ scores ∧ same s a = true.
Proof.
  intros Hargv [k Hk] Hkey Hrep Hfr Hsmall.
  unfold slremCommand, argc, argv_at. rewrite Hargv. cbn [length lookup list_lookup].
  rewrite Hk.
  replace (Z.of_nat (S (S (2 * k + 1))) mod 2 =? 0) with false; cycle 1.
  { symmetry. apply Z.eqb_neq.
    replace (Z.of_nat (S (S (2 * k + 1)))) with (1 + (Z.of_nat k + 1) * 2) by lia.
    rewrite Z.mod_add by lia. done. }
  rewrite bind_Ok, Hkey.
  change (not_skiplist (SkiplistObject m sl)) with false. cbv iota.
  cbn [skiplist_of]. rewrite bind_Ok.
  destruct (slremCommand_for_rep (Z.to_nat (Z.of_nat (S (S (2 * k + 1))) - 2)) 0
              c key m sl 0 l Hrep Hfr)
    as (c1 & l1 & r & -> & Hsub & Hcase & Hargv1 & Hreply & Hdirty & _ & _ & Hmatch);
    [rewrite Hargv; cbn [length]; lia|lia|lia|].
  rewrite bind_Ok, Z.add_0_l.
  set (d := Z.of_nat (length l) - Z.of_nat (length l1)).
  set (c2 := addReply c1 (ReplyLongLong d)).
  assert (Hok : ∃ c', (if negb (d =? 0)
                       then if negb (r =? 0)
                            then Ok (emit (emit (emit c2 (signalModifiedKey (string_bytes key)))
                                   (notifyKeyspaceEvent "REDIS_NOTIFY_LIST" "slrem" (string_bytes key)))
                                   (notifyKeyspaceEvent "REDIS_NOTIFY_GENERIC" "del" (string_bytes key)))
                            else Ok (emit (emit c2 (signalModifiedKey (string_bytes key)))
                                   (notifyKeyspaceEvent "REDIS_NOTIFY_LIST" "slrem" (string_bytes key)))
                       else Ok c2) = Ok c'
                      ∧ db c' = db c1 ∧ reply c' = reply c1 ++ [ReplyLongLong d]
                      ∧ dirty c' = dirty c1).
  { destruct (negb (d =? 0)); [destruct (negb (r =? 0))|]; by eexists. }
  destruct Hok as (c' & Hrun & Hdb & Hreply' & Hdirty').
  exists c', l1. split; [exact Hrun|]. split; [done|].
  unfold lookupKey, list_of. rewrite Hdb.
  split; [|split; [|split; [|split; [|split]]]].
  - destruct Hcase as [(_ & -> & ->)|(_ & _ & m' & sl' & -> & Hrep' & Hfr')].
    + by rewrite lookup_delete_eq.
    + by rewrite lookup_insert_eq.
  - destruct Hcase as [(_ & -> & ->)|(_ & Hnil & m' & sl' & -> & Hrep' & Hfr')].
    + by rewrite lookup_delete_eq.
    + rewrite lookup_insert_eq. split; [done|]. intros Hl1.
      destruct (Hnil Hl1) as [Hn _]. lia.
  - intros k' Hk'.
    destruct Hcase as [(_ & _ & ->)|(_ & _ & m' & sl' & -> & _)].
    + by rewrite lookup_delete_ne.
    + by rewrite lookup_insert_ne.
  - by rewrite Hreply', Hreply.
  - by rewrite Hdirty', Hdirty.
  - intros a Ha Hna. destruct (Hmatch a Ha Hna) as (p & s & _ & Hs & Hsame).
    exists s. split; [|done]. rewrite Hargv in Hs.
    replace (p + 2)%nat with (S (S p)) in Hs by lia. cbn in Hs.
    by apply list_elem_of_lookup_2 in Hs.
Qed.

(** ** What SLALL and SLCARD reply on a well-formed list *)

Lemma with_replies_nil c : with_replies c [] = c.
Proof. destruct c. unfold with_replies. cbn. by rewrite app_nil_r. Qed.

Lemma with_replies_app c r1 r2 :
  with_replies (with_replies c r1) r2 = with_replies c (r1 ++ r2).
Proof. unfold with_replies. cbn. by rewrite app_assoc. Qed.

Lemma slallCommand_while_spec (l : list item) :
  ∀ fuel m c prev len,
    nodes_at (cells m) prev l →
    Forall (λ a, (1 ≤ height a)%nat) l →
    (length l < fuel)%nat →
    len + Z.of_nat (length l) < 2 ^ 31 → - 2 ^ 31 <= len →
    slallCommand_while fuel m c (head (addr <$> l)) len
    = Ok (with_replies c (bulks l), len + Z.of_nat (length l)).
Proof.
  induction l as [|a l IH]; intros fuel m c prev len Hn Hh Hfuel Hlen Hlo;
    (destruct fuel as [|fuel]; [cbn in Hfuel; lia|]).
  - cbn. by rewrite with_replies_nil, Z.add_0_r.
  - destruct Hn as [Ha Hn]. apply Forall_cons in Hh as [Hha Hh].
    cbn [fmap list_fmap head slallCommand_while]. unfold load. rewrite Ha, bind_Ok.
    unfold addReplyNode. cbn [score obj node_of nonnull]. rewrite !bind_Ok.
    fold (node_of prev a l). rewrite forward_at_node_of by lia. rewrite bind_Ok.
    rewrite nxt_zero by done.
    rewrite (IH fuel m _ (Some (addr a))); [|done|done|..].
    + f_equal. f_equal.
      * unfold with_replies, addReply. cbn. by rewrite <- !app_assoc.
      * rewrite int_of_small by (cbn [length] in Hlen; lia). cbn [length]. lia.
    + cbn in Hfuel. lia.
    + rewrite int_of_small by (cbn [length] in Hlen; lia). cbn [length] in Hlen. lia.
    + rewrite int_of_small by (cbn [length] in Hlen; lia). lia.
Qed.

(** X4.  SLALL on a key that holds a well-formed list of fewer than 2^30
    nodes replies twice the number of nodes, then the score and the member
    of every node, in the order of the list; nothing but the reply buffer
    changes. *)
Theorem slall_lists_the_list (c : redisClient) (cmd key : robj)
  (rest : list robj) (m : memory) (sl : skiplist) (l : list item) :
  argv c = cmd :: key :: rest →
  lookupKey c key = Some (SkiplistObject m sl) →
  rep m sl l →
  2 * Z.of_nat (length l) < 2 ^ 31 →
  slallCommand c
  = Ok (with_replies c (MultiBulkLength (2 * Z.of_nat (length l)) :: bulks l)).
Proof.
  intros Hargv Hkey Hrep Hlen. unfold slallCommand, argv_at.
  rewrite Hargv. cbn [lookup list_lookup]. rewrite bind_Ok, Hkey.
  change (not_skiplist (SkiplistObject m sl)) with false. cbv iota.
  cbn [skiplist_of]. rewrite bind_Ok.
  rewrite (fwd_node _ _ _ _ (rep_header _ _ _ Hrep)).
  rewrite forward_at_tower by (unfold SKIPLIST_MAXLEVEL; lia). rewrite bind_Ok.
  assert (Hh : Forall (λ a, (1 ≤ height a)%nat) l).
  { eapply Forall_impl; [exact (rep_heights _ _ _ Hrep)|]. by intros a [? _]. }
  rewrite nxt_zero by done. unfold addDeferredMultiBulkLength.
  rewrite (slallCommand_while_spec l _ m _ None 0 (rep_nodes _ _ _ Hrep) Hh);
    [|pose proof (rep_fuel _ _ _ Hrep); unfold fuel_of; lia|lia|lia].
  rewrite bind_Ok. unfold setDeferredMultiBulkLength, with_replies, addReply.
  cbn [argv db reply dirty events random]. f_equal. f_equal.
  rewrite int_of_small by lia. rewrite <- app_assoc.
  rewrite <- (Nat.add_0_r (length (reply c))). by rewrite insert_app_r.
Qed.

(** X5.  SLCARD on a key that holds a well-formed list replies the
    number of its nodes. *)
Theorem slcard_counts_the_list (c : redisClient) (cmd key : robj)
  (rest : list robj) (m : memory) (sl : skiplist) (l : list item) :
  argv c = cmd :: key :: rest →
  lookupKey c key = Some (SkiplistObject m sl) →
  rep m sl l →
  slcardCommand c = Ok (addReply c (ReplyDouble (Z.of_nat (length l)))).
Proof.
  intros Hargv Hkey Hrep. unfold slcardCommand, argv_at.
  rewrite Hargv. cbn [lookup list_lookup]. rewrite bind_Ok, Hkey.
  change (not_skiplist (SkiplistObject m sl)) with false. cbv iota.
  cbn [skiplist_of]. rewrite bind_Ok. by rewrite (rep_length _ _ _ Hrep).
Qed.

End Commands.

(** * Freeing a list *)

(** The [while] of [slFree] frees every node of the chain it is given and
    nothing else. *)
Lemma slFree_while_spec (l : list item) :
  ∀ fuel m prev,
    nodes_at (cells m) prev l →
    NoDup (addr <$> l) →
    Forall (λ a, (1 ≤ height a)%nat) l →
    (length l < fuel)%nat →
    ∃ m', slFree_while fuel m (head (addr <$> l)) = Ok m'
          ∧ (∀ z, z ∈ addr <$> l → cells m' !! z = None)
          ∧ (∀ z, z ∉ addr <$> l → cells m' !! z = cells m !! z)
          ∧ brk m' = brk m.
Proof.
  induction l as [|a l IH]; intros fuel m prev Hn Hnd Hh Hfuel;
    (destruct fuel as [|fuel]; [cbn in Hfuel; lia|]).
  - exists m. split; [done|]. split; [by intros z ?%elem_of_nil|done].
  - destruct Hn as [Ha Hn]. apply Forall_cons in Hh as [Hha Hh].
    rewrite fmap_cons in Hnd. apply NoDup_cons in Hnd as [Hal Hnd].
    cbn [fmap list_fmap head slFree_while]. unfold load. rewrite Ha, bind_Ok.
    rewrite forward_at_node_of by lia. rewrite bind_Ok, nxt_zero by done.
    destruct (IH fuel (slFreeNode m (addr a)) (Some (addr a)))
      as (m' & -> & Hgone & Hkept & Hbrk); [|done|done|cbn in Hfuel; lia|].
    { eapply nodes_at_agree; [|exact Hn]. intros z Hz. cbn.
      apply lookup_delete_ne. by intros <-. }
    exists m'. split; [done|]. split; [|split; [|done]].
    + intros z [->|Hz]%elem_of_cons; [|by apply Hgone].
      rewrite Hkept by done. cbn. apply lookup_delete_eq.
    + intros z Hz. apply not_elem_of_cons in Hz as [Hza Hz].
      rewrite Hkept by done. cbn. by apply lookup_delete_ne.
Qed.

(** X6.  [slFree] on a well-formed list returns, having freed the header
    and every node of the list, each read before it is freed; every other
    cell of the store is as it was. *)
Theorem slFree_frees_the_list (m : memory) (sl : skiplist) (l : list item) :
  rep m sl l →
  ∃ m', slFree m sl = Ok m'
        ∧ (∀ z, z ∈ sl_header sl :: (addr <$> l) → cells m' !! z = None)
        ∧ (∀ z, z ∉ sl_header sl :: (addr <$> l) → cells m' !! z = cells m !! z)
        ∧ brk m' = brk m.
Proof.
  intros Hrep. unfold slFree.
  rewrite (fwd_node _ _ _ _ (rep_header _ _ _ Hrep)).
  rewrite forward_at_tower by (unfold SKIPLIST_MAXLEVEL; lia). rewrite bind_Ok.
  assert (Hh : Forall (λ a, (1 ≤ height a)%nat) l).
  { eapply Forall_impl; [exact (rep_heights _ _ _ Hrep)|]. by intros a [? _]. }
  pose proof (rep_nodup _ _ _ Hrep) as [Hhdr Hnd]%NoDup_cons.
  rewrite nxt_zero by done.
  destruct (slFree_while_spec l (fuel_of m) (zfree m (sl_header sl)) None)
    as (m' & -> & Hgone & Hkept & Hbrk); [|done|done| |].
  - eapply nodes_at_agree; [|exact (rep_nodes _ _ _ Hrep)]. intros z Hz. cbn.
    apply lookup_delete_ne. by intros <-.
  - pose proof (rep_fuel _ _ _ Hrep). unfold fuel_of. lia.
  - exists m'. split; [done|]. split; [|split; [|done]].
    + intros z [->|Hz]%elem_of_cons; [|by apply Hgone].
      rewrite Hkept by done. cbn. apply lookup_delete_eq.
    + intros z Hz. apply not_elem_of_cons in Hz as [Hza Hz].
      rewrite Hkept by done. cbn. by apply lookup_delete_ne.
Qed.

(** * Searching a score *)

(** The [while] of [slSearchSmallestNode] is the walk of [slDeleteScore]
    followed by one more look at the node the walk stopped before. *)
Lemma slSearchSmallestNode_while_walk (fuel : nat) (m : memory) (s : robj) (i : nat) :
  ∀ x,
    slSearchSmallestNode_while fuel m s i x
    = (x' ← walk_while (slDeleteScore_test s) fuel m i x;
       f ← fwd m x' i;
       match f with
       | None => Ok (Break x')
       | Some y =>
           ny ← load m y;
           if slCmp (score ny) (Some s) =? 0 then
             r ← slSearchSmallestNode_back (fuel_of m) m s y;
             Ok (Return (Some r))
           else Ok (Break x')
       end).
Proof.
  induction fuel as [|fuel IH]; intros x; [done|].
  cbn [slSearchSmallestNode_while walk_while].
  destruct (fwd m x i) as [[y|]|e] eqn:Hf; cbn; [| |done].
  - destruct (load m y) as [ny|e] eqn:Hy; cbn; [|done].
    destruct (slCmp (score ny) (Some s) <? 0); cbn.
    + apply IH.
    + rewrite Hf. cbn. rewrite Hy. cbn. done.
  - rewrite Hf. done.
Qed.

Lemma slSearchSmallestNode_while_spec (m : memory) (s : robj) (i : nat)
  (R : list item) (x : ptr) (prev : option ptr) :
  nodes_at (cells m) prev R →
  fwd m x i = Ok (nxt i R) →
  (length R < fuel_of m)%nat →
  (∃ A b R', R = A ++ b :: R'
             ∧ slCmp (Some (iscore b)) (Some s) = 0
             ∧ slSearchSmallestNode_while (fuel_of m) m s i x
               = Ok (Return (Some (addr b))))
  ∨ (∃ A' R', R = A' ++ R'
              ∧ slSearchSmallestNode_while (fuel_of m) m s i x
                = Ok (Break (pred_at i x A'))
              ∧ (A' = [] ∨ ∃ A1 a, A' = A1 ++ [a] ∧ (i < height a)%nat)).
Proof.
  intros Hn Hf Hfuel. rewrite slSearchSmallestNode_while_walk.
  destruct (walk_while_spec (slDeleteScore_test s) (below s)
              (slDeleteScore_test_node s) m i R x prev (fuel_of m) Hn Hf Hfuel)
    as (A' & R' & -> & -> & Hend & Hblk & _).
  rewrite bind_Ok.
  assert (Hf' : fwd m (pred_at i x A') i = Ok (nxt i R')).
  { destruct Hend as [->|(A1 & a & -> & Ha)]; [done|].
    rewrite pred_at_split; [|done|constructor].
    rewrite <- app_assoc in Hn. cbn [app] in Hn.
    destruct (nodes_at_split _ _ _ _ _ Hn) as [Hcell _].
    rewrite (fwd_node _ _ _ _ Hcell). by apply forward_at_node_of. }
  rewrite Hf', bind_Ok.
  destruct (nxt i R') as [y|] eqn:Hy; [|right; by exists A', R'].
  destruct (nxt_Some _ _ _ Hy) as (l1 & b & l2 & -> & <- & Hb & Hl1).
  pose proof Hn as Hn'. rewrite app_assoc in Hn'.
  rewrite (nodes_at_load _ _ _ _ _ Hn'), bind_Ok. cbn [score node_of].
  destruct (Z.eqb_spec (slCmp (Some (iscore b)) (Some s)) 0) as [Hcmp|Hcmp].
  - left. exists (A' ++ l1), b, l2. split; [by rewrite <- app_assoc|].
    split; [done|]. unfold fuel_of.
    rewrite (slSearchSmallestNode_back_stays _ m s (addr b) _
               (nodes_at_load _ _ _ _ _ Hn') Hcmp).
    done.
  - right. by exists A', (l1 ++ b :: l2).
Qed.

Lemma slSearchSmallestNode_for_spec (m : memory) (s : robj) :
  ∀ n R x prev,
    nodes_at (cells m) prev R →
    (∀ j, (j < n)%nat → fwd m x j = Ok (nxt j R)) →
    (length R < fuel_of m)%nat →
    slSearchSmallestNode_for m s n x = Ok None
    ∨ ∃ A b R', R = A ++ b :: R'
                ∧ slCmp (Some (iscore b)) (Some s) = 0
                ∧ slSearchSmallestNode_for m s n x = Ok (Some (addr b)).
Proof.
  induction n as [|i IH]; intros R x prev Hn Hf Hfuel; [by left|].
  cbn [slSearchSmallestNode_for].
  destruct (slSearchSmallestNode_while_spec m s i R x prev Hn)
    as [(A & b & R' & -> & Hcmp & ->)|(A' & R' & -> & -> & Hend)];
    [apply Hf; lia|done| |].
  - right. by exists A, b, R'.
  - rewrite bind_Ok.
    destruct (IH R' (pred_at i x A') (prev_of prev A'))
      as [->|(A & b & R'' & -> & Hcmp & ->)].
    + by apply nodes_at_suffix.
    + intros j Hj. destruct Hend as [->|(A1 & a & -> & Ha)].
      * cbn. apply Hf. lia.
      * rewrite pred_at_split; [|done|constructor].
        rewrite <- app_assoc in Hn. cbn [app] in Hn.
        destruct (nodes_at_split _ _ _ _ _ Hn) as [Hcell _].
        rewrite (fwd_node _ _ _ _ Hcell). apply forward_at_node_of. lia.
    + rewrite length_app in Hfuel. lia.
    + by left.
    + right. exists (A' ++ A), b, R''. by rewrite <- app_assoc.
Qed.

(** On a well-formed list [slSearchSmallestNode] returns NULL or a node of
    the list whose score compares equal to the one looked for. *)
Lemma slSearchSmallestNode_rep (m : memory) (sl : skiplist) (s : robj)
  (l : list item) :
  rep m sl l →
  slSearchSmallestNode m sl s = Ok None
  ∨ ∃ A b R, l = A ++ b :: R
             ∧ slCmp (Some (iscore b)) (Some s) = 0
             ∧ slSearchSmallestNode m sl s = Ok (Some (addr b)).
Proof.
  intros Hrep. unfold slSearchSmallestNode.
  pose proof (rep_level _ _ _ Hrep) as Hlvl. unfold SKIPLIST_MAXLEVEL in Hlvl.
  apply (slSearchSmallestNode_for_spec m s _ l _ None).
  - apply (rep_nodes _ _ _ Hrep).
  - intros j Hj. rewrite (fwd_node _ _ _ _ (rep_header _ _ _ Hrep)).
    apply forward_at_tower. unfold SKIPLIST_MAXLEVEL. lia.
  - pose proof (rep_fuel _ _ _ Hrep). unfold fuel_of. lia.
Qed.

Lemma slsearchCommand_while_spec (s : robj) (l : list item) :
  ∀ fuel m c prev len,
    nodes_at (cells m) prev l →
    Forall (λ a, (1 ≤ height a)%nat) l →
    (length l < fuel)%nat →
    0 <= len → len + Z.of_nat (length l) < 2 ^ 64 →
    ∃ B R, l = B ++ R
      ∧ Forall (λ b, slCmp (Some (iscore b)) (Some s) = 0) B
      ∧ (∀ b, head R = Some b → slCmp (Some (iscore b)) (Some s) ≠ 0)
      ∧ slsearchCommand_while fuel m c s (head (addr <$> l)) len
        = Ok (with_replies c (bulks B), len + Z.of_nat (length B)).
Proof.
  induction l as [|a l IH]; intros fuel m c prev len Hn Hh Hfuel Hl0 Hl1;
    (destruct fuel as [|fuel]; [cbn in Hfuel; lia|]).
  - exists [], []. split; [done|]. split; [constructor|]. split; [done|].
    cbn. by rewrite with_replies_nil, Z.add_0_r.
  - destruct Hn as [Ha Hn]. apply Forall_cons in Hh as [Hha Hh].
    cbn [fmap list_fmap head slsearchCommand_while]. unfold load.
    rewrite Ha, bind_Ok. cbn [score node_of].
    destruct (Z.eqb_spec (slCmp (Some (iscore a)) (Some s)) 0) as [Hcmp|Hcmp].
    + unfold addReplyNode. cbn [score obj node_of nonnull]. rewrite !bind_Ok.
      fold (node_of prev a l). rewrite forward_at_node_of by lia.
      rewrite bind_Ok, nxt_zero by done. cbn [length] in Hl1.
      unfold ulong_of. rewrite Z.mod_small by lia.
      destruct (IH fuel m (addReply (addReply c (ReplyBulk (iscore a)))
                                     (ReplyBulk (iobj a)))
                   (Some (addr a)) (len + 1) Hn Hh)
        as (B & R & -> & HB & Hhead & ->); [cbn in Hfuel; lia|lia|lia|].
      exists (a :: B), R. split; [done|]. split; [by constructor|].
      split; [done|]. f_equal. f_equal.
      * unfold with_replies, addReply. cbn. by rewrite <- !app_assoc.
      * cbn [length]. lia.
    + exists [], (a :: l). split; [done|]. split; [constructor|].
      split; [by intros b [= <-]|]. cbn. by rewrite with_replies_nil, Z.add_0_r.
Qed.

(** X7.  SLSEARCH on a key that holds a well-formed list returns without
    a fault.  It sends the empty multi-bulk reply, or the score and the
    member of each node of one run of consecutive nodes of the list, in
    order, preceded by twice their number; the run is not empty, [slCmp]
    finds the score of each of its nodes equal to the one looked for, and
    the node after the run, if any, is not found equal. *)
Theorem slsearch_replies_a_run (c : redisClient) (cmd key s : robj)
  (rest : list robj) (m : memory) (sl : skiplist) (l : list item) :
  argv c = cmd :: key :: s :: rest →
  lookupKey c key = Some (SkiplistObject m sl) →
  rep m sl l →
  2 * Z.of_nat (length l) < 2 ^ 64 →
  slsearchCommand c = Ok (addReply c shared_emptymultibulk)
  ∨ ∃ A B R,
      l = A ++ B ++ R ∧ B ≠ []
      ∧ Forall (λ b, slCmp (Some (iscore b)) (Some s) = 0) B
      ∧ (∀ b, head R = Some b → slCmp (Some (iscore b)) (Some s) ≠ 0)
      ∧ slsearchCommand c
        = Ok (with_replies c (MultiBulkLength (2 * Z.of_nat (length B)) :: bulks B)).
Proof.
  intros Hargv Hkey Hrep Hlen. unfold slsearchCommand, argv_at.
  rewrite Hargv. cbn [lookup list_lookup]. rewrite !bind_Ok, Hkey.
  change (not_skiplist (SkiplistObject m sl)) with false. cbv iota.
  cbn [skiplist_of]. rewrite bind_Ok.
  destruct (slSearchSmallestNode_rep m sl s l Hrep)
    as [->|(A & b & R & -> & Hcmp & ->)]; [by left|right].
  rewrite bind_Ok. unfold addDeferredMultiBulkLength.
  pose proof (rep_nodes _ _ _ Hrep) as Hn. apply nodes_at_suffix in Hn.
  assert (Hh : Forall (λ a, (1 ≤ height a)%nat) (b :: R)).
  { pose proof (rep_heights _ _ _ Hrep) as [_ Hh]%Forall_app.
    eapply Forall_impl; [exact Hh|]. by intros a [? _]. }
  rewrite length_app in Hlen.
  destruct (slsearchCommand_while_spec s (b :: R) (fuel_of m) m
              (addReply c DeferredMultiBulkLength) (prev_of None A) 0 Hn Hh)
    as (B & R' & HBR & HB & Hhead & Hrun).
  { pose proof (rep_fuel _ _ _ Hrep) as Hf. rewrite length_app in Hf.
    unfold fuel_of. lia. }
  { done. }
  { lia. }
  change (Some (addr b)) with (head (addr <$> b :: R)). rewrite Hrun, bind_Ok.
  exists A, B, R'. split; [by rewrite HBR|]. split.
  { intros ->. cbn in HBR. subst R'. by apply (Hhead b). }
  split; [done|]. split; [done|].
  assert (Z.of_nat (length B) <= Z.of_nat (length (b :: R))).
  { rewrite HBR, length_app. lia. }
  unfold setDeferredMultiBulkLength, with_replies, addReply.
  cbn [argv db reply dirty events random]. f_equal. f_equal.
  unfold ulong_of. rewrite Z.add_0_l, Z.mod_small by lia. rewrite <- app_assoc.
  rewrite <- (Nat.add_0_r (length (reply c))). by rewrite insert_app_r.
Qed.

(** * Further properties *)

(** ** The sample list *)

Lemma sample_rep : rep sample_store.1 sample_store.2 sample_items.
Proof.
  constructor.
  - apply (bool_decide_unpack _). vm_compute. exact I.
  - vm_compute. reflexivity.
  - vm_compute. repeat split; reflexivity.
  - reflexivity.
  - reflexivity.
  - vm_compute. split; discriminate.
  - repeat constructor; vm_compute; discriminate.
Qed.

Lemma fresh_map_Forall (m : memory) :
  map_Forall (λ z _, (z < brk m)%nat) (cells m) → fresh m.
Proof. intros H z [n Hn]. exact (H z n Hn). Qed.

Lemma sample_fresh : fresh sample_store.1.
Proof.
  apply fresh_map_Forall. apply (bool_decide_unpack _). vm_compute. exact I.
Qed.

Lemma sample_key : lookupKey sample_client (RawString "k")
                   = Some (SkiplistObject sample_store.1 sample_store.2).
Proof. vm_compute. reflexivity. Qed.

Local Ltac sample_list :=
  unfold list_of;
  replace (lookupKey _ _) with (Some (SkiplistObject sample_store.1 sample_store.2))
    by (vm_compute; reflexivity);
  split; [exact sample_rep|exact sample_fresh].

(** ** Creating *)

(** X8.  [slCreate] hands back a well-formed empty list of level 1 whose
    header is the address the allocator was about to hand out; the cells
    that were there stay as they were. *)
Theorem slCreate_makes_empty_list (m : memory) :
  rep (slCreate m).1 (slCreate m).2 []
  ∧ sl_header (slCreate m).2 = brk m
  ∧ sl_level (slCreate m).2 = 1
  ∧ brk (slCreate m).1 = S (brk m)
  ∧ cells (slCreate m).1
    = <[brk m := mkNode None None None (replicate (Z.to_nat SKIPLIST_MAXLEVEL) None)]>
        (cells m).
Proof.
  split; [|by repeat split].
  constructor; cbn.
  - apply NoDup_cons. split; [apply not_elem_of_nil|constructor].
  - by rewrite lookup_insert_eq.
  - done.
  - done.
  - done.
  - unfold SKIPLIST_MAXLEVEL. lia.
  - constructor.
Qed.

(** ** Random levels *)

Lemma slRandomLevel_while_climbs (rs : list Z) :
  ∀ level,
    (climbs rs < length rs)%nat →
    - 2 ^ 31 <= level → level + Z.of_nat (climbs rs) < 2 ^ 31 →
    slRandomLevel_while rs level
    = Ok (level + Z.of_nat (climbs rs), drop (S (climbs rs)) rs).
Proof.
  induction rs as [|r rs IH]; intros level; cbn [climbs length slRandomLevel_while].
  - lia.
  - fold (goes_up r). destruct (goes_up r).
    + intros Hc Hl0 Hl1. rewrite int_of_small by lia.
      rewrite IH by lia. cbn [drop]. do 2 f_equal. lia.
    + intros _ _ _. cbn. by rewrite Z.add_0_r, drop_0.
Qed.

(** X9.  When the script of [random()] holds a draw that ends the loop,
    after fewer than 2^31 - 1 draws that do not, [slRandomLevel] returns
    one more than the number of draws before it, capped at
    [SKIPLIST_MAXLEVEL], and has used the draws up to that one. *)
Theorem slRandomLevel_level (rs : list Z) :
  (climbs rs < length rs)%nat →
  Z.of_nat (climbs rs) < 2 ^ 31 - 1 →
  slRandomLevel rs
  = Ok (Z.min (1 + Z.of_nat (climbs rs)) SKIPLIST_MAXLEVEL, drop (S (climbs rs)) rs).
Proof.
  intros Hc Hb. unfold slRandomLevel.
  rewrite slRandomLevel_while_climbs by lia. rewrite bind_Ok.
  unfold SKIPLIST_MAXLEVEL. do 2 f_equal.
  destruct (Z.ltb_spec (1 + Z.of_nat (climbs rs)) 32); lia.
Qed.

Lemma slRandomLevel_level_witness :
  slRandomLevel [go; go; stop; 7] = Ok (3, [7]).
Proof.
  apply (slRandomLevel_level [go; go; stop; 7]); vm_compute; [lia|reflexivity].
Defined.

(** ** The comparator *)

Lemma memcmp_refl (s : string) : memcmp s s = 0.
Proof. induction s as [|a s IH]; [done|]. cbn. by rewrite Z.eqb_refl. Qed.

(** X10.  [slCmp] finds every score equal to itself, whatever its type and
    encoding, and NULL equal to NULL. *)
Theorem slCmp_refl (x : option robj) : slCmp x x = 0.
Proof.
  destruct x as [[s|n|t e]|]; cbn -[int_of long_of]; [| |done..].
  - unfold compareStringObjects. cbn. rewrite memcmp_refl. cbn.
    by rewrite Z.sub_diag.
  - by rewrite Z.sub_diag.
Qed.

(** X11.  On two integer encoded scores whose difference fits an [int],
    [slCmp] has the sign of the comparison of the integers. *)
Theorem slCmp_orders_close_integers (a b : Z) :
  - 2 ^ 31 <= a - b < 2 ^ 31 →
  (slCmp (Some (IntString a)) (Some (IntString b)) < 0 ↔ a < b)
  ∧ (slCmp (Some (IntString a)) (Some (IntString b)) = 0 ↔ a = b)
  ∧ (0 < slCmp (Some (IntString a)) (Some (IntString b)) ↔ b < a).
Proof. intros H. rewrite (slCmp_int_small a b H). lia. Qed.

Lemma slCmp_orders_close_integers_witness :
  (slCmp (Some (IntString 3)) (Some (IntString 5)) < 0 ↔ 3 < 5)
  ∧ (slCmp (Some (IntString 3)) (Some (IntString 5)) = 0 ↔ 3 = 5)
  ∧ (0 < slCmp (Some (IntString 3)) (Some (IntString 5)) ↔ 5 < 3).
Proof. apply (slCmp_orders_close_integers 3 5). lia. Defined.

(** X12.  [slCmp] is not transitive: an integer encoded 9 is below an
    integer encoded 10 (as integers), which is below the string "1a" (as
    bytes), which is below the 9 (as bytes). *)
Theorem slCmp_is_not_transitive :
  ∃ a b c : robj,
    slCmp (Some a) (Some b) < 0 ∧ slCmp (Some b) (Some c) < 0
    ∧ slCmp (Some c) (Some a) < 0.
Proof.
  exists (IntString 9), (IntString 10), (RawString "1a").
  repeat split; vm_compute; reflexivity.
Qed.

(** ** Inserting and deleting *)



(** X14.  [slDelete] on a well-formed list: either it returns 0 and has
    changed nothing, or it returns 1 and has taken out one node, whose
    score [slCmp] finds equal to the one given and whose member
    [equalStringObjects] finds equal; the list is well-formed again. *)
Theorem slDelete_removes_one_match (m : memory) (sl : skiplist) (s o : robj)
  (l : list item) :
  rep m sl l → Z.of_nat (length l) < 2 ^ 64 →
  ∃ m' sl' d l',
    slDelete m sl s o = Ok (m', sl', d)
    ∧ rep m' sl' l'
    ∧ Z.of_nat (length l') = Z.of_nat (length l) - d
    ∧ ((d = 0 ∧ l' = l ∧ m' = m ∧ sl' = sl)
       ∨ (d = 1 ∧ ∃ A b R, l = A ++ b :: R ∧ l' = A ++ R
                          ∧ slCmp (Some s) (Some (iscore b)) = 0
                          ∧ equalStringObjects (iobj b) o = true
                          ∧ cells m' !! addr b = None)).
Proof.
  intros Hrep Hsmall.
  destruct (slDelete_rep m sl s o l Hrep Hsmall)
    as (m' & sl' & d & l' & Hrun & Hrep' & _ & _ & Hcase).
  exists m', sl', d, l'. split; [done|]. split; [done|].
  destruct Hcase as [(-> & -> & -> & ->)|(-> & A & b & R & -> & -> & Hs & Ho & Hb)].
  - split; [lia|]. by left.
  - split; [rewrite !length_app; cbn [length]; lia|]. right.
    split; [done|]. by exists A, b, R.
Qed.

Lemma slDelete_removes_one_match_witness :
  ∃ m' sl' d l',
    slDelete sample_store.1 sample_store.2 (IntString 1) (RawString "b")
    = Ok (m', sl', d)
    ∧ rep m' sl' l'
    ∧ Z.of_nat (length l') = Z.of_nat (length sample_items) - d
    ∧ ((d = 0 ∧ l' = sample_items ∧ m' = sample_store.1 ∧ sl' = sample_store.2)
       ∨ (d = 1 ∧ ∃ A b R, sample_items = A ++ b :: R ∧ l' = A ++ R
                          ∧ slCmp (Some (IntString 1)) (Some (iscore b)) = 0
                          ∧ equalStringObjects (iobj b) (RawString "b") = true
                          ∧ cells m' !! addr b = None)).
Proof.
  apply (slDelete_removes_one_match sample_store.1 sample_store.2
           (IntString 1) (RawString "b") sample_items).
  - exact sample_rep.
  - vm_compute. reflexivity.
Defined.

(** X15.  [slDeleteScore] on a well-formed list takes out one run of
    consecutive nodes, each of which [slCmp] finds equal to the score, and
    stops before a node that it does not find equal; it returns the length
    of the run, and the list is well-formed again. *)
Theorem slDeleteScore_removes_a_run (m : memory) (sl : skiplist) (s : robj)
  (l : list item) :
  rep m sl l → Z.of_nat (length l) < 2 ^ 31 →
  ∃ m' sl' A B R,
    l = A ++ B ++ R
    ∧ slDeleteScore m sl s = Ok (m', sl', Z.of_nat (length B))
    ∧ rep m' sl' (A ++ R)
    ∧ Forall (λ b, slCmp (Some s) (Some (iscore b)) = 0) B
    ∧ from_option (λ c, slCmp (Some s) (Some (iscore c)) ≠ 0) True (head R).
Proof.
  intros Hrep Hsmall.
  destruct (slDeleteScore_rep m sl s l Hrep)
    as (m' & sl' & A & B & R & -> & Hrun & Hrep' & HB & Hhead & _); [lia|].
  exists m', sl', A, B, R. split; [done|]. split.
  { rewrite Hrun, int_of_small; [done|]. rewrite !length_app in Hsmall. lia. }
  split; [done|]. split.
  - eapply Forall_impl; [exact HB|]. intros b Hb. by apply Z.eqb_eq in Hb.
  - destruct R as [|c R]; [done|]. cbn. apply Z.eqb_neq. by apply Hhead.
Qed.

Lemma slDeleteScore_removes_a_run_witness :
  ∃ m' sl' A B R,
    sample_items = A ++ B ++ R
    ∧ slDeleteScore sample_store.1 sample_store.2 (IntString 1)
      = Ok (m', sl', Z.of_nat (length B))
    ∧ rep m' sl' (A ++ R)
    ∧ Forall (λ b, slCmp (Some (IntString 1)) (Some (iscore b)) = 0) B
    ∧ from_option (λ c, slCmp (Some (IntString 1)) (Some (iscore c)) ≠ 0) True (head R).
Proof.
  apply (slDeleteScore_removes_a_run sample_store.1 sample_store.2
           (IntString 1) sample_items).
  - exact sample_rep.
  - vm_compute. reflexivity.
Defined.

Lemma slFree_frees_the_list_witness :
  ∃ m', slFree sample_store.1 sample_store.2 = Ok m'
        ∧ (∀ z, z ∈ sl_header sample_store.2 :: (addr <$> sample_items) →
                cells m' !! z = None)
        ∧ (∀ z, z ∉ sl_header sample_store.2 :: (addr <$> sample_items) →
                cells m' !! z = cells sample_store.1 !! z)
        ∧ brk m' = brk sample_store.1.
Proof. apply (slFree_frees_the_list _ _ sample_items). exact sample_rep. Defined.

Lemma slsearch_replies_a_run_witness :
  let c := set_argv sample_client (map RawString ["slsearch"; "k"; "1"]) in
  slsearchCommand c = Ok (addReply c shared_emptymultibulk)
  ∨ ∃ A B R,
      sample_items = A ++ B ++ R ∧ B ≠ []
      ∧ Forall (λ b, slCmp (Some (iscore b)) (Some (RawString "1")) = 0) B
      ∧ (∀ b, head R = Some b → slCmp (Some (iscore b)) (Some (RawString "1")) ≠ 0)
      ∧ slsearchCommand c
        = Ok (with_replies c (MultiBulkLength (2 * Z.of_nat (length B)) :: bulks B)).
Proof.
  apply (slsearch_replies_a_run
           (set_argv sample_client (map RawString ["slsearch"; "k"; "1"]))
           (RawString "slsearch") (RawString "k") (RawString "1") []
           sample_store.1 sample_store.2 sample_items).
  - reflexivity.
  - vm_compute. reflexivity.
  - exact sample_rep.
  - vm_compute. reflexivity.
Defined.

Lemma slall_lists_the_list_witness :
  let c := set_argv sample_client (map RawString ["slall"; "k"]) in
  slallCommand c
  = Ok (with_replies c (MultiBulkLength (2 * Z.of_nat (length sample_items))
                        :: bulks sample_items)).
Proof.
  apply (slall_lists_the_list
           (set_argv sample_client (map RawString ["slall"; "k"]))
           (RawString "slall") (RawString "k") []
           sample_store.1 sample_store.2 sample_items).
  - reflexivity.
  - vm_compute. reflexivity.
  - exact sample_rep.
  - vm_compute. reflexivity.
Defined.

Lemma slcard_counts_the_list_witness :
  let c := set_argv sample_client (map RawString ["slcard"; "k"]) in
  slcardCommand c = Ok (addReply c (ReplyDouble (Z.of_nat (length sample_items)))).
Proof.
  apply (slcard_counts_the_list
           (set_argv sample_client (map RawString ["slcard"; "k"]))
           (RawString "slcard") (RawString "k") []
           sample_store.1 sample_store.2 sample_items).
  - reflexivity.
  - vm_compute. reflexivity.
  - exact sample_rep.
Defined.

(** ** SLADD *)

Lemma bulks_app (l1 l2 : list item) : bulks (l1 ++ l2) = bulks l1 ++ bulks l2.
Proof. unfold bulks. by rewrite bind_app. Qed.

(** X16.  SLADD with [k] pairs on a key that holds a well-formed list, or
    on a missing key: afterwards the key holds a well-formed list that is
    at least as long and at most [k] longer, the reply is the number of
    nodes the list has grown by, the dirty counter has gone up by [k] and
    no other key has changed. *)
Theorem sladd_replies_the_growth (c : redisClient) (cmd key : robj)
  (pairs : list robj) (k : nat) (l : list item) :
  argv c = cmd :: key :: pairs →
  length pairs = (2 * k)%nat →
  list_of (lookupKey c key) l →
  Z.of_nat (length l) + Z.of_nat k < 2 ^ 64 →
  Z.of_nat (length (random c)) < 2 ^ 31 - 1 →
  (k ≤ stops (random c))%nat →
  ∃ c' l',
    sladdCommand c = Ok c'
    ∧ list_of (lookupKey c' key) l'
    ∧ (∀ k', k' ≠ string_bytes key → db c' !! k' = db c !! k')
    ∧ reply c' = reply c ++ [ReplyLongLong (Z.of_nat (length l') - Z.of_nat (length l))]
    ∧ (length l ≤ length l' ≤ length l + k)%nat
    ∧ dirty c' = dirty c + Z.of_nat k.
Proof.
  intros Hargv Hk Hl Hsmall Hrs Hst.
  destruct (sladdCommand_spec c cmd key pairs k l Hargv Hk Hl Hsmall Hrs Hst)
    as (c' & m' & sl' & l' & Hrun & Hdb & Hrep & Hfr & Hreply & Hdirty & _ & Hlen & _).
  exists c', l'. split; [done|]. unfold lookupKey. rewrite Hdb. split.
  { rewrite lookup_insert_eq. by split. }
  split; [|done].
  intros k' Hk'. by rewrite lookup_insert_ne.
Qed.

Lemma sladd_replies_the_growth_witness :
  let c := set_random
             (set_argv sample_client (map RawString ["sladd"; "k"; "1"; "a"; "7"; "x"]))
             [stop; stop] in
  ∃ c' l',
    sladdCommand c = Ok c'
    ∧ list_of (lookupKey c' (RawString "k")) l'
    ∧ (∀ k', k' ≠ "k" → db c' !! k' = db c !! k')
    ∧ reply c' = reply c ++ [ReplyLongLong (Z.of_nat (length l')
                                            - Z.of_nat (length sample_items))]
    ∧ (length sample_items ≤ length l' ≤ length sample_items + 2)%nat
    ∧ dirty c' = dirty c + Z.of_nat 2.
Proof.
  apply (sladd_replies_the_growth
           (set_random
              (set_argv sample_client (map RawString ["sladd"; "k"; "1"; "a"; "7"; "x"]))
              [stop; stop])
           (RawString "sladd") (RawString "k")
           (map RawString ["1"; "a"; "7"; "x"]) 2 sample_items).
  - reflexivity.
  - reflexivity.
  - sample_list.
  - vm_compute. reflexivity.
  - vm_compute. reflexivity.
  - vm_compute. lia.
Defined.

(** X17.  After SLADD the list holds a node with the last score and the
    last member given, each as [tryObjectEncoding] leaves it. *)
Theorem sladd_last_pair_is_member (c : redisClient) (cmd key : robj)
  (front : list robj) (s o : robj) (k : nat) (l : list item) :
  argv c = cmd :: key :: front ++ [s; o] →
  length front = (2 * k)%nat →
  list_of (lookupKey c key) l →
  Z.of_nat (length l) + Z.of_nat (S k) < 2 ^ 64 →
  Z.of_nat (length (random c)) < 2 ^ 31 - 1 →
  (S k ≤ stops (random c))%nat →
  ∃ c' l' a,
    sladdCommand c = Ok c'
    ∧ list_of (lookupKey c' key) l'
    ∧ a ∈ l' ∧ iscore a = tryObjectEncoding s ∧ iobj a = tryObjectEncoding o.
Proof.
  intros Hargv Hk Hl Hsmall Hrs Hst.
  destruct (sladdCommand_spec c cmd key (front ++ [s; o]) (S k) l Hargv)
    as (c' & m' & sl' & l' & Hrun & Hdb & Hrep & Hfr & _ & _ & _ & _ & _ & Hlast);
    [rewrite length_app; cbn [length]; lia|done..|].
  destruct (Hlast s o) as (a & Ha & Hs & Ho); [lia| | |].
  - rewrite lookup_app_r by lia.
    by replace (2 * S k - 2 - length front)%nat with 0%nat by lia.
  - rewrite lookup_app_r by lia.
    by replace (2 * S k - 1 - length front)%nat with 1%nat by lia.
  - exists c', l', a. split; [done|]. unfold lookupKey. rewrite Hdb, lookup_insert_eq.
    split; [by split|]. by repeat split.
Qed.

Lemma sladd_last_pair_is_member_witness :
  let c := set_random
             (set_argv sample_client (map RawString ["sladd"; "k"; "1"; "a"; "7"; "x"]))
             [stop; stop] in
  ∃ c' l' a,
    sladdCommand c = Ok c'
    ∧ list_of (lookupKey c' (RawString "k")) l'
    ∧ a ∈ l' ∧ iscore a = tryObjectEncoding (RawString "7")
    ∧ iobj a = tryObjectEncoding (RawString "x").
Proof.
  apply (sladd_last_pair_is_member
           (set_random
              (set_argv sample_client (map RawString ["sladd"; "k"; "1"; "a"; "7"; "x"]))
              [stop; stop])
           (RawString "sladd") (RawString "k")
           (map RawString ["1"; "a"]) (RawString "7") (RawString "x") 1 sample_items).
  - reflexivity.
  - reflexivity.
  - sample_list.
  - vm_compute. reflexivity.
  - vm_compute. reflexivity.
  - vm_compute. lia.
Defined.

Lemma sladd_keeps_well_formed_witness :
  ∃ c', sladdCommand (set_argv (fresh_client [stop])
                               (map RawString ["sladd"; "k"; "1"; "a"])) = Ok c'
        ∧ wf_db (db c').
Proof.
  apply (sladd_keeps_well_formed
           (set_argv (fresh_client [stop]) (map RawString ["sladd"; "k"; "1"; "a"]))
           (RawString "sladd") (RawString "k") (map RawString ["1"; "a"])).
  - reflexivity.
  - by exists 1%nat.
  - apply map_Forall_empty.
  - intros o. discriminate.
  - intros m sl. discriminate.
  - vm_compute. reflexivity.
  - vm_compute. lia.
Defined.

(** X18.  SLADD and then SLCARD on the same key: SLCARD replies the
    length of the list before plus what SLADD replied. *)
Theorem sladd_then_slcard (c : redisClient) (cmd key cmd' : robj)
  (pairs : list robj) (k : nat) (l : list item) :
  argv c = cmd :: key :: pairs →
  length pairs = (2 * k)%nat →
  list_of (lookupKey c key) l →
  Z.of_nat (length l) + Z.of_nat k < 2 ^ 64 →
  Z.of_nat (length (random c)) < 2 ^ 31 - 1 →
  (k ≤ stops (random c))%nat →
  ∃ c1 added,
    sladdCommand c = Ok c1
    ∧ reply c1 = reply c ++ [ReplyLongLong added]
    ∧ slcardCommand (set_argv c1 [cmd'; key])
      = Ok (addReply (set_argv c1 [cmd'; key])
                     (ReplyDouble (Z.of_nat (length l) + added))).
Proof.
  intros Hargv Hk Hl Hsmall Hrs Hst.
  destruct (sladdCommand_spec c cmd key pairs k l Hargv Hk Hl Hsmall Hrs Hst)
    as (c1 & m' & sl' & l' & Hrun & Hdb & Hrep & Hfr & Hreply & _).
  exists c1, (Z.of_nat (length l') - Z.of_nat (length l)).
  split; [done|]. split; [done|].
  unfold slcardCommand, argv_at, lookupKey. cbn [argv db set_argv lookup list_lookup].
  rewrite bind_Ok, Hdb, lookup_insert_eq.
  change (not_skiplist (SkiplistObject m' sl')) with false. cbv iota.
  cbn [skiplist_of]. rewrite bind_Ok, (rep_length _ _ _ Hrep).
  do 3 f_equal. lia.
Qed.

Lemma sladd_then_slcard_witness :
  let c := set_random
             (set_argv sample_client (map RawString ["sladd"; "k"; "1"; "a"; "7"; "x"]))
             [stop; stop] in
  ∃ c1 added,
    sladdCommand c = Ok c1
    ∧ reply c1 = reply c ++ [ReplyLongLong added]
    ∧ slcardCommand (set_argv c1 [RawString "slcard"; RawString "k"])
      = Ok (addReply (set_argv c1 [RawString "slcard"; RawString "k"])
                     (ReplyDouble (Z.of_nat (length sample_items) + added))).
Proof.
  apply (sladd_then_slcard
           (set_random
              (set_argv sample_client (map RawString ["sladd"; "k"; "1"; "a"; "7"; "x"]))
              [stop; stop])
           (RawString "sladd") (RawString "k") (RawString "slcard")
           (map RawString ["1"; "a"; "7"; "x"]) 2 sample_items).
  - reflexivity.
  - reflexivity.
  - sample_list.
  - vm_compute. reflexivity.
  - vm_compute. reflexivity.
  - vm_compute. lia.
Defined.

(** X19.  SLADD and then SLALL on the same key: the reply of SLALL holds,
    one after the other, the last score and the last member given to
    SLADD, each as [tryObjectEncoding] leaves it. *)
Theorem sladd_then_slall (c : redisClient) (cmd key cmd' : robj)
  (front : list robj) (s o : robj) (k : nat) (l : list item) :
  argv c = cmd :: key :: front ++ [s; o] →
  length front = (2 * k)%nat →
  list_of (lookupKey c key) l →
  2 * (Z.of_nat (length l) + Z.of_nat (S k)) < 2 ^ 31 →
  Z.of_nat (length (random c)) < 2 ^ 31 - 1 →
  (S k ≤ stops (random c))%nat →
  ∃ c1 n before after,
    sladdCommand c = Ok c1
    ∧ slallCommand (set_argv c1 [cmd'; key])
      = Ok (with_replies (set_argv c1 [cmd'; key])
              (MultiBulkLength n
               :: before ++ [ReplyBulk (tryObjectEncoding s);
                             ReplyBulk (tryObjectEncoding o)] ++ after)).
Proof.
  intros Hargv Hk Hl Hsmall Hrs Hst.
  destruct (sladdCommand_spec c cmd key (front ++ [s; o]) (S k) l Hargv)
    as (c1 & m' & sl' & l' & Hrun & Hdb & Hrep & Hfr & _ & _ & _ & Hlen & _ & Hlast);
    [rewrite length_app; cbn [length]; lia|done|lia|done..|].
  destruct (Hlast s o) as (a & Ha & Hs & Ho); [lia| | |].
  - rewrite lookup_app_r by lia.
    by replace (2 * S k - 2 - length front)%nat with 0%nat by lia.
  - rewrite lookup_app_r by lia.
    by replace (2 * S k - 1 - length front)%nat with 1%nat by lia.
  - apply list_elem_of_split in Ha as (l1 & l2 & ->).
    exists c1, (2 * Z.of_nat (length (l1 ++ a :: l2))), (bulks l1), (bulks l2).
    split; [done|].
    unfold slallCommand, argv_at, lookupKey. cbn [argv db set_argv lookup list_lookup].
    rewrite bind_Ok, Hdb, lookup_insert_eq.
    change (not_skiplist (SkiplistObject m' sl')) with false. cbv iota.
    cbn [skiplist_of]. rewrite bind_Ok.
    rewrite (fwd_node _ _ _ _ (rep_header _ _ _ Hrep)).
    rewrite forward_at_tower by (unfold SKIPLIST_MAXLEVEL; lia). rewrite bind_Ok.
    assert (Hh : Forall (λ a, (1 ≤ height a)%nat) (l1 ++ a :: l2)).
    { eapply Forall_impl; [exact (rep_heights _ _ _ Hrep)|]. by intros b [? _]. }
    rewrite nxt_zero by done. unfold addDeferredMultiBulkLength.
    rewrite (slallCommand_while_spec _ _ m' _ None 0 (rep_nodes _ _ _ Hrep) Hh);
      [|pose proof (rep_fuel _ _ _ Hrep); unfold fuel_of; lia|lia|lia].
    rewrite bind_Ok. unfold setDeferredMultiBulkLength, with_replies, addReply.
    cbn [argv db reply dirty events random set_argv]. f_equal. f_equal.
    rewrite int_of_small by lia. rewrite <- app_assoc.
    rewrite <- (Nat.add_0_r (length (reply c1))), insert_app_r. cbn [insert list_insert].
    rewrite Z.add_0_l, bulks_app. cbn [bulks]. unfold bulks at 2.
    cbn [mbind list_bind app]. rewrite Hs, Ho. done.
Qed.

Lemma sladd_then_slall_witness :
  let c := set_random
             (set_argv sample_client (map RawString ["sladd"; "k"; "1"; "a"; "7"; "x"]))
             [stop; stop] in
  ∃ c1 n before after,
    sladdCommand c = Ok c1
    ∧ slallCommand (set_argv c1 [RawString "slall"; RawString "k"])
      = Ok (with_replies (set_argv c1 [RawString "slall"; RawString "k"])
              (MultiBulkLength n
               :: before ++ [ReplyBulk (tryObjectEncoding (RawString "7"));
                             ReplyBulk (tryObjectEncoding (RawString "x"))] ++ after)).
Proof.
  apply (sladd_then_slall
           (set_random
              (set_argv sample_client (map RawString ["sladd"; "k"; "1"; "a"; "7"; "x"]))
              [stop; stop])
           (RawString "sladd") (RawString "k") (RawString "slall")
           (map RawString ["1"; "a"]) (RawString "7") (RawString "x") 1 sample_items).
  - reflexivity.
  - reflexivity.
  - sample_list.
  - vm_compute. reflexivity.
  - vm_compute. reflexivity.
  - vm_compute. lia.
Defined.

(** ** SLREM *)

(** X20.  SLREM with an odd number of scores on a key that holds a
    well-formed list of fewer than 2^31 nodes: what is left is a sublist
    of the list, every node that went compares equal ([slCmp] is 0) to one
    of the scores given, the reply is the number of nodes that went, the
    key is gone exactly when nothing is left and otherwise holds what is
    left, no other key has changed and the dirty counter has not moved. *)
Theorem slrem_removes_matching_nodes (c : redisClient) (cmd key : robj)
  (scores : list robj) (m : memory) (sl : skiplist) (l : list item) :
  argv c = cmd :: key :: scores →
  Nat.Odd (length scores) →
  lookupKey c key = Some (SkiplistObject m sl) →
  rep m sl l → fresh m →
  Z.of_nat (length l) < 2 ^ 31 →
  ∃ c' l',
    slremCommand c = Ok c'
    ∧ l' `sublist_of` l
    ∧ list_of (lookupKey c' key) l'
    ∧ (lookupKey c' key = None ↔ l' = [])
    ∧ (∀ k, k ≠ string_bytes key → db c' !! k = db c !! k)
    ∧ reply c' = reply c ++ [ReplyLongLong (Z.of_nat (length l) - Z.of_nat (length l'))]
    ∧ dirty c' = dirty c
    ∧ ∀ a, a ∈ l → a ∉ l' →
        ∃ s, s ∈ scores ∧ slCmp (Some s) (Some (iscore a)) = 0.
Proof.
  intros Hargv Hodd Hkey Hrep Hfr Hsmall.
  destruct (slremCommand_rep c cmd key scores m sl l Hargv Hodd Hkey Hrep Hfr Hsmall)
    as (c' & l' & Hrun & Hsub & Hl' & Hnone & Hother & Hreply & Hdirty & Hmatch).
  exists c', l'. do 7 (split; [done|]).
  intros a Ha Hna. destruct (Hmatch a Ha Hna) as (s & Hs & Hsame).
  exists s. split; [done|]. by apply Z.eqb_eq.
Qed.

Lemma slrem_removes_matching_nodes_witness :
  let c := set_argv sample_client (map RawString ["slrem"; "k"; "1"]) in
  ∃ c' l',
    slremCommand c = Ok c'
    ∧ l' `sublist_of` sample_items
    ∧ list_of (lookupKey c' (RawString "k")) l'
    ∧ (lookupKey c' (RawString "k") = None ↔ l' = [])
    ∧ (∀ k, k ≠ "k" → db c' !! k = db c !! k)
    ∧ reply c' = reply c ++ [ReplyLongLong (Z.of_nat (length sample_items)
                                            - Z.of_nat (length l'))]
    ∧ dirty c' = dirty c
    ∧ ∀ a, a ∈ sample_items → a ∉ l' →
        ∃ s, s ∈ [RawString "1"] ∧ slCmp (Some s) (Some (iscore a)) = 0.
Proof.
  apply (slrem_removes_matching_nodes
           (set_argv sample_client (map RawString ["slrem"; "k"; "1"]))
           (RawString "slrem") (RawString "k") [RawString "1"]
           sample_store.1 sample_store.2 sample_items).
  - reflexivity.
  - by exists 0%nat.
  - vm_compute. reflexivity.
  - exact sample_rep.
  - exact sample_fresh.
  - vm_compute. reflexivity.
Defined.

Lemma slrem_keeps_well_formed_witness :
  ∃ c', slremCommand (set_argv sample_client (map RawString ["slrem"; "k"; "1"])) = Ok c'
        ∧ wf_db (db c').
Proof.
  apply (slrem_keeps_well_formed
           (set_argv sample_client (map RawString ["slrem"; "k"; "1"]))
           (RawString "slrem") (RawString "k") [RawString "1"]).
  - reflexivity.
  - intros k e Hke. cbn [db set_argv] in Hke.
    assert (e = SkiplistObject sample_store.1 sample_store.2) as ->.
    { revert Hke. destruct (decide (k = "k")) as [->|Hk].
      - replace (db sample_client !! "k")
          with (Some (SkiplistObject sample_store.1 sample_store.2))
          by (vm_compute; reflexivity).
        by intros [= <-].
      - replace (db sample_client)
          with (<["k" := SkiplistObject sample_store.1 sample_store.2]>
                  (∅ : gmap string entry)) by (vm_compute; reflexivity).
        rewrite lookup_insert_ne by done. by rewrite lookup_empty. }
    split; [exact sample_fresh|]. exists sample_items. exact sample_rep.
  - intros o. replace (lookupKey _ _)
      with (Some (SkiplistObject sample_store.1 sample_store.2))
      by (vm_compute; reflexivity). discriminate.
  - intros m sl. replace (lookupKey _ _)
      with (Some (SkiplistObject sample_store.1 sample_store.2))
      by (vm_compute; reflexivity). intros [= <- <-]. vm_compute. reflexivity.
Defined.

(** ** What the reading commands leave alone *)

Lemma same_but_reply_refl (c : redisClient) : same_but_reply c c.
Proof. by repeat split. Qed.

Lemma same_but_reply_trans (c1 c2 c3 : redisClient) :
  same_but_reply c1 c2 → same_but_reply c2 c3 → same_but_reply c1 c3.
Proof.
  intros (? & ? & ? & ? & ?) (? & ? & ? & ? & ?). repeat split; congruence.
Qed.

Lemma addReply_same (c : redisClient) (r : replyobj) :
  same_but_reply c (addReply c r).
Proof. by repeat split. Qed.

Lemma setDeferredMultiBulkLength_same (c : redisClient) (h : nat) (n : Z) :
  same_but_reply c (setDeferredMultiBulkLength c h n).
Proof. by repeat split. Qed.

Lemma addReplyNode_same (c c' : redisClient) (n : slNode) :
  addReplyNode c n = Ok c' → same_but_reply c c'.
Proof.
  unfold addReplyNode. destruct (score n) as [s|]; [|done].
  destruct (obj n) as [o|]; [|done].
  cbn. intros [= <-]. by repeat split.
Qed.

Lemma slallCommand_while_same (fuel : nat) (m : memory) :
  ∀ c x len c' len',
    slallCommand_while fuel m c x len = Ok (c', len') → same_but_reply c c'.
Proof.
  induction fuel as [|fuel IH]; intros c x len c' len'; [done|].
  cbn [slallCommand_while]. destruct x as [x|].
  - destruct (load m x) as [n|]; [|done]. rewrite bind_Ok.
    destruct (addReplyNode c n) as [c1|] eqn:Hc1; [|done]. rewrite bind_Ok.
    destruct (forward_at n 0) as [f|]; [|done]. rewrite bind_Ok.
    intros H%IH. eapply same_but_reply_trans; [|exact H].
    by apply (addReplyNode_same _ _ n).
  - intros [= <- _]. apply same_but_reply_refl.
Qed.

Lemma slrangeCommand_while_same (fuel : nat) (m : memory) (highend : ptr) :
  ∀ c x len c' len',
    slrangeCommand_while fuel m c highend x len = Ok (c', len') →
    same_but_reply c c'.
Proof.
  induction fuel as [|fuel IH]; intros c x len c' len'; [done|].
  cbn [slrangeCommand_while]. destruct x as [x|].
  - destruct (decide (x = highend)) as [Hx|Hx]; [intros [= <- _]; apply same_but_reply_refl|].
    destruct (load m x) as [n|]; [|done]. rewrite bind_Ok.
    destruct (addReplyNode c n) as [c1|] eqn:Hc1; [|done]. rewrite bind_Ok.
    destruct (forward_at n 0) as [f|]; [|done]. rewrite bind_Ok.
    intros H%IH. eapply same_but_reply_trans; [|exact H].
    by apply (addReplyNode_same _ _ n).
  - intros [= <- _]. apply same_but_reply_refl.
Qed.

Lemma slsearchCommand_while_same (fuel : nat) (m : memory) (s : robj) :
  ∀ c x len c' len',
    slsearchCommand_while fuel m c s x len = Ok (c', len') →
    same_but_reply c c'.
Proof.
  induction fuel as [|fuel IH]; intros c x len c' len'; [done|].
  cbn [slsearchCommand_while]. destruct x as [x|].
  - destruct (load m x) as [n|]; [|done]. rewrite bind_Ok.
    destruct (_ =? 0); [|intros [= <- _]; apply same_but_reply_refl].
    destruct (addReplyNode c n) as [c1|] eqn:Hc1; [|done]. rewrite bind_Ok.
    destruct (forward_at n 0) as [f|]; [|done]. rewrite bind_Ok.
    intros H%IH. eapply same_but_reply_trans; [|exact H].
    by apply (addReplyNode_same _ _ n).
  - intros [= <- _]. apply same_but_reply_refl.
Qed.

Lemma slallCommand_same (c c' : redisClient) :
  slallCommand c = Ok c' → same_but_reply c c'.
Proof.
  unfold slallCommand. destruct (argv_at c 1) as [key|]; [|done]. rewrite bind_Ok.
  destruct (lookupKey c key) as [slobj|];
    [|intros [= <-]; apply addReply_same].
  destruct (not_skiplist slobj); [intros [= <-]; apply addReply_same|].
  destruct (skiplist_of slobj) as [[m sl]|]; [|done]. rewrite bind_Ok.
  destruct (fwd m (sl_header sl) 0) as [x|]; [|done]. rewrite bind_Ok.
  unfold addDeferredMultiBulkLength. cbv beta iota.
  destruct (slallCommand_while _ _ _ _ _) as [[c1 len]|] eqn:Hw; [|done]. rewrite bind_Ok.
  intros [= <-]. apply slallCommand_while_same in Hw.
  eapply same_but_reply_trans; [apply addReply_same|].
  eapply same_but_reply_trans; [exact Hw|]. apply setDeferredMultiBulkLength_same.
Qed.

Lemma slsearchCommand_same (c c' : redisClient) :
  slsearchCommand c = Ok c' → same_but_reply c c'.
Proof.
  unfold slsearchCommand. destruct (argv_at c 1) as [key|]; [|done]. rewrite bind_Ok.
  destruct (argv_at c 2) as [s|]; [|done]. rewrite bind_Ok.
  destruct (lookupKey c key) as [slobj|];
    [|intros [= <-]; apply addReply_same].
  destruct (not_skiplist slobj); [intros [= <-]; apply addReply_same|].
  destruct (skiplist_of slobj) as [[m sl]|]; [|done]. rewrite bind_Ok.
  destruct (slSearchSmallestNode m sl s) as [[x|]|]; rewrite ?bind_Ok;
    [|intros [= <-]; apply addReply_same|done].
  unfold addDeferredMultiBulkLength. cbv beta iota.
  destruct (slsearchCommand_while _ _ _ _ _ _) as [[c1 len]|] eqn:Hw; [|done]. rewrite bind_Ok.
  intros [= <-]. apply slsearchCommand_while_same in Hw.
  eapply same_but_reply_trans; [apply addReply_same|].
  eapply same_but_reply_trans; [exact Hw|]. apply setDeferredMultiBulkLength_same.
Qed.

Lemma slcardCommand_same (c c' : redisClient) :
  slcardCommand c = Ok c' → same_but_reply c c'.
Proof.
  unfold slcardCommand. destruct (argv_at c 1) as [key|]; [|done]. rewrite bind_Ok.
  destruct (lookupKey c key) as [slobj|];
    [|intros [= <-]; apply addReply_same].
  destruct (not_skiplist slobj); [intros [= <-]; apply addReply_same|].
  destruct (skiplist_of slobj) as [[m sl]|]; [|done]. rewrite bind_Ok.
  intros [= <-]. apply addReply_same.
Qed.

Lemma slrangeCommand_same (sh : sharedObjectsStruct) (uninit : Z)
  (c c' : redisClient) :
  slrangeCommand sh uninit c = Ok c' → same_but_reply c c'.
Proof.
  unfold slrangeCommand. destruct (argv_at c 1) as [key|]; [|done]. rewrite bind_Ok.
  destruct (argv_at c 2) as [a2|]; [|done]. rewrite bind_Ok.
  destruct (argv_at c 3) as [a3|]; [|done]. rewrite bind_Ok.
  destruct (slParseRange sh a2 a3) as [[range|]|]; rewrite ?bind_Ok;
    [|intros [= <-]; apply addReply_same|done].
  destruct (lookupKey c key) as [slobj|];
    [|intros [= <-]; apply addReply_same].
  destruct (not_skiplist slobj); [intros [= <-]; apply addReply_same|].
  destruct (skiplist_of slobj) as [[m sl]|]; [|done]. rewrite bind_Ok.
  destruct (slRangeLowEnd uninit m sl range) as [[low|]|]; rewrite ?bind_Ok;
    [|intros [= <-]; apply addReply_same|done].
  destruct (slRangeHighEnd m sl range) as [[high|]|]; rewrite ?bind_Ok;
    [|intros [= <-]; apply addReply_same|done].
  unfold addDeferredMultiBulkLength. cbv beta iota.
  destruct (slrangeCommand_while _ _ _ _ _ _) as [[c1 len]|] eqn:Hw; [|done]. rewrite bind_Ok.
  destruct (load m high) as [nh|]; [|done]. rewrite bind_Ok.
  destruct (addReplyNode c1 nh) as [c2|] eqn:Hc2; [|done]. rewrite bind_Ok.
  intros [= <-]. apply slrangeCommand_while_same in Hw.
  apply addReplyNode_same in Hc2.
  eapply same_but_reply_trans; [apply addReply_same|].
  eapply same_but_reply_trans; [exact Hw|].
  eapply same_but_reply_trans; [exact Hc2|]. apply setDeferredMultiBulkLength_same.
Qed.

(** X21.  SLALL, SLRANGE, SLSEARCH and SLCARD write to the reply buffer
    only: whenever one of them returns, the key table, the arguments, the
    dirty counter, the events and the script of [random()] are as they
    were. *)
Theorem reads_touch_only_the_reply (sh : sharedObjectsStruct) (uninit : Z)
  (c c' : redisClient) :
  slallCommand c = Ok c' ∨ slrangeCommand sh uninit c = Ok c'
  ∨ slsearchCommand c = Ok c' ∨ slcardCommand c = Ok c' →
  same_but_reply c c'.
Proof.
  intros [H|[H|[H|H]]].
  - by apply slallCommand_same.
  - by apply (slrangeCommand_same sh uninit).
  - by apply slsearchCommand_same.
  - by apply slcardCommand_same.
Qed.

Lemma reads_touch_only_the_reply_witness :
  let c := set_argv sample_client (map RawString ["slall"; "k"]) in
  same_but_reply c
    (with_replies c (MultiBulkLength 6 :: bulks sample_items)).
Proof.
  apply (reads_touch_only_the_reply shared 0
           (set_argv sample_client (map RawString ["slall"; "k"]))).
  left. vm_compute. reflexivity.
Defined.

(** ** A missing key *)

(** X22.  The key is not in the table.  SLRANGE (its bounds parsed),
    SLSEARCH, SLREM (given an odd number of scores) and SLALL send the
    empty multi-bulk reply and SLCARD replies 0; none of the five changes
    the table.  SLADD with no pair binds the key to an empty list and
    replies 0. *)
Theorem missing_key_is_answered (c : redisClient) (key : robj) :
  argv c !! 1%nat = Some key →
  lookupKey c key = None →
  (∀ sh uninit a2 a3 range,
      argv c !! 2%nat = Some a2 → argv c !! 3%nat = Some a3 →
      slParseRange sh a2 a3 = Ok (Some range) →
      ∃ c', slrangeCommand sh uninit c = Ok c' ∧ only_replies c shared_emptymultibulk c')
  ∧ (∀ s, argv c !! 2%nat = Some s →
      ∃ c', slsearchCommand c = Ok c' ∧ only_replies c shared_emptymultibulk c')
  ∧ (argc c mod 2 ≠ 0 →
      ∃ c', slremCommand c = Ok c' ∧ only_replies c shared_emptymultibulk c')
  ∧ (∃ c', slallCommand c = Ok c' ∧ only_replies c shared_emptymultibulk c')
  ∧ (∃ c', slcardCommand c = Ok c' ∧ only_replies c (ReplyDouble 0) c')
  ∧ (argc c = 2 →
      ∃ c', sladdCommand c = Ok c'
            ∧ reply c' = reply c ++ [ReplyLongLong 0]
            ∧ db c' = <[string_bytes key := createSkiplistObject]> (db c)
            ∧ dirty c' = dirty c ∧ events c' = events c).
Proof.
  intros Hkey Hlook. repeat split.
  - intros sh uninit a2 a3 range H2 H3 Hp. eexists. split; [|apply only_replies_addReply].
    unfold slrangeCommand, argv_at. rewrite Hkey, H2, H3. cbn.
    by rewrite Hp, Hlook.
  - intros s H2. eexists. split; [|apply only_replies_addReply].
    unfold slsearchCommand, argv_at. rewrite Hkey, H2. cbn.
    by rewrite Hlook.
  - intros Hodd. eexists. split; [|apply only_replies_addReply].
    unfold slremCommand, argv_at.
    destruct (Z.eqb_spec (argc c mod 2) 0) as [Heq|_]; [by destruct Hodd|].
    rewrite Hkey. cbn. by rewrite Hlook.
  - eexists. split; [|apply only_replies_addReply].
    unfold slallCommand, argv_at. rewrite Hkey. cbn. by rewrite Hlook.
  - eexists. split; [|apply only_replies_addReply].
    unfold slcardCommand, argv_at. rewrite Hkey. cbn. by rewrite Hlook.
  - intros Hargc. unfold sladdCommand, argv_at. rewrite Hargc, Hkey. cbn.
    rewrite Hlook. cbn. unfold argc in *. cbn [argv set_db]. rewrite Hargc. cbn.
    eexists. split; [reflexivity|]. cbn. by rewrite insert_insert_eq.
Qed.

Lemma missing_key_is_answered_witness :
  let c := set_argv (fresh_client []) (map RawString ["slcard"; "k"]) in
  ∃ c', slcardCommand c = Ok c' ∧ only_replies c (ReplyDouble 0) c'.
Proof.
  exact (proj1 (proj2 (proj2 (proj2 (proj2
           (missing_key_is_answered
              (set_argv (fresh_client []) (map RawString ["slcard"; "k"]))
              (RawString "k") eq_refl eq_refl)))))).
Defined.

(** ** SLADD on a key of another type *)

(** X23.  The key holds an object that is not a skiplist and SLADD is
    given no pair: the wrong-type reply is followed by the reply 0, and
    the table, the dirty counter and the events are as they were. *)
Theorem sladd_wrong_type_without_pairs (c : redisClient) (cmd key : robj)
  (e : entry) :
  argv c = [cmd; key] →
  lookupKey c key = Some e →
  not_skiplist e = true →
  ∃ c', sladdCommand c = Ok c'
        ∧ reply c' = reply c ++ [shared_wrongtypeerr; ReplyLongLong 0]
        ∧ db c' = db c ∧ dirty c' = dirty c ∧ events c' = events c.
Proof.
  intros Hargv Hlook Hno. unfold sladdCommand, argv_at, argc.
  rewrite Hargv. cbn. rewrite Hlook, Hno. cbn. rewrite Hargv. cbn.
  eexists. split; [reflexivity|]. cbn. split; [by rewrite <- app_assoc|].
  split; [|done]. by apply insert_id.
Qed.

Lemma sladd_wrong_type_without_pairs_witness :
  let c := mkClient (map RawString ["sladd"; "k"])
                    {["k" := PlainObject (RawString "v")]} [] 0 [] [] in
  ∃ c', sladdCommand c = Ok c'
        ∧ reply c' = reply c ++ [shared_wrongtypeerr; ReplyLongLong 0]
        ∧ db c' = db c ∧ dirty c' = dirty c ∧ events c' = events c.
Proof.
  apply (sladd_wrong_type_without_pairs
           (mkClient (map RawString ["sladd"; "k"])
                     {["k" := PlainObject (RawString "v")]} [] 0 [] [])
           (RawString "sladd") (RawString "k") (PlainObject (RawString "v"))).
  - reflexivity.
  - vm_compute. reflexivity.
  - reflexivity.
Defined.
